(** * InSAR mapper: filters and renderer of [insar_mapper.py]

    A shallow embedding of the table filters ([filter_valid] ...
    [filter_lookDir]) and of [plot_insar_points_interactive], together with
    the properties of the filter pipeline, the symbol assignment and the
    renderer's early exits.

    Modelling choices.
    - A spreadsheet cell is a Python object.  The model has [str], [int],
      [bool] and the float NaN that an empty cell loads as.  Finite floats
      are not cell payloads of the model: their [str()] rendering is a
      floating-point algorithm.  Where the renderer converts coordinates
      with [float()], the conversion is kept symbolic.
    - Columns have dtype [object] (the loader promotes a data row to the
      header), and [astype(str)] is that of pandas 2: every value, NaN
      included, becomes its [str()] text.
    - Python [str] is a byte string here (UTF-8); substring search and
      code-point order agree with their byte-level versions on it.
    - A DataFrame is the list of its column labels and the list of its rows,
      each row an index label and a dictionary from column label to cell.
      Series are positional lists: every Series the program combines with a
      frame was read from that same frame.
    - An [int] cell is within the range of a float, as every number of a
      spreadsheet is, and a coordinate is finite or NaN.  The map library
      refuses a coordinate that is NaN.  The centre of the map, a mean
      that skips NaN, is not computed: it is NaN only when a whole column
      is, and then the first marker is refused in the same state.  The
      tiles named by [background] are tiles the map library knows.
    - DataFrames are mutable objects: the program state is a store of
      frames, the standard output, and the file system: what was written
      at a path, or that the path cannot be written. *)

From Stdlib Require Import ZArith String Ascii DecimalString OrderedTypeEx Lia.
From stdpp Require Import base option list strings gmap sorting.


(** ** Python values *)

Inductive pyval : Type :=
  | VStr (s : string)
  | VInt (z : Z)
  | VBool (b : bool)
  | VNaN.

#[global] Instance pyval_eq_dec : EqDecision pyval.
Proof. solve_decision. Defined.

(** [str(v)], as applied by [Series.astype(str)] and by f-strings. *)
Definition py_str (v : pyval) : string :=
  match v with
  | VStr s => s
  | VInt z => NilZero.string_of_int (Z.to_int z)
  | VBool true => "True"
  | VBool false => "False"
  | VNaN => "nan"
  end.

(** What a value hashes and compares as: [True == 1] and [False == 0],
    a string equals only strings, NaN equals nothing. *)
Inductive pykey : Type :=
  | KStr (s : string)
  | KNum (z : Z).

#[global] Instance pykey_eq_dec : EqDecision pykey.
Proof. solve_decision. Defined.

Definition py_key (v : pyval) : option pykey :=
  match v with
  | VStr s => Some (KStr s)
  | VInt z => Some (KNum z)
  | VBool b => Some (KNum (if b then 1 else 0))
  | VNaN => None
  end.

(** [a == b] *)
Definition py_eq (a b : pyval) : bool :=
  match py_key a, py_key b with
  | Some x, Some y => bool_decide (x = y)
  | _, _ => false
  end.

(** [pd.isna(v)] *)
Definition isna (v : pyval) : bool :=
  match v with VNaN => true | _ => false end.

(** Exceptions the modelled code can raise. *)
Inductive exn : Type :=
  | KeyError (key : string)
  | TypeError
  | ValueError
  | IndexError
  | WriteError (path : string).   (* a file that cannot be written *)

Inductive res (A : Type) : Type :=
  | Ok (a : A)
  | Err (e : exn).
Arguments Ok {A} a.
Arguments Err {A} e.

Definition res_bind {A B} (m : res A) (k : A → res B) : res B :=
  match m with Ok a => k a | Err e => Err e end.

Definition res_map {A B} (f : A → B) (m : res A) : res B :=
  match m with Ok a => Ok (f a) | Err e => Err e end.

(** ** Strings *)

(** [s.startswith(t)] *)
Fixpoint startswith (s t : string) {struct t} : bool :=
  match t, s with
  | EmptyString, _ => true
  | String _ _, EmptyString => false
  | String b t', String a s' => bool_decide (a = b) && startswith s' t'
  end.

(** [t in s] for two strings: [t] occurs in [s] at some offset. *)
Fixpoint str_in (t s : string) : bool :=
  startswith s t ||
  match s with
  | EmptyString => false
  | String _ s' => str_in t s'
  end.

(** [t in x] where [x] is any object: only a string can be searched. *)
Definition py_in (t : string) (x : pyval) : res bool :=
  match x with
  | VStr s => Ok (str_in t s)
  | _ => Err TypeError
  end.

(** [any(t in x for t in ts)]: the generator stops at the first hit. *)
Fixpoint any_in (ts : list string) (x : pyval) : res bool :=
  match ts with
  | [] => Ok false
  | t :: ts' =>
      res_bind (py_in t x) (λ b, if b then Ok true else any_in ts' x)
  end.

(** Case folding of one byte: only ASCII letters have two cases. *)
Definition lower_ascii (c : ascii) : ascii :=
  let n := nat_of_ascii c in
  if ((65 <=? n) && (n <=? 90)) then ascii_of_nat (n + 32) else c.

Fixpoint lower (s : string) : string :=
  match s with
  | EmptyString => EmptyString
  | String c s' => String (lower_ascii c) (lower s')
  end.

(** [re.search(pat, s, re.IGNORECASE)] for a pattern of ASCII letters. *)
Definition search_nocase (pat s : string) : bool :=
  str_in (lower pat) (lower s).

(** One element of [Series.str.contains(pat, case=False, na=False)]:
    an element that is not a string is missing, and [na=False] fills it. *)
Definition str_contains_nocase (pat : string) (x : pyval) : bool :=
  match x with
  | VStr s => search_nocase pat s
  | _ => false
  end.

(** One element of [Series.isin(values)] for a list of strings. *)
Definition isin (values : list string) (x : pyval) : bool :=
  existsb (λ s, py_eq x (VStr s)) values.

(** [Series.apply(f)] for an [f] that may raise. *)
Fixpoint apply {A B} (f : A → res B) (l : list A) : res (list B) :=
  match l with
  | [] => Ok []
  | x :: l' =>
      res_bind (f x) (λ y, res_bind (apply f l') (λ ys, Ok (y :: ys)))
  end.

(** ** DataFrames *)

Record Row : Type := mkRow {
  label : Z;                      (* the index label of the row *)
  cells : gmap string pyval
}.

Record DataFrame : Type := mkFrame {
  columns : list string;
  rows : list Row
}.

#[global] Instance Row_eq_dec : EqDecision Row.
Proof. solve_decision. Defined.

(** The cell of a row under a column label; pandas reads a cell that was
    never filled as NaN. *)
Definition cell (c : string) (r : Row) : pyval :=
  default VNaN (cells r !! c).

Definition set_cell (c : string) (v : pyval) (r : Row) : Row :=
  {| label := label r; cells := <[c := v]> (cells r) |}.

(** [len(df)] *)
Definition len (T : DataFrame) : nat := length (rows T).

(** [df.empty]: some axis has length zero. *)
Definition empty (T : DataFrame) : bool :=
  match rows T, columns T with
  | [], _ | _, [] => true
  | _, _ => false
  end.

(** [df[c]]: the column as a Series, [KeyError] when the label is absent. *)
Definition getcol (T : DataFrame) (c : string) : res (list pyval) :=
  if bool_decide (c ∈ columns T) then Ok (map (cell c) (rows T))
  else Err (KeyError c).

(** The rows at the positions where a boolean mask is true. *)
Fixpoint take_mask (mask : list bool) (rs : list Row) : list Row :=
  match mask, rs with
  | b :: mask', r :: rs' =>
      if b then r :: take_mask mask' rs' else take_mask mask' rs'
  | _, _ => []
  end.

(** [df[mask]] for a boolean mask: a new frame; pandas refuses a mask of
    the wrong length. *)
Definition getmask (T : DataFrame) (mask : list bool) : res DataFrame :=
  if bool_decide (length mask = length (rows T))
  then Ok {| columns := columns T; rows := take_mask mask (rows T) |}
  else Err ValueError.

(** [df[c] = values]: replaces the column, or appends it when new. *)
Definition setcol (T : DataFrame) (c : string) (values : list pyval)
  : res DataFrame :=
  if bool_decide (length values = length (rows T))
  then Ok {| columns := if bool_decide (c ∈ columns T) then columns T
                        else columns T ++ [c];
             rows := zip_with (set_cell c) values (rows T) |}
  else Err ValueError.

(** The key of [df[key]] that the program builds with [Series.apply] from
    a function into [bool].  On a Series with elements the results are
    inferred to be booleans and the key is a boolean mask.  An empty
    Series is returned as it is, with the dtype [object] of the column:
    a key that is empty and not boolean, which [df[key]] reads as a list
    of column labels. *)
Inductive key : Type :=
  | BoolMask (mask : list bool)
  | NoLabels.

Definition applied (results : list bool) : key :=
  match results with
  | [] => NoLabels
  | _ => BoolMask results
  end.

(** [df[key]]: the rows of a boolean mask, or the columns of a list of
    labels; with no label no column is selected and the index stays. *)
Definition getkey (T : DataFrame) (k : key) : res DataFrame :=
  match k with
  | BoolMask mask => getmask T mask
  | NoLabels =>
      Ok {| columns := [];
            rows := map (λ r, {| label := label r; cells := ∅ |}) (rows T) |}
  end.

(** [Series.astype(str)] *)
Definition astype_str (s : list pyval) : list pyval :=
  map (λ v, VStr (py_str v)) s.

(** ** The map object and the output files *)

(** Coordinates are carried as the cells they are read from; [float()] is
    applied to them by the renderer (see [py_float]). *)
Inductive marker : Type :=
  | CircleMarker (lat lon : pyval) (radius : nat) (color : string)
      (popup : string)
  | RegularPolygonMarker (lat lon : pyval) (number_of_sides radius : nat)
      (color : string) (popup : string).

Inductive element : Type :=
  | Title (text : string)
  | Legend (owners : list (pyval * string)) (instrs : list (pyval * string)).

Record Map : Type := mkMap {
  location : list pyval * list pyval;   (* the columns whose means centre the map *)
  zoom : nat;
  tiles : string;
  markers : list marker;
  html : list element
}.

(** What the file system holds at a path: a file the program wrote, or
    the fact that nothing can be written there (a directory, a file
    without write permission, a folder that does not exist). *)
Inductive artifact : Type :=
  | GeoJSON (features : DataFrame) (geometry : list (pyval * pyval))
  | HTML (m : Map)
  | Unwritable.

(** ** Program state *)

(** A printed line.  [Msg] carries the text of the string literal that is
    printed; for an f-string this is its template, the values that fill
    the braces are not part of the model.  [Stats] is the line of
    [log_filter_stats], by its name and its counts (the percentage is
    their quotient). *)
Inductive line : Type :=
  | Msg (text : string)
  | Stats (filter_name : string) (after before : nat) (removed : Z).

Definition loc := nat.

Record world : Type := mkWorld {
  heap : list DataFrame;          (* frame objects, in allocation order *)
  stdout : list line;
  files : gmap string artifact
}.

(** A run returns, raises, never finishes, or is stuck on a reference that
    names no frame (which no Python run does). *)
Inductive outcome (A : Type) : Type :=
  | Returns (a : A) (w : world)
  | Raises (e : exn) (w : world)
  | Diverges
  | Stuck.
Arguments Returns {A} a w.
Arguments Raises {A} e w.
Arguments Diverges {A}.
Arguments Stuck {A}.

Definition M (A : Type) : Type := world → outcome A.

Definition ret {A} (a : A) : M A := λ w, Returns a w.

Definition bind {A B} (m : M A) (k : A → M B) : M B :=
  λ w, match m w with
       | Returns a w' => k a w'
       | Raises e w' => Raises e w'
       | Diverges => Diverges
       | Stuck => Stuck
       end.

Notation "x <~ c1 ;; c2" := (bind c1 (λ x, c2))
  (at level 100, c1 at next level, right associativity).
Notation "c1 ;; c2" := (bind c1 (λ _, c2))
  (at level 100, right associativity).

Definition raise {A} (e : exn) : M A := λ w, Raises e w.

Definition lift {A} (m : res A) : M A :=
  match m with Ok a => ret a | Err e => raise e end.

Definition print (l : line) : M unit :=
  λ w, Returns tt {| heap := heap w; stdout := stdout w ++ [l];
                     files := files w |}.

Definition deref (l : loc) : M DataFrame :=
  λ w, match heap w !! l with
       | Some T => Returns T w
       | None => Stuck
       end.

(** A new frame object. *)
Definition new_frame (T : DataFrame) : M loc :=
  λ w, Returns (length (heap w))
         {| heap := heap w ++ [T]; stdout := stdout w; files := files w |}.

(** Overwrites the frame object at [l]. *)
Definition store (l : loc) (T : DataFrame) : M unit :=
  λ w, Returns tt {| heap := <[l := T]> (heap w); stdout := stdout w;
                     files := files w |}.

(** Writing a file: [gdf.to_file] and [m.save] raise on a path that
    cannot be written, and write nothing. *)
Definition write_file (path : string) (a : artifact) : M unit :=
  λ w, match files w !! path with
       | Some Unwritable => Raises (WriteError path) w
       | _ => Returns tt {| heap := heap w; stdout := stdout w;
                            files := <[path := a]> (files w) |}
       end.

(** [df.copy()] *)
Definition df_copy (df : loc) : M loc :=
  T <~ deref df ;; new_frame T.

(** [len(df)] *)
Definition df_len (df : loc) : M nat :=
  T <~ deref df ;; ret (len T).

(** [df[c]] *)
Definition df_getitem (df : loc) (c : string) : M (list pyval) :=
  T <~ deref df ;; lift (getcol T c).

(** [df[mask]] *)
Definition df_getmask (df : loc) (mask : list bool) : M loc :=
  T <~ deref df ;; T' <~ lift (getmask T mask) ;; new_frame T'.

(** [df[key]] for the result of [Series.apply] *)
Definition df_getkey (df : loc) (k : key) : M loc :=
  T <~ deref df ;; T' <~ lift (getkey T k) ;; new_frame T'.

(** [df[c] = values], in place. *)
Definition df_setitem (df : loc) (c : string) (values : list pyval)
  : M unit :=
  T <~ deref df ;; T' <~ lift (setcol T c values) ;; store df T'.

(** ** Filters *)

Definition log_filter_stats (df_before df_after : loc)
    (filter_name : string) : M unit :=
  before <~ df_len df_before ;;
  after <~ df_len df_after ;;
  print (Stats filter_name after before
           (Z.of_nat before - Z.of_nat after)%Z).

Definition filter_valid (df : loc) : M loc :=
  print (Msg "--> Filtering valid entries...") ;;
  df_before <~ df_copy df ;;
  valid <~ df_getitem df "valid" ;;
  filtered_df <~ df_getmask df (map (λ v, py_eq v (VBool true)) valid) ;;
  log_filter_stats df_before filtered_df "Valid filter" ;;
  ret filtered_df.

Definition filter_country (df : loc) (countries : list string) : M loc :=
  print (Msg "--> Filtering for countries: {countries}...") ;;
  df_before <~ df_copy df ;;
  countryCode <~ df_getitem df "countryCode" ;;
  filtered_df <~ df_getmask df (map (isin countries) countryCode) ;;
  log_filter_stats df_before filtered_df "Country filter" ;;
  ret filtered_df.

Definition filter_active (df : loc) : M loc :=
  print (Msg "--> Filtering active InSAR targets...") ;;
  df_before <~ df_copy df ;;
  insarEnd <~ df_getitem df "insarEnd" ;;
  filtered_df <~ df_getmask df (map (λ v, py_eq v (VInt 99999999)) insarEnd) ;;
  log_filter_stats df_before filtered_df "Active targets filter" ;;
  ret filtered_df.

(** The mask of [filter_satSys] is boolean on every frame: [|] with the
    boolean Series of [str.contains] gives a boolean Series, also from
    the empty result of [Series.apply]. *)
Definition filter_satSys (df : loc) (satSystems : list string) : M loc :=
  print (Msg "--> Filtering for satellite systems: {satSystems}...") ;;
  df_before <~ df_copy df ;;
  df <~ df_copy df ;;
  satSys <~ df_getitem df "satSys" ;;
  df_setitem df "satSys" (astype_str satSys) ;;
  satSys_l <~ df_getitem df "satSys" ;;
  satSys_r <~ df_getitem df "satSys" ;;
  any <~ lift (apply (any_in satSystems) satSys_r) ;;
  filtered_df <~ df_getmask df
    (zip_with orb (map (str_contains_nocase "All") satSys_l) any) ;;
  log_filter_stats df_before filtered_df "Satellite system filter" ;;
  ret filtered_df.

(** The inner function [normalize] of [filter_instrClass]. *)
Fixpoint normalize (types : list string) (instr : pyval) : res pyval :=
  match types with
  | [] => Ok instr
  | t :: types' =>
      res_bind (py_in t instr)
        (λ b, if b then Ok (VStr t) else normalize types' instr)
  end.

Definition filter_instrClass (df : loc) (types : list string)
    (strict : bool) : M loc :=
  print (Msg "--> Filtering by instrument class: {types} (strict={strict})...") ;;
  df_before <~ df_copy df ;;
  df <~ df_copy df ;;
  instrClass <~ df_getitem df "instrClass" ;;
  df_setitem df "instrClass" (astype_str instrClass) ;;
  filtered_df <~
    (if strict then
       instrClass <~ df_getitem df "instrClass" ;;
       df_getmask df (map (isin types) instrClass)
     else
       instrClass <~ df_getitem df "instrClass" ;;
       mask <~ lift (apply (any_in types) instrClass) ;;
       selected <~ df_getkey df (applied mask) ;;
       filtered_df <~ df_copy selected ;;
       instrClass <~ df_getitem filtered_df "instrClass" ;;
       normalized <~ lift (apply (normalize types) instrClass) ;;
       df_setitem filtered_df "instrClass" normalized ;;
       ret filtered_df) ;;
  log_filter_stats df_before filtered_df "Instrument class filter" ;;
  ret filtered_df.

Definition filter_owner (df : loc) (owners : list string) : M loc :=
  print (Msg "--> Filtering for owners: {owners}...") ;;
  df_before <~ df_copy df ;;
  owner <~ df_getitem df "owner" ;;
  filtered_df <~ df_getmask df (map (isin owners) owner) ;;
  log_filter_stats df_before filtered_df "Owner filter" ;;
  ret filtered_df.

Definition filter_siteId (df : loc) (sites : list string) : M loc :=
  print (Msg "--> Filtering for site IDs: {sites}...") ;;
  df_before <~ df_copy df ;;
  siteId <~ df_getitem df "siteId" ;;
  filtered_df <~ df_getmask df (map (isin sites) siteId) ;;
  log_filter_stats df_before filtered_df "Site ID filter" ;;
  ret filtered_df.

Definition filter_lookDir (df : loc) (directions : list string) : M loc :=
  print (Msg "--> Filtering for look directions: {directions}...") ;;
  df_before <~ df_copy df ;;
  df <~ df_copy df ;;
  lookDir <~ df_getitem df "lookDir" ;;
  df_setitem df "lookDir" (astype_str lookDir) ;;
  lookDir <~ df_getitem df "lookDir" ;;
  mask <~ lift (apply (any_in directions) lookDir) ;;
  filtered_df <~ df_getkey df (applied mask) ;;
  log_filter_stats df_before filtered_df "Look direction filter" ;;
  ret filtered_df.

(** ** Symbol assignment *)

(** [Series.dropna()] *)
Definition dropna (s : list pyval) : list pyval :=
  List.filter (λ v, negb (isna v)) s.

(** [Series.unique()]: a hash-table scan that keeps the first object of
    every class of equal objects, in order of appearance. *)
Fixpoint unique_scan (seen : list (option pykey)) (s : list pyval)
  : list pyval :=
  match s with
  | [] => []
  | v :: s' =>
      if bool_decide (py_key v ∈ seen) then unique_scan seen s'
      else v :: unique_scan (py_key v :: seen) s'
  end.

Definition unique (s : list pyval) : list pyval := unique_scan [] s.

Definition num (v : pyval) : Z :=
  match v with
  | VInt z => z
  | VBool true => 1
  | _ => 0
  end.

(** [a < b]: strings by code points, numbers by value, [TypeError] between
    a string and a number; every comparison with NaN is false. *)
Definition py_lt (a b : pyval) : res bool :=
  match a, b with
  | VStr s, VStr t => Ok (String.ltb s t)
  | VStr _, _ | _, VStr _ => Err TypeError
  | VNaN, _ | _, VNaN => Ok false
  | _, _ => Ok (num a <? num b)%Z
  end.

(** [sorted(l)] is a stable sort by [<].  It is written here as a stable
    insertion sort: an element goes behind the elements that are not
    greater than it. *)
Fixpoint insort (x : pyval) (l : list pyval) : res (list pyval) :=
  match l with
  | [] => Ok [x]
  | y :: l' =>
      res_bind (py_lt x y)
        (λ b, if b then Ok (x :: y :: l')
              else res_bind (insort x l') (λ l'', Ok (y :: l'')))
  end.

Definition sorted (l : list pyval) : res (list pyval) :=
  fold_left (λ acc x, res_bind acc (insort x)) l (Ok []).

(** A [dict] with string values, in insertion order. *)
Definition dict : Type := list (pyval * string).

(** [d[k] = v]: an equal key keeps its place and takes the new value. *)
Fixpoint dict_set (d : dict) (k : pyval) (v : string) : dict :=
  match d with
  | [] => [(k, v)]
  | (k', v') :: d' =>
      if py_eq k' k then (k', v) :: d' else (k', v') :: dict_set d' k v
  end.

Fixpoint dict_find (d : dict) (k : pyval) : option string :=
  match d with
  | [] => None
  | (k', v') :: d' => if py_eq k' k then Some v' else dict_find d' k
  end.

(** [d.get(k, dflt)] *)
Definition dict_get (d : dict) (k : pyval) (dflt : string) : string :=
  default dflt (dict_find d k).

(** [{k: f(i) for i, k in enumerate(keys)}], from index [i] on. *)
Fixpoint dict_comp (f : nat → res string) (i : nat) (keys : list pyval)
    (d : dict) : res dict :=
  match keys with
  | [] => Ok d
  | k :: keys' =>
      res_bind (f i) (λ v, dict_comp f (S i) keys' (dict_set d k v))
  end.

(** [l[i]] *)
Definition index (l : list string) (i : nat) : res string :=
  match l !! i with
  | Some x => Ok x
  | None => Err IndexError
  end.

Definition icon_shapes : list string :=
  ["circle"; "triangle"; "square"; "star"; "diamond"].

(** [{instr: icon_shapes[i % len(icon_shapes)] for ...}] over the sorted
    distinct instrument classes of a column. *)
Definition make_instr_icon_map (instr : list pyval) : res dict :=
  res_bind (sorted (unique (dropna instr)))
    (λ instr_classes,
       dict_comp (λ i, index icon_shapes (i mod length icon_shapes)) 0
         instr_classes []).

(** ** Renderer *)

Record plot_args : Type := mkArgs {
  lat_col : string;
  lon_col : string;
  owner_col : string;
  instr_col : string;
  popup_cols : list string;
  map_title : string;
  zoom_start : nat;
  save_html_path : option string;
  save_geojson_path : string;
  background : string
}.

(** The keyword defaults of [plot_insar_points_interactive]. *)
Definition default_args : plot_args :=
  {| lat_col := "latitude"; lon_col := "longitude"; owner_col := "owner";
     instr_col := "instrClass";
     popup_cols := ["siteId"; "owner"; "instrClass"; "countryCode"];
     map_title := "InSAR Target Locations"; zoom_start := 6;
     save_html_path := None; save_geojson_path := "insar_points.geojson";
     background := "OpenStreetMap" |}.

(** [{"triangle": 3, "square": 4, "star": 5, "diamond": 4}.get(shape, 4)] *)
Definition number_of_sides_of (shape : string) : nat :=
  if String.eqb shape "triangle" then 3
  else if String.eqb shape "square" then 4
  else if String.eqb shape "star" then 5
  else if String.eqb shape "diamond" then 4
  else 4.

(** [row.get(c, dflt)] on a row of frame [T]. *)
Definition row_get (T : DataFrame) (c : string) (dflt : pyval) (r : Row)
  : pyval :=
  if bool_decide (c ∈ columns T) then cell c r else dflt.

(** The whitespace of [str.isspace], as UTF-8 byte sequences: [float()]
    strips it from both ends of a text. *)
Definition bytes (l : list nat) : string :=
  fold_right (λ n s, String (ascii_of_nat n) s) EmptyString l.

Definition whitespace : list string :=
  map bytes
    [ [9]; [10]; [11]; [12]; [13]; [28]; [29]; [30]; [31]; [32];
      [194; 133]; [194; 160]; [225; 154; 128];
      [226; 128; 128]; [226; 128; 129]; [226; 128; 130]; [226; 128; 131];
      [226; 128; 132]; [226; 128; 133]; [226; 128; 134]; [226; 128; 135];
      [226; 128; 136]; [226; 128; 137]; [226; 128; 138];
      [226; 128; 168]; [226; 128; 169]; [226; 128; 175];
      [226; 129; 159]; [227; 128; 128] ].

Fixpoint skip (n : nat) (s : string) : string :=
  match n, s with
  | S n', String _ s' => skip n' s'
  | _, _ => s
  end.

(** [s.lstrip()] *)
Fixpoint lstrip (fuel : nat) (s : string) : string :=
  match fuel with
  | O => s
  | S fuel' =>
      match List.find (startswith s) whitespace with
      | Some sp => lstrip fuel' (skip (String.length sp) s)
      | None => s
      end
  end.

(** Whether [float()] reads a text as NaN: the letters of "nan" in any
    case, after an optional sign, between whitespace. *)
Definition nan_text (s : string) : bool :=
  let s1 := lstrip (String.length s) s in
  let s2 := match s1 with
            | String c s' =>
                if bool_decide (c = "+"%char ∨ c = "-"%char) then s' else s1
            | EmptyString => s1
            end in
  match s2 with
  | String a (String b (String c rest)) =>
      String.eqb (lower (String a (String b (String c EmptyString)))) "nan"
      && String.eqb (lstrip (String.length rest) rest) EmptyString
  | _ => false
  end.

(** [math.isnan(float(v))] for a value that [float()] accepts. *)
Definition float_isnan (v : pyval) : bool :=
  match v with
  | VNaN => true
  | VStr s => nan_text s
  | _ => false
  end.

(** The check of a marker's location in folium: a coordinate that is NaN
    is refused with [ValueError]. *)
Definition validate_location (lat lon : pyval) : res unit :=
  if float_isnan lat || float_isnan lon then Err ValueError else Ok tt.

Section Renderer.

(** [matplotlib.colors.TABLEAU_COLORS.values()] and
    [matplotlib.colors.CSS4_COLORS.values()]: tables of a library, taken
    as given. *)
Variable TABLEAU_COLORS CSS4_COLORS : list string.

(** Whether [float()] accepts a text: a parser of a library, taken as
    given. *)
Variable float_literal : string → bool.

(** [float(v)]: the conversion is kept symbolic, only its failure is
    modelled. *)
Definition py_float (v : pyval) : res pyval :=
  match v with
  | VStr s => if float_literal s then Ok v else Err ValueError
  | _ => Ok v
  end.

(** [while len(colors) < n: colors += CSS4]; [None] when the fuel is
    used up. *)
Fixpoint extend_colors (fuel : nat) (colors : list string) (n : nat)
  : option (list string) :=
  if (length colors <? n)%nat then
    match fuel with
    | O => None
    | S fuel' => extend_colors fuel' (colors ++ CSS4_COLORS) n
    end
  else Some colors.

(** The palette for [n] owners.  [n] rounds of the loop are enough
    unless the loop never ends (see [palette_diverges]). *)
Definition palette (n : nat) : M (list string) :=
  match extend_colors n TABLEAU_COLORS n with
  | Some colors => ret colors
  | None => λ _, Diverges
  end.

(** The owner colour map of a column of owners. *)
Definition make_owner_color_map (owner : list pyval) : M dict :=
  owners <~ lift (sorted (unique (dropna owner))) ;;
  colors <~ palette (length owners) ;;
  lift (dict_comp (index colors) 0 owners []).

(** The body of the loop over [df.iterrows()]. *)
Definition make_marker (T : DataFrame) (a : plot_args)
    (owner_color_map instr_icon_map : dict) (row : Row) : res marker :=
  res_bind (py_float (cell (lat_col a) row)) (λ lat,
  res_bind (py_float (cell (lon_col a) row)) (λ lon,
    let owner := row_get T (owner_col a) (VStr "Unknown") row in
    let instr := row_get T (instr_col a) (VStr "Unknown") row in
    let popup_text :=
      String.concat "<br>"
        (map (λ col, "<b>" +:+ col +:+ ":</b> " +:+ py_str (cell col row))
           (List.filter (λ col, bool_decide (col ∈ columns T))
              (popup_cols a))) in
    let color := dict_get owner_color_map owner "gray" in
    let shape := dict_get instr_icon_map instr "circle" in
    res_bind (validate_location lat lon) (λ _,
    Ok (if String.eqb shape "circle"
        then CircleMarker lat lon 5 color popup_text
        else RegularPolygonMarker lat lon (number_of_sides_of shape) 7
               color popup_text)))).

Definition plot_insar_points_interactive (df : loc) (a : plot_args)
  : M (option Map) :=
  T <~ deref df ;;
  if empty T then
    print (Msg "Error: No data to plot (DataFrame is empty).") ;;
    ret None
  else if negb (bool_decide (lat_col a ∈ columns T))
          || negb (bool_decide (lon_col a ∈ columns T)) then
    print (Msg "Error: Missing latitude or longitude columns.") ;;
    ret None
  else
    print (Msg "--> Creating interactive map for {len(df)} InSAR points...") ;;
    owner <~ df_getitem df (owner_col a) ;;
    owner_color_map <~ make_owner_color_map owner ;;
    instr <~ df_getitem df (instr_col a) ;;
    instr_icon_map <~ lift (make_instr_icon_map instr) ;;
    lat <~ df_getitem df (lat_col a) ;;
    center_lat <~ lift (apply py_float lat) ;;
    lon <~ df_getitem df (lon_col a) ;;
    center_lon <~ lift (apply py_float lon) ;;
    ms <~ lift (apply (make_marker T a owner_color_map instr_icon_map)
                  (rows T)) ;;
    let m := {| location := (center_lat, center_lon);
                zoom := zoom_start a; tiles := background a;
                markers := ms;
                html := [Title (map_title a);
                         Legend owner_color_map instr_icon_map] |} in
    copy <~ df_copy df ;;
    lon <~ df_getitem df (lon_col a) ;;
    xs <~ lift (apply py_float lon) ;;
    lat <~ df_getitem df (lat_col a) ;;
    ys <~ lift (apply py_float lat) ;;
    features <~ deref copy ;;
    write_file (save_geojson_path a) (GeoJSON features (zip xs ys)) ;;
    print (Msg "    ↳ GeoJSON saved: {save_geojson_path}") ;;
    match save_html_path a with
    | Some path =>
        if String.eqb path EmptyString then ret tt
        else write_file path (HTML m) ;;
             print (Msg "    ↳ HTML map saved: {save_html_path}")
    | None => ret tt
    end ;;
    print (Msg "--> Interactive map ready.") ;;
    ret (Some m).

End Renderer.

(** ** The filters as one family *)

Inductive filter : Type :=
  | Valid
  | Country (countries : list string)
  | Active
  | SatSys (satSystems : list string)
  | InstrClass (types : list string) (strict : bool)
  | Owner (owners : list string)
  | SiteId (sites : list string)
  | LookDir (directions : list string).

Definition run_filter (F : filter) (df : loc) : M loc :=
  match F with
  | Valid => filter_valid df
  | Country countries => filter_country df countries
  | Active => filter_active df
  | SatSys satSystems => filter_satSys df satSystems
  | InstrClass types strict => filter_instrClass df types strict
  | Owner owners => filter_owner df owners
  | SiteId sites => filter_siteId df sites
  | LookDir directions => filter_lookDir df directions
  end.

(** The column a filter reads. *)
Definition filter_column (F : filter) : string :=
  match F with
  | Valid => "valid"
  | Country _ => "countryCode"
  | Active => "insarEnd"
  | SatSys _ => "satSys"
  | InstrClass _ _ => "instrClass"
  | Owner _ => "owner"
  | SiteId _ => "siteId"
  | LookDir _ => "lookDir"
  end.

(** ** What a run of a filter amounts to

    The definitions below are not part of the program: they describe, on
    frame values, the frame that a run of a filter leaves behind
    ([run_filter_returns] proves it; [run_filter_cases] has the runs of
    the two filters that use [Series.apply] on a frame without rows). *)

(** Some member of [ts] occurs in [s]. *)
Definition any_str (ts : list string) (s : string) : bool :=
  existsb (λ t, str_in t s) ts.

(** The first member of [ts] that occurs in [s], or [s] itself. *)
Definition first_in (ts : list string) (s : string) : string :=
  default s (List.find (λ t, str_in t s) ts).

(** Whether a filter keeps a row, from the row's cell in the filter's
    column. *)
Definition keeps (F : filter) (v : pyval) : bool :=
  match F with
  | Valid => py_eq v (VBool true)
  | Country countries => isin countries v
  | Active => py_eq v (VInt 99999999)
  | SatSys satSystems =>
      search_nocase "All" (py_str v) || any_str satSystems (py_str v)
  | InstrClass types true => isin types (VStr (py_str v))
  | InstrClass types false => any_str types (py_str v)
  | Owner owners => isin owners v
  | SiteId sites => isin sites v
  | LookDir directions => any_str directions (py_str v)
  end.

(** The value a kept row carries in the filter's column when the filter
    writes that column, [None] when it does not. *)
Definition rewritten (F : filter) (v : pyval) : option pyval :=
  match F with
  | SatSys _ | LookDir _ | InstrClass _ true => Some (VStr (py_str v))
  | InstrClass types false => Some (VStr (first_in types (py_str v)))
  | _ => None
  end.

Definition out_row (F : filter) (r : Row) : Row :=
  match rewritten F (cell (filter_column F) r) with
  | Some v => set_cell (filter_column F) v r
  | None => r
  end.

Definition kept_rows (F : filter) (T : DataFrame) : list Row :=
  List.filter (λ r, keeps F (cell (filter_column F) r)) (rows T).

Definition filter_frame (F : filter) (T : DataFrame) : DataFrame :=
  {| columns := columns T; rows := map (out_row F) (kept_rows F T) |}.

(** The filters whose key is the result of [Series.apply]: the
    look-direction filter and the non-strict instrument-class filter.  On
    a frame without rows their key is no boolean mask, and the run is not
    the one [filter_frame] describes. *)
Definition applies (F : filter) : bool :=
  match F with
  | LookDir _ | InstrClass _ false => true
  | _ => false
  end.

(** When a filter raises although the frame has its column: the
    non-strict instrument-class filter on a frame without rows. *)
Definition raises_on_empty (F : filter) (T : DataFrame) : Prop :=
  (∃ types, F = InstrClass types false) ∧ rows T = [].

(** The frame [df[key]] of a key without labels, on a frame without
    rows. *)
Definition no_columns : DataFrame := {| columns := []; rows := [] |}.

(** The shape of a finished run from state [w]: some frames were
    allocated, the last of them is the one returned, and nothing else of
    the store or of the files changed. *)
Definition returns_frame (w : world) (o : outcome loc) (R : DataFrame)
  : Prop :=
  ∃ extra out,
    o = Returns (length (heap w) + length extra)%nat
          {| heap := heap w ++ extra ++ [R];
             stdout := stdout w ++ out; files := files w |}.

Definition raises_KeyError (w : world) (o : outcome loc) (c : string)
  : Prop :=
  ∃ extra out,
    o = Raises (KeyError c)
          {| heap := heap w ++ extra;
             stdout := stdout w ++ out; files := files w |}.

(** ** Vocabulary of the statements *)

(** [t] occurs in [s] as a substring. *)
Definition occurs_in (t s : string) : Prop := ∃ a b, s = a +:+ t +:+ b.

(** [t] is the first member of [ts], in the order of [ts], that occurs in
    [s]. *)
Definition first_occurring (ts : list string) (s t : string) : Prop :=
  ∃ ts1 ts2, ts = ts1 ++ t :: ts2 ∧ occurs_in t s
             ∧ ∀ u, u ∈ ts1 → ¬ occurs_in u s.

(** [r'] is the row [r] with at most the cell of column [c] rewritten. *)
Definition from_row (c : string) (r r' : Row) : Prop :=
  label r' = label r ∧ ∀ c', c' ≠ c → cells r' !! c' = cells r !! c'.

(** The filters that are a bare selection [df[mask]]. *)
Definition selects_only (F : filter) : bool :=
  match F with
  | Valid | Country _ | Active | Owner _ | SiteId _ => true
  | SatSys _ | InstrClass _ _ | LookDir _ => false
  end.

(** What a kept row carries in the filter's own column. *)
Definition own_cell (F : filter) (v : pyval) : pyval :=
  default v (rewritten F v).

(** ** Sample data *)

Definition sample_row (i : Z) (l : list (string * pyval)) : Row :=
  {| label := i; cells := list_to_map l |}.

Definition sample_columns : list string :=
  ["instrClass"; "owner"; "siteId"; "countryCode"; "insarStart";
   "insarEnd"; "lookDir"; "latitude"; "longitude"; "refFrame"; "valid";
   "satSys"].

Definition sample_frame : DataFrame :=
  {| columns := sample_columns;
     rows :=
       [ sample_row 1
           [("instrClass", VStr "CR123"); ("owner", VStr "TUD");
            ("siteId", VStr "HENGELO"); ("countryCode", VStr "NLD");
            ("insarStart", VInt 20200101); ("insarEnd", VInt 99999999);
            ("lookDir", VStr "E"); ("latitude", VInt 52);
            ("longitude", VInt 6); ("refFrame", VStr "ETRS89");
            ("valid", VBool true); ("satSys", VStr "S1A,RS2")];
         sample_row 2
           [("instrClass", VStr "TR"); ("owner", VNaN);
            ("siteId", VStr "DELFT"); ("countryCode", VStr "NLD");
            ("insarStart", VInt 20210101); ("insarEnd", VInt 20220101);
            ("lookDir", VInt 1); ("latitude", VInt 52);
            ("longitude", VInt 4); ("refFrame", VStr "ETRS89");
            ("valid", VBool false); ("satSys", VStr "All")] ] |}.

Definition sample_world : world :=
  {| heap := [sample_frame]; stdout := []; files := ∅ |}.

(** ** Vocabulary of the symbol assignment *)

(** The order of [sorted] on the classes of equal values. *)
Definition key_le (a b : option pykey) : Prop :=
  match a, b with
  | Some (KStr s), Some (KStr t) => String.le s t
  | Some (KNum x), Some (KNum y) => (x ≤ y)%Z
  | _, _ => False
  end.

(** [a <= b] for two values that can be compared. *)
Definition py_le (a b : pyval) : Prop := key_le (py_key a) (py_key b).

Definition is_text (v : pyval) : bool :=
  match v with VStr _ => true | _ => false end.

(** The loop of [sorted], from an accumulator on. *)
Definition sort_from (acc : res (list pyval)) (l : list pyval)
  : res (list pyval) :=
  fold_left (λ acc x, res_bind acc (insort x)) l acc.

(** A dictionary as Python's [==] sees it: the classes of its keys with
    their values, in insertion order. *)
Definition dict_items (d : dict) : list (option pykey * string) :=
  map (λ kv, (py_key (fst kv), snd kv)) d.

Definition marker_color (m : marker) : string :=
  match m with
  | CircleMarker _ _ _ color _ => color
  | RegularPolygonMarker _ _ _ _ color _ => color
  end.

(** The fixed palette after [n] rounds of extension. *)
Definition extended (TABLEAU_COLORS CSS4_COLORS : list string) (n : nat)
  : list string :=
  TABLEAU_COLORS ++ concat (replicate n CSS4_COLORS).

(** [matplotlib.colors.TABLEAU_COLORS.values()], for the examples. *)
Definition tableau : list string :=
  ["#1f77b4"; "#ff7f0e"; "#2ca02c"; "#d62728"; "#9467bd"; "#8c564b";
   "#e377c2"; "#7f7f7f"; "#bcbd22"; "#17becf"].

(** The colour at position [i] of the palette: a colour of the primary
    palette while it lasts, and behind it the colours of the secondary
    palette, over and over. *)
Definition palette_color (TABLEAU_COLORS CSS4_COLORS : list string)
    (i : nat) : option string :=
  if (i <? length TABLEAU_COLORS)%nat then TABLEAU_COLORS !! i
  else CSS4_COLORS !! ((i - length TABLEAU_COLORS) mod length CSS4_COLORS)%nat.

(** The colour map [d] pairs the distinct owners of a column (those that
    are not missing), sorted ascending, with the colours of the palette,
    position by position. *)
Definition assigned_by_position (TABLEAU_COLORS CSS4_COLORS : list string)
    (owner : list pyval) (d : dict) : Prop :=
  ∃ owners,
    sorted (unique (dropna owner)) = Ok owners
    ∧ StronglySorted py_le owners
    ∧ NoDup (map py_key owners)
    ∧ (∀ key, key ∈ map py_key owners ↔
              is_Some key ∧ key ∈ map py_key owner)
    ∧ length d = length owners
    ∧ ∀ i o, owners !! i = Some o →
        ∃ c, palette_color TABLEAU_COLORS CSS4_COLORS i = Some c
             ∧ d !! i = Some (o, c)
             ∧ dict_find d o = Some c.

(** A column that holds a text and a number: its values cannot be
    sorted. *)
Definition mixed (col : list pyval) : Prop :=
  ∃ v1 v2, v1 ∈ col ∧ v2 ∈ col ∧ is_text v1 = true
           ∧ isna v2 = false ∧ is_text v2 = false.

(** The number of distinct values of a column that are not missing. *)
Definition distinct (col : list pyval) : nat := length (unique (dropna col)).

(** ** The filter chain of [main] *)

(** The parsed arguments that the chain reads. *)
Record cli_args : Type := mkCli {
  arg_countries : list string;
  arg_owners : list string;
  arg_instrClass : list string;
  arg_strict : bool;
  arg_active : bool;
  arg_valid : bool
}.

(** [if args.x:] for a list argument: an empty list, like [None], is
    false. *)
Definition truthy {A} (l : list A) : bool :=
  match l with [] => false | _ => true end.

(** [df[df["owner"].isin(owners)]], as [main] writes it in line. *)
Definition select_owner (owners : list string) (df : loc) : M loc :=
  owner <~ df_getitem df "owner" ;;
  df_getmask df (map (isin owners) owner).

(** Lines 333 to 342 of [main]: the filters applied to the loaded frame,
    in the order of the source. *)
Definition main_filters (args : cli_args) (df : loc) : M loc :=
  df <~ (if truthy (arg_countries args)
         then filter_country df (arg_countries args) else ret df) ;;
  df <~ (if arg_valid args then filter_valid df else ret df) ;;
  df <~ (if arg_active args then filter_active df else ret df) ;;
  df <~ (if truthy (arg_instrClass args)
         then filter_instrClass df (arg_instrClass args) (arg_strict args)
         else ret df) ;;
  df <~ (if truthy (arg_owners args)
         then select_owner (arg_owners args) df else ret df) ;;
  ret df.

(** ** Vocabulary of the further properties *)

(** The line a filter prints before it starts. *)
Definition banner (F : filter) : string :=
  match F with
  | Valid => "--> Filtering valid entries..."
  | Country _ => "--> Filtering for countries: {countries}..."
  | Active => "--> Filtering active InSAR targets..."
  | SatSys _ => "--> Filtering for satellite systems: {satSystems}..."
  | InstrClass _ _ =>
      "--> Filtering by instrument class: {types} (strict={strict})..."
  | Owner _ => "--> Filtering for owners: {owners}..."
  | SiteId _ => "--> Filtering for site IDs: {sites}..."
  | LookDir _ => "--> Filtering for look directions: {directions}..."
  end.

(** The name under which a filter reports its statistics. *)
Definition stats_name (F : filter) : string :=
  match F with
  | Valid => "Valid filter"
  | Country _ => "Country filter"
  | Active => "Active targets filter"
  | SatSys _ => "Satellite system filter"
  | InstrClass _ _ => "Instrument class filter"
  | Owner _ => "Owner filter"
  | SiteId _ => "Site ID filter"
  | LookDir _ => "Look direction filter"
  end.

(** The two lines of a finished run: the banner, and the statistics of
    [log_filter_stats]. *)
Definition report (F : filter) (T : DataFrame) : list line :=
  [Msg (banner F);
   Stats (stats_name F) (len (filter_frame F T)) (len T)
     (Z.of_nat (len T) - Z.of_nat (len (filter_frame F T)))].

(** A finished run of filter [F] on the frame [T] that returns the frame
    [R], with what it printed. *)
Definition returns_reporting (w : world) (o : outcome loc) (F : filter)
    (T R : DataFrame) : Prop :=
  ∃ extra,
    o = Returns (length (heap w) + length extra)%nat
          {| heap := heap w ++ extra ++ [R];
             stdout := stdout w ++ report F T; files := files w |}.

(** A run of filter [F] that raises [KeyError] after its banner. *)
Definition raises_after_banner (w : world) (o : outcome loc) (F : filter)
  : Prop :=
  ∃ extra,
    o = Raises (KeyError (filter_column F))
          {| heap := heap w ++ extra;
             stdout := stdout w ++ [Msg (banner F)]; files := files w |}.


(** The non-strict instrument-class filter, which rewrites values to
    members of its set. *)
Definition normalizing (F : filter) : bool :=
  match F with InstrClass _ false => true | _ => false end.

(** A filter by membership or by substring that is given the empty set. *)
Definition empty_request (F : filter) : bool :=
  match F with
  | Country [] | Owner [] | SiteId [] | InstrClass [] _ | LookDir [] => true
  | _ => false
  end.

(** A substring filter whose set holds the empty string. *)
Definition requests_empty_text (F : filter) : Prop :=
  match F with
  | SatSys l | LookDir l | InstrClass l false => EmptyString ∈ l
  | _ => False
  end.

(** ** What a run of the renderer amounts to

    As for the filters, the definitions below are not part of the program:
    they describe a run of [plot_insar_points_interactive] on the value of
    its frame ([plot_run] proves it). *)

Inductive verdict : Type :=
  | Refused (msg : string)
  | Failed (e : exn)
  | Looping
  | Drawn (m : Map) (geometry : list (pyval * pyval)).

Section Rendering.

Variable TABLEAU_COLORS CSS4_COLORS : list string.
Variable float_literal : string → bool.

Definition render (T : DataFrame) (a : plot_args) : verdict :=
  if empty T then Refused "Error: No data to plot (DataFrame is empty)."
  else if negb (bool_decide (lat_col a ∈ columns T))
          || negb (bool_decide (lon_col a ∈ columns T))
  then Refused "Error: Missing latitude or longitude columns."
  else
    match getcol T (owner_col a) with
    | Err e => Failed e
    | Ok owner =>
    match sorted (unique (dropna owner)) with
    | Err e => Failed e
    | Ok owners =>
    match extend_colors CSS4_COLORS (length owners) TABLEAU_COLORS
            (length owners) with
    | None => Looping
    | Some colors =>
    match dict_comp (index colors) 0 owners [] with
    | Err e => Failed e
    | Ok owner_color_map =>
    match getcol T (instr_col a) with
    | Err e => Failed e
    | Ok instr =>
    match make_instr_icon_map instr with
    | Err e => Failed e
    | Ok instr_icon_map =>
    match apply (py_float float_literal) (map (cell (lat_col a)) (rows T)) with
    | Err e => Failed e
    | Ok lats =>
    match apply (py_float float_literal) (map (cell (lon_col a)) (rows T)) with
    | Err e => Failed e
    | Ok lons =>
    match apply (make_marker float_literal T a owner_color_map
                   instr_icon_map) (rows T) with
    | Err e => Failed e
    | Ok ms =>
        Drawn {| location := (lats, lons); zoom := zoom_start a;
                 tiles := background a; markers := ms;
                 html := [Title (map_title a);
                          Legend owner_color_map instr_icon_map] |}
          (zip lons lats)
    end end end end end end end end end.

End Rendering.

(** Whether [if save_html_path:] holds, and for which path. *)
Definition html_path (a : plot_args) : option string :=
  match save_html_path a with
  | Some path => if String.eqb path EmptyString then None else Some path
  | None => None
  end.

(** The files after a successful run: the GeoJSON file is written first,
    the HTML file after it. *)
Definition written (a : plot_args) (T : DataFrame) (m : Map)
    (geometry : list (pyval * pyval)) (fs : gmap string artifact)
  : gmap string artifact :=
  match html_path a with
  | Some path =>
      <[path := HTML m]> (<[save_geojson_path a := GeoJSON T geometry]> fs)
  | None => <[save_geojson_path a := GeoJSON T geometry]> fs
  end.

(** Whether a path of the file system cannot be written. *)
Definition unwritable (fs : gmap string artifact) (path : string) : bool :=
  match fs !! path with
  | Some Unwritable => true
  | _ => false
  end.

(** The lines a successful run prints. *)
Definition drawn_lines (a : plot_args) : list line :=
  [Msg "--> Creating interactive map for {len(df)} InSAR points...";
   Msg "    ↳ GeoJSON saved: {save_geojson_path}"]
  ++ match html_path a with
     | Some _ => [Msg "    ↳ HTML map saved: {save_html_path}"]
     | None => []
     end
  ++ [Msg "--> Interactive map ready."].

(** The export of a map that was drawn, from the state [w] in which the
    renderer was called: the GeoJSON file, then the HTML file; either
    write can fail, the second one with the first file written. *)
Definition export (a : plot_args) (T : DataFrame) (m : Map)
    (geometry : list (pyval * pyval)) (w : world) : outcome (option Map) :=
  if unwritable (files w) (save_geojson_path a) then
    Raises (WriteError (save_geojson_path a))
      {| heap := heap w ++ [T];
         stdout := stdout w ++
           [Msg "--> Creating interactive map for {len(df)} InSAR points..."];
         files := files w |}
  else
    match html_path a with
    | Some path =>
        if unwritable
             (<[save_geojson_path a := GeoJSON T geometry]> (files w)) path
        then
          Raises (WriteError path)
            {| heap := heap w ++ [T];
               stdout := stdout w ++
                 [Msg "--> Creating interactive map for {len(df)} InSAR points...";
                  Msg "    ↳ GeoJSON saved: {save_geojson_path}"];
               files := <[save_geojson_path a := GeoJSON T geometry]>
                          (files w) |}
        else
          Returns (Some m)
            {| heap := heap w ++ [T];
               stdout := stdout w ++ drawn_lines a;
               files := written a T m geometry (files w) |}
    | None =>
        Returns (Some m)
          {| heap := heap w ++ [T];
             stdout := stdout w ++ drawn_lines a;
             files := written a T m geometry (files w) |}
    end.

(** The arguments with which [main] calls the renderer, for the defaults
    of the command line. *)
Definition cli_plot_args : plot_args :=
  {| lat_col := "latitude"; lon_col := "longitude"; owner_col := "owner";
     instr_col := "instrClass";
     popup_cols := ["siteId"; "owner"; "instrClass"; "countryCode"];
     map_title := "InSAR Target Locations"; zoom_start := 6;
     save_html_path := Some "insar_map.html";
     save_geojson_path := "insar_points.geojson";
     background := "Cartodb Positron" |}.

(** A frame with coordinates only. *)
Definition bare_frame : DataFrame :=
  {| columns := ["latitude"; "longitude"];
     rows := [sample_row 1 [("latitude", VInt 52); ("longitude", VInt 6)]] |}.

Definition bare_world : world :=
  {| heap := [bare_frame]; stdout := []; files := ∅ |}.

(** A frame whose owners are a text and a number. *)
Definition mixed_frame : DataFrame :=
  {| columns := ["owner"; "instrClass"; "latitude"; "longitude"];
     rows :=
       [ sample_row 1
           [("owner", VStr "TUD"); ("instrClass", VStr "CR");
            ("latitude", VInt 52); ("longitude", VInt 6)];
         sample_row 2
           [("owner", VInt 7); ("instrClass", VStr "CR");
            ("latitude", VInt 52); ("longitude", VInt 4)] ] |}.

Definition mixed_world : world :=
  {| heap := [mixed_frame]; stdout := []; files := ∅ |}.

(** The sample frame after a filter that kept none of its rows. *)
Definition emptied_frame : DataFrame :=
  {| columns := sample_columns; rows := [] |}.

Definition emptied_world : world :=
  {| heap := [emptied_frame]; stdout := []; files := ∅ |}.

(** A frame with a row that has no latitude. *)
Definition gap_frame : DataFrame :=
  {| columns := ["owner"; "instrClass"; "latitude"; "longitude"];
     rows :=
       [ sample_row 1
           [("owner", VStr "TUD"); ("instrClass", VStr "CR");
            ("latitude", VInt 52); ("longitude", VInt 6)];
         sample_row 2
           [("owner", VStr "ESA"); ("instrClass", VStr "CR");
            ("latitude", VNaN); ("longitude", VInt 4)] ] |}.

Definition gap_world : world :=
  {| heap := [gap_frame]; stdout := []; files := ∅ |}.

(** [matplotlib.colors.CSS4_COLORS.values()] begins with these, for the
    examples. *)
Definition css4_head : list string := ["#F0F8FF"; "#FAEBD7"; "#00FFFF"].

(** The shape at a position of the cycle [icon_shapes]. *)
Definition shape_at (i : nat) : string :=
  default "circle" (icon_shapes !! (i mod length icon_shapes)%nat).

(** ** What a run of the filter chain amounts to *)

(** A step of the chain: a filter function, or the selection by owner
    that [main] writes in line. *)
Inductive stage : Type :=
  | Logged (F : filter)
  | Inline (owners : list string).

Definition stage_filter (s : stage) : filter :=
  match s with
  | Logged F => F
  | Inline owners => Owner owners
  end.

Definition run_stage (s : stage) (df : loc) : M loc :=
  match s with
  | Logged F => run_filter F df
  | Inline owners => select_owner owners df
  end.

Fixpoint run_chain (ss : list stage) (df : loc) : M loc :=
  match ss with
  | [] => ret df
  | s :: ss' => df' <~ run_stage s df ;; run_chain ss' df'
  end.

(** The steps that the arguments switch on, in the order of [main]. *)
Definition stages (args : cli_args) : list stage :=
  (if truthy (arg_countries args)
   then [Logged (Country (arg_countries args))] else [])
  ++ (if arg_valid args then [Logged Valid] else [])
  ++ (if arg_active args then [Logged Active] else [])
  ++ (if truthy (arg_instrClass args)
      then [Logged (InstrClass (arg_instrClass args) (arg_strict args))]
      else [])
  ++ (if truthy (arg_owners args) then [Inline (arg_owners args)] else []).

Definition enabled (args : cli_args) : list filter :=
  map stage_filter (stages args).

(** The filters that [main] runs before the instrument-class filter. *)
Definition before_instrClass (args : cli_args) : list filter :=
  (if truthy (arg_countries args) then [Country (arg_countries args)] else [])
  ++ (if arg_valid args then [Valid] else [])
  ++ (if arg_active args then [Active] else []).

(** Whether the arguments switch on the non-strict instrument-class
    filter, as the defaults of the command line do. *)
Definition nonstrict_on (args : cli_args) : bool :=
  truthy (arg_instrClass args) && negb (arg_strict args).

(** A list of filters can be run on a frame: each finds its column, and
    each of those that use [Series.apply] finds a row. *)
Fixpoint runs_on (Fs : list filter) (T : DataFrame) : Prop :=
  match Fs with
  | [] => True
  | F :: Fs' =>
      filter_column F ∈ columns T
      ∧ (applies F = false ∨ rows T ≠ [])
      ∧ runs_on Fs' (filter_frame F T)
  end.

(** The frame after a list of filters, one after the other. *)
Fixpoint chain_frame (Fs : list filter) (T : DataFrame) : DataFrame :=
  match Fs with
  | [] => T
  | F :: Fs' => chain_frame Fs' (filter_frame F T)
  end.

(** A row passes every filter of a list. *)
Definition passes (Fs : list filter) (r : Row) : bool :=
  forallb (λ F, keeps F (cell (filter_column F) r)) Fs.

(** A row after every filter of a list. *)
Fixpoint out_rows (Fs : list filter) (r : Row) : Row :=
  match Fs with
  | [] => r
  | F :: Fs' => out_rows Fs' (out_row F r)
  end.

(** The defaults of the command line: Dutch and Belgian targets, valid,
    active, of three instrument classes by substring. *)
Definition cli_defaults : cli_args :=
  {| arg_countries := ["NLD"; "BEL"]; arg_owners := [];
     arg_instrClass := ["CR"; "IGRS"; "TR"]; arg_strict := false;
     arg_active := true; arg_valid := true |}.

(** The defaults with [--countries DEU]: no target of the sample frame
    is in that country. *)
Definition cli_elsewhere : cli_args :=
  {| arg_countries := ["DEU"]; arg_owners := [];
     arg_instrClass := ["CR"; "IGRS"; "TR"]; arg_strict := false;
     arg_active := true; arg_valid := true |}.

(** What a step prints on a frame that has its column: a named filter its
    two lines, the selection written in line nothing. *)
Definition stage_report (s : stage) (T : DataFrame) : list line :=
  match s with
  | Logged F => report F T
  | Inline _ => []
  end.

Fixpoint chain_report (ss : list stage) (T : DataFrame) : list line :=
  match ss with
  | [] => []
  | s :: ss' =>
      stage_report s T ++ chain_report ss' (filter_frame (stage_filter s) T)
  end.

(** ** The body of [main] after the frame is read *)

(** The arguments of the command line that reach the renderer. *)
Record cli_outputs : Type := mkOut {
  arg_map_title : string;
  arg_save_html : string;
  arg_save_geojson : string;
  arg_background : string
}.

(** The call of line 348: four arguments are passed, the others keep
    their defaults. *)
Definition main_plot_args (o : cli_outputs) : plot_args :=
  {| lat_col := "latitude"; lon_col := "longitude"; owner_col := "owner";
     instr_col := "instrClass";
     popup_cols := ["siteId"; "owner"; "instrClass"; "countryCode"];
     map_title := arg_map_title o; zoom_start := 6;
     save_html_path := Some (arg_save_html o);
     save_geojson_path := arg_save_geojson o;
     background := arg_background o |}.

Definition cli_outputs_defaults : cli_outputs :=
  {| arg_map_title := "InSAR Target Locations";
     arg_save_html := "insar_map.html";
     arg_save_geojson := "insar_points.geojson";
     arg_background := "Cartodb Positron" |}.

Section Pipeline.

Variables (TABLEAU_COLORS CSS4_COLORS : list string)
  (float_literal : string → bool).

(** Lines 332 to 354 of [main] when [--save-csv] is not given, which is
    its default: the test of line 344 fails and nothing is written
    there. *)
Definition main_body (args : cli_args) (o : cli_outputs) (df : loc)
  : M (option Map) :=
  df <~ main_filters args df ;;
  plot_insar_points_interactive TABLEAU_COLORS CSS4_COLORS float_literal
    df (main_plot_args o).

End Pipeline.
(** * Properties *)

(** ** Strings: substring search *)

Lemma append_cons c a s : String c a +:+ s = String c (a +:+ s).
Proof. reflexivity. Qed.

Lemma append_empty_r s : s +:+ EmptyString = s.
Proof.
  induction s as [|c s IH]; [done|]. by rewrite append_cons, IH.
Qed.

Lemma startswith_spec s t : startswith s t = true ↔ ∃ b, s = t +:+ b.
Proof.
  revert s. induction t as [|c t IH]; intros s; simpl.
  - split; [intros _; by exists s | reflexivity].
  - destruct s as [|a s].
    + split; [done|]. intros [b Hb]. discriminate.
    + rewrite andb_true_iff, bool_decide_eq_true, IH. split.
      * intros [-> [b ->]]. by exists b.
      * intros [b Hb]. rewrite append_cons in Hb. injection Hb as -> ->.
        eauto.
Qed.

Lemma str_in_spec t s : str_in t s = true ↔ ∃ a b, s = a +:+ t +:+ b.
Proof.
  induction s as [|c s IH]; simpl.
  - rewrite orb_false_r, startswith_spec. split.
    + intros [b Hb]. by exists EmptyString, b.
    + intros [a [b Hb]]. destruct a; [by exists b | discriminate].
  - rewrite orb_true_iff, startswith_spec, IH. split.
    + intros [[b Hb] | [a [b Hb]]].
      * by exists EmptyString, b.
      * exists (String c a), b. by rewrite append_cons, Hb.
    + intros [a [b Hb]]. destruct a as [|c' a].
      * left. by exists b.
      * right. rewrite append_cons in Hb. injection Hb as -> ->. eauto.
Qed.

Lemma str_in_refl s : str_in s s = true.
Proof. apply str_in_spec. exists EmptyString, EmptyString. by rewrite append_empty_r. Qed.

(** ** Element-wise operations on Series *)

Lemma any_in_str ts s : any_in ts (VStr s) = Ok (any_str ts s).
Proof.
  induction ts as [|t ts IH]; simpl; [done|].
  destruct (str_in t s); simpl; [done | apply IH].
Qed.

Lemma normalize_str ts s : normalize ts (VStr s) = Ok (VStr (first_in ts s)).
Proof.
  unfold first_in. induction ts as [|t ts IH]; simpl; [done|].
  destruct (str_in t s); simpl; [done | apply IH].
Qed.

Lemma take_mask_map (p : Row → bool) rs :
  take_mask (map p rs) rs = List.filter p rs.
Proof.
  induction rs as [|r rs IH]; simpl; [done|].
  destruct (p r); by rewrite IH.
Qed.

Lemma take_mask_cells c (p : pyval → bool) rs :
  take_mask (map p (map (cell c) rs)) rs = List.filter (λ r, p (cell c r)) rs.
Proof. rewrite map_map. apply take_mask_map. Qed.

Lemma take_mask_map2 (q : Row → bool) (f : Row → Row) rs :
  take_mask (map q rs) (map f rs) = map f (List.filter q rs).
Proof.
  induction rs as [|r rs IH]; simpl; [done|].
  destruct (q r); simpl; by rewrite IH.
Qed.

Lemma cell_set_cell c v r : cell c (set_cell c v r) = v.
Proof. unfold cell, set_cell. simpl. by rewrite lookup_insert_eq. Qed.

Lemma set_cell_set_cell c v v' r :
  set_cell c v (set_cell c v' r) = set_cell c v r.
Proof. unfold set_cell. simpl. by rewrite insert_insert_eq. Qed.

Lemma zip_with_set_cell c (g : Row → pyval) (f : Row → Row) rs :
  zip_with (set_cell c) (map g rs) (map f rs)
  = map (λ r, set_cell c (g r) (f r)) rs.
Proof. induction rs as [|r rs IH]; simpl; [done | by rewrite IH]. Qed.

Lemma apply_any_in ts (g : Row → string) rs :
  apply (any_in ts) (map (λ r, VStr (g r)) rs)
  = Ok (map (λ r, any_str ts (g r)) rs).
Proof.
  induction rs as [|r rs IH]; simpl; [done|].
  by rewrite any_in_str, IH.
Qed.

Lemma apply_normalize ts (g : Row → string) rs :
  apply (normalize ts) (map (λ r, VStr (g r)) rs)
  = Ok (map (λ r, VStr (first_in ts (g r))) rs).
Proof.
  induction rs as [|r rs IH]; simpl; [done|].
  by rewrite normalize_str, IH.
Qed.

(** The result of [Series.apply] on a Series with elements is a boolean
    mask. *)
Lemma applied_map {A} (f : A → bool) l :
  l ≠ [] → applied (map f l) = BoolMask (map f l).
Proof. by destruct l. Qed.

Lemma zip_with_orb_map {A} (f g : A → bool) l :
  zip_with orb (map f l) (map g l) = map (λ x, f x || g x) l.
Proof. induction l as [|x l IH]; simpl; [done | by rewrite IH]. Qed.

Lemma lookup_app_plus {A} (l1 l2 : list A) i :
  (l1 ++ l2) !! (length l1 + i)%nat = l2 !! i.
Proof. rewrite lookup_app_r by lia. f_equal. lia. Qed.

Lemma map_cell_set_cell c (g : Row → pyval) rs :
  map (cell c) (map (λ r, set_cell c (g r) r) rs) = map g rs.
Proof.
  rewrite map_map. apply map_ext. intros r. apply cell_set_cell.
Qed.

Lemma length_astype_str s : length (astype_str s) = length s.
Proof. apply length_map. Qed.

(** The column [c] of a frame after [df[c] = df[c].astype(str)], read
    back row by row. *)
Lemma astype_str_column c rs :
  map (cell c)
    (zip_with (set_cell c) (astype_str (map (cell c) rs)) rs)
  = map (λ r, VStr (py_str (cell c r))) rs.
Proof.
  induction rs as [|r rs IH]; simpl; [done|].
  by rewrite cell_set_cell, IH.
Qed.

Lemma astype_str_rows c rs :
  zip_with (set_cell c) (astype_str (map (cell c) rs)) rs
  = map (λ r, set_cell c (VStr (py_str (cell c r))) r) rs.
Proof. induction rs as [|r rs IH]; simpl; [done | by rewrite IH]. Qed.

(** ** Running the filters

    A run on a store [h] in which [df] names the frame [T] is followed
    operation by operation; every lookup it makes is in [h] itself or in
    the frames allocated since. *)

Ltac unfold_ops :=
  unfold log_filter_stats, df_copy, df_len, df_getitem, df_getmask,
    df_getkey, df_setitem, getcol, getkey, getmask, setcol, lift, bind,
    print, deref, new_frame, store, ret, raise; simpl.

Ltac run_step H Hc :=
  first
    [ rewrite H
    | rewrite (bool_decide_eq_true_2 _ Hc)
    | rewrite (bool_decide_eq_false_2 _ Hc)
    | rewrite (lookup_app_l_Some _ _ _ _ H)
    | rewrite list_lookup_middle by done
    | rewrite lookup_app_plus
    | rewrite insert_app_r
    | rewrite length_app
    | rewrite <- Nat.add_assoc
    | rewrite bool_decide_eq_true_2 by
        by rewrite ?length_zip_with, ?length_astype_str, ?length_map,
             ?Nat.min_id
    | rewrite <- app_assoc ].

Ltac run H Hc := unfold_ops; repeat (run_step H Hc; simpl).

(** A filter that only selects: copy, read the column, mask, log. *)
Ltac run_selecting H Hc :=
  run H Hc; rewrite take_mask_cells;
  eexists [_], [_; _]; simpl; do 3 f_equal;
  unfold filter_frame, kept_rows, out_row; simpl; by rewrite map_id.

Ltac run_raising H Hc := run H Hc; by eexists _, [_].

Section Runs.

Context (df : loc) (T : DataFrame) (h : list DataFrame)
  (o : list line) (fs : gmap string artifact).
Hypothesis Hdf : h !! df = Some T.

Let w : world := {| heap := h; stdout := o; files := fs |}.

Lemma filter_valid_run :
  "valid" ∈ columns T →
  returns_frame w (filter_valid df w) (filter_frame Valid T).
Proof. intros Hc. unfold returns_frame, filter_valid. run_selecting Hdf Hc. Qed.

Lemma filter_country_run countries :
  "countryCode" ∈ columns T →
  returns_frame w (filter_country df countries w)
    (filter_frame (Country countries) T).
Proof. intros Hc. unfold returns_frame, filter_country. run_selecting Hdf Hc. Qed.

Lemma filter_active_run :
  "insarEnd" ∈ columns T →
  returns_frame w (filter_active df w) (filter_frame Active T).
Proof. intros Hc. unfold returns_frame, filter_active. run_selecting Hdf Hc. Qed.

Lemma filter_owner_run owners :
  "owner" ∈ columns T →
  returns_frame w (filter_owner df owners w)
    (filter_frame (Owner owners) T).
Proof. intros Hc. unfold returns_frame, filter_owner. run_selecting Hdf Hc. Qed.

Lemma filter_siteId_run sites :
  "siteId" ∈ columns T →
  returns_frame w (filter_siteId df sites w)
    (filter_frame (SiteId sites) T).
Proof. intros Hc. unfold returns_frame, filter_siteId. run_selecting Hdf Hc. Qed.

Lemma filter_satSys_run satSystems :
  "satSys" ∈ columns T →
  returns_frame w (filter_satSys df satSystems w)
    (filter_frame (SatSys satSystems) T).
Proof.
  intros Hc. unfold returns_frame, filter_satSys. run Hdf Hc.
  rewrite astype_str_column, astype_str_rows.
  rewrite (apply_any_in satSystems (λ r, py_str (cell "satSys" r))). simpl.
  rewrite (map_map _ (str_contains_nocase "All")), zip_with_orb_map. simpl.
  run Hdf Hc. rewrite take_mask_map2.
  by eexists [_; _], [_; _].
Qed.

Lemma filter_lookDir_run directions :
  "lookDir" ∈ columns T → rows T ≠ [] →
  returns_frame w (filter_lookDir df directions w)
    (filter_frame (LookDir directions) T).
Proof.
  intros Hc Hrows. unfold returns_frame, filter_lookDir. run Hdf Hc.
  rewrite astype_str_column, astype_str_rows.
  rewrite (apply_any_in directions (λ r, py_str (cell "lookDir" r))). simpl.
  rewrite applied_map by done.
  run Hdf Hc. rewrite take_mask_map2.
  by eexists [_; _], [_; _].
Qed.

(** On a frame without rows the key of the look-direction filter selects
    no column. *)
Lemma filter_lookDir_run_empty directions :
  "lookDir" ∈ columns T → rows T = [] →
  returns_frame w (filter_lookDir df directions w) no_columns.
Proof.
  intros Hc Hrows. unfold returns_frame, filter_lookDir. run Hdf Hc.
  rewrite Hrows. simpl. run Hdf Hc.
  by eexists [_; _], [_; _].
Qed.

Lemma filter_instrClass_strict_run types :
  "instrClass" ∈ columns T →
  returns_frame w (filter_instrClass df types true w)
    (filter_frame (InstrClass types true) T).
Proof.
  intros Hc. unfold returns_frame, filter_instrClass. run Hdf Hc.
  rewrite astype_str_column, astype_str_rows, map_map.
  run Hdf Hc. rewrite take_mask_map2.
  by eexists [_; _], [_; _].
Qed.

Lemma filter_instrClass_nonstrict_run types :
  "instrClass" ∈ columns T → rows T ≠ [] →
  returns_frame w (filter_instrClass df types false w)
    (filter_frame (InstrClass types false) T).
Proof.
  intros Hc Hrows. unfold returns_frame, filter_instrClass. run Hdf Hc.
  rewrite astype_str_column, astype_str_rows.
  rewrite (apply_any_in types (λ r, py_str (cell "instrClass" r))). simpl.
  rewrite applied_map by done.
  run Hdf Hc. rewrite take_mask_map2.
  rewrite (map_cell_set_cell "instrClass"
             (λ r, VStr (py_str (cell "instrClass" r)))).
  rewrite (apply_normalize types (λ r, py_str (cell "instrClass" r))).
  simpl. run Hdf Hc. rewrite zip_with_set_cell.
  rewrite (map_ext
    (λ r, set_cell "instrClass"
            (VStr (first_in types (py_str (cell "instrClass" r))))
            (set_cell "instrClass"
               (VStr (py_str (cell "instrClass" r))) r))
    (λ r, set_cell "instrClass"
            (VStr (first_in types (py_str (cell "instrClass" r)))) r))
    by (intros; apply set_cell_set_cell).
  by eexists [_; _; _], [_; _].
Qed.

Lemma filter_valid_raises :
  "valid" ∉ columns T → raises_KeyError w (filter_valid df w) "valid".
Proof. intros Hc. unfold raises_KeyError, filter_valid. run_raising Hdf Hc. Qed.

Lemma filter_country_raises countries :
  "countryCode" ∉ columns T →
  raises_KeyError w (filter_country df countries w) "countryCode".
Proof. intros Hc. unfold raises_KeyError, filter_country. run_raising Hdf Hc. Qed.

Lemma filter_active_raises :
  "insarEnd" ∉ columns T →
  raises_KeyError w (filter_active df w) "insarEnd".
Proof. intros Hc. unfold raises_KeyError, filter_active. run_raising Hdf Hc. Qed.

Lemma filter_owner_raises owners :
  "owner" ∉ columns T →
  raises_KeyError w (filter_owner df owners w) "owner".
Proof. intros Hc. unfold raises_KeyError, filter_owner. run_raising Hdf Hc. Qed.

Lemma filter_siteId_raises sites :
  "siteId" ∉ columns T →
  raises_KeyError w (filter_siteId df sites w) "siteId".
Proof. intros Hc. unfold raises_KeyError, filter_siteId. run_raising Hdf Hc. Qed.

Lemma filter_satSys_raises satSystems :
  "satSys" ∉ columns T →
  raises_KeyError w (filter_satSys df satSystems w) "satSys".
Proof. intros Hc. unfold raises_KeyError, filter_satSys. run_raising Hdf Hc. Qed.

Lemma filter_lookDir_raises directions :
  "lookDir" ∉ columns T →
  raises_KeyError w (filter_lookDir df directions w) "lookDir".
Proof. intros Hc. unfold raises_KeyError, filter_lookDir. run_raising Hdf Hc. Qed.

Lemma filter_instrClass_raises types strict :
  "instrClass" ∉ columns T →
  raises_KeyError w (filter_instrClass df types strict w) "instrClass".
Proof.
  intros Hc. unfold raises_KeyError, filter_instrClass.
  run_raising Hdf Hc.
Qed.

(** On a frame without rows the key of the non-strict instrument-class
    filter selects no column, and the column to normalise is missing. *)
Lemma filter_instrClass_raises_empty types :
  "instrClass" ∈ columns T → rows T = [] →
  raises_KeyError w (filter_instrClass df types false w) "instrClass".
Proof.
  intros Hc Hrows. unfold raises_KeyError, filter_instrClass. run Hdf Hc.
  rewrite Hrows. simpl. run Hdf Hc.
  by eexists [_; _; _; _], [_].
Qed.

End Runs.

(** Every filter, on a frame that has its column, returns the frame
    [filter_frame]; for the two filters that use [Series.apply] the frame
    must have a row. *)
Lemma run_filter_returns F df T w :
  heap w !! df = Some T → filter_column F ∈ columns T →
  applies F = false ∨ rows T ≠ [] →
  returns_frame w (run_filter F df w) (filter_frame F T).
Proof.
  destruct w as [h o fs]. simpl. intros Hdf Hc Hrows.
  destruct F as [| | | |? []| | |]; simpl in *.
  - by apply filter_valid_run.
  - by apply filter_country_run.
  - by apply filter_active_run.
  - by apply filter_satSys_run.
  - by apply filter_instrClass_strict_run.
  - destruct Hrows as [|Hrows]; [done|]. by apply filter_instrClass_nonstrict_run.
  - by apply filter_owner_run.
  - by apply filter_siteId_run.
  - destruct Hrows as [|Hrows]; [done|]. by apply filter_lookDir_run.
Qed.

(** On a frame without its column it raises [KeyError]. *)
Lemma run_filter_raises F df T w :
  heap w !! df = Some T → filter_column F ∉ columns T →
  raises_KeyError w (run_filter F df w) (filter_column F).
Proof.
  destruct w as [h o fs]. simpl. intros Hdf Hc.
  destruct F; simpl in *.
  - by apply (filter_valid_raises _ T).
  - by apply (filter_country_raises _ T).
  - by apply (filter_active_raises _ T).
  - by apply (filter_satSys_raises _ T).
  - by apply (filter_instrClass_raises _ T).
  - by apply (filter_owner_raises _ T).
  - by apply (filter_siteId_raises _ T).
  - by apply (filter_lookDir_raises _ T).
Qed.

(** The two filters that use [Series.apply], on a frame that has the
    column and no rows. *)
Lemma run_lookDir_empty directions df T w :
  heap w !! df = Some T → "lookDir" ∈ columns T → rows T = [] →
  returns_frame w (run_filter (LookDir directions) df w) no_columns.
Proof.
  destruct w as [h o fs]. simpl. intros Hdf Hc Hrows.
  by apply (filter_lookDir_run_empty _ T).
Qed.

Lemma run_instrClass_empty types df T w :
  heap w !! df = Some T → "instrClass" ∈ columns T → rows T = [] →
  raises_KeyError w (run_filter (InstrClass types false) df w) "instrClass".
Proof.
  destruct w as [h o fs]. simpl. intros Hdf Hc Hrows.
  by apply (filter_instrClass_raises_empty _ T).
Qed.

(** The cases together: what a run of a filter can be. *)
Lemma run_filter_cases F df T w :
  heap w !! df = Some T →
  (filter_column F ∈ columns T ∧ (applies F = false ∨ rows T ≠ []) ∧
   returns_frame w (run_filter F df w) (filter_frame F T))
  ∨ (filter_column F ∈ columns T ∧ rows T = [] ∧
     (∃ directions, F = LookDir directions) ∧
     returns_frame w (run_filter F df w) no_columns)
  ∨ (filter_column F ∈ columns T ∧ raises_on_empty F T ∧
     raises_KeyError w (run_filter F df w) (filter_column F))
  ∨ ((filter_column F ∉ columns T) ∧
     raises_KeyError w (run_filter F df w) (filter_column F)).
Proof.
  intros Hdf. destruct (decide (filter_column F ∈ columns T)) as [Hc|Hc].
  2: { do 3 right. split; [done|]. by eapply run_filter_raises. }
  destruct (applies F) eqn:HF.
  2: { left. split; [done|]. split; [by left|].
       apply run_filter_returns; auto. }
  destruct (rows T) as [|r rs] eqn:Hrows.
  2: { left. split; [done|]. split; [by right|].
       apply run_filter_returns; [done..|]. right. by rewrite Hrows. }
  destruct F as [| | | |types []| | |directions]; try discriminate HF.
  - right. right. left. split; [done|]. split; [split; [by eexists|done]|].
    by apply (run_instrClass_empty _ _ T).
  - right. left. split; [done|]. split; [done|]. split; [by eexists|].
    by apply (run_lookDir_empty _ _ T).
Qed.

(** The returned reference names the returned frame, and names nothing in
    the store the run started from. *)
Lemma returns_frame_lookup w o R :
  returns_frame w o R →
  ∃ l' w', o = Returns l' w' ∧ heap w' !! l' = Some R
           ∧ heap w !! l' = None
           ∧ (∀ l X, heap w !! l = Some X → heap w' !! l = Some X)
           ∧ files w' = files w.
Proof.
  intros (extra & out & ->). eexists _, _. split; [done|]. simpl.
  repeat split.
  - rewrite lookup_app_plus. by apply list_lookup_middle.
  - apply lookup_ge_None. lia.
  - intros l X HX. by apply lookup_app_l_Some.
Qed.

(** ** The filter pipeline *)

Lemma length_kept_rows F T : (length (kept_rows F T) ≤ len T)%nat.
Proof. apply List.filter_length_le. Qed.

Lemma len_filter_frame F T : (len (filter_frame F T) ≤ len T)%nat.
Proof.
  unfold len, filter_frame. simpl. rewrite length_map.
  apply length_kept_rows.
Qed.

(** C1. No filter adds rows: a run of any filter on a frame [T] either
    returns a frame with at most [len T] rows, or raises [KeyError] for
    the filter's column.  It raises only when [T] lacks that column, or
    when the filter is the non-strict instrument-class filter and [T] has
    no rows. *)
Theorem filters_never_add_rows F df T w :
  heap w !! df = Some T →
  match run_filter F df w with
  | Returns l' w' => ∃ T', heap w' !! l' = Some T' ∧ (len T' ≤ len T)%nat
  | Raises e _ =>
      e = KeyError (filter_column F)
      ∧ ((filter_column F ∉ columns T) ∨ raises_on_empty F T)
  | Diverges | Stuck => False
  end.
Proof.
  intros Hdf.
  destruct (run_filter_cases F df T w Hdf)
    as [(_ & _ & H)|[(_ & Hrows & _ & H)|[(_ & He & H)|[Hc H]]]].
  - apply returns_frame_lookup in H as (l' & w' & -> & Hl & _).
    exists (filter_frame F T). split; [done | apply len_filter_frame].
  - apply returns_frame_lookup in H as (l' & w' & -> & Hl & _).
    exists no_columns. split; [done|]. unfold len. simpl. lia.
  - destruct H as (extra & out & ->). split; [done | by right].
  - destruct H as (extra & out & ->). split; [done | by left].
Qed.

Lemma filters_never_add_rows_witness :
  heap sample_world !! 0%nat = Some sample_frame ∧
  match run_filter (SatSys ["S1A"]) 0 sample_world with
  | Returns l' w' =>
      ∃ T', heap w' !! l' = Some T' ∧ (len T' ≤ len sample_frame)%nat
  | Raises e _ =>
      e = KeyError "satSys"
      ∧ (("satSys" ∉ sample_columns)
         ∨ raises_on_empty (SatSys ["S1A"]) sample_frame)
  | Diverges | Stuck => False
  end.
Proof.
  split; [reflexivity|].
  apply (filters_never_add_rows (SatSys ["S1A"]) 0 sample_frame sample_world).
  reflexivity.
Defined.

Lemma from_row_out_row F r : from_row (filter_column F) r (out_row F r).
Proof.
  unfold out_row. destruct (rewritten F _); [|done].
  split; [done|]. intros c' Hc'. simpl. by rewrite lookup_insert_ne.
Qed.

Lemma cell_out_row F r :
  cell (filter_column F) (out_row F r)
  = own_cell F (cell (filter_column F) r).
Proof.
  unfold out_row, own_cell. destruct (rewritten F _); simpl; [|done].
  apply cell_set_cell.
Qed.

Lemma out_row_selects_only F r : selects_only F = true → out_row F r = r.
Proof. by destruct F. Qed.

Lemma kept_rows_sublist F T : kept_rows F T `sublist_of` rows T.
Proof.
  unfold kept_rows. induction (rows T) as [|r rs IH]; simpl; [done|].
  destruct (keeps F _); by constructor.
Qed.

(** C10. The output of a filter is an order-preserving selection of its
    input: the returned rows come one for one, in order, from a
    subsequence [kept] of the rows of [T].  For the valid, country,
    active, owner and site filters the returned rows are that
    subsequence itself; for the other filters each returned row is its
    input row, index label included, with at most the filter's own column
    rewritten.  A run that does not return raises [KeyError] for the
    filter's column: [T] lacks it, or the filter is the non-strict
    instrument-class filter and [T] has no rows. *)
Theorem filters_select_in_order F df T w :
  heap w !! df = Some T →
  match run_filter F df w with
  | Returns l' w' =>
      ∃ T' kept, heap w' !! l' = Some T'
                 ∧ kept `sublist_of` rows T
                 ∧ Forall2 (from_row (filter_column F)) kept (rows T')
                 ∧ (selects_only F = true → rows T' = kept)
  | Raises e _ =>
      e = KeyError (filter_column F)
      ∧ ((filter_column F ∉ columns T) ∨ raises_on_empty F T)
  | Diverges | Stuck => False
  end.
Proof.
  intros Hdf.
  destruct (run_filter_cases F df T w Hdf)
    as [(_ & _ & H)|[(_ & Hrows & [ds ->] & H)|[(_ & He & H)|[Hc H]]]].
  - apply returns_frame_lookup in H as (l' & w' & -> & Hl & _).
    exists (filter_frame F T), (kept_rows F T).
    split; [done|]. split; [apply kept_rows_sublist|]. split.
    + simpl. apply Forall2_fmap_r, Forall_Forall2_diag, Forall_forall.
      intros r _. apply from_row_out_row.
    + intros HF. simpl.
      rewrite (map_ext _ id) by (intros r; by apply out_row_selects_only).
      apply map_id.
  - apply returns_frame_lookup in H as (l' & w' & -> & Hl & _).
    exists no_columns, []. split; [done|].
    split; [apply sublist_nil_l|]. split; [constructor | done].
  - destruct H as (extra & out & ->). split; [done | by right].
  - destruct H as (extra & out & ->). split; [done | by left].
Qed.

Lemma filters_select_in_order_witness :
  heap sample_world !! 0%nat = Some sample_frame ∧
  match run_filter (InstrClass ["CR"] false) 0 sample_world with
  | Returns l' w' =>
      ∃ T' kept, heap w' !! l' = Some T'
                 ∧ kept `sublist_of` rows sample_frame
                 ∧ Forall2 (from_row "instrClass") kept (rows T')
                 ∧ (false = true → rows T' = kept)
  | Raises e _ =>
      e = KeyError "instrClass"
      ∧ (("instrClass" ∉ sample_columns)
         ∨ raises_on_empty (InstrClass ["CR"] false) sample_frame)
  | Diverges | Stuck => False
  end.
Proof.
  split; [reflexivity|].
  apply (filters_select_in_order (InstrClass ["CR"] false) 0 sample_frame
           sample_world).
  reflexivity.
Defined.

(** C7, as the code has it.  No filter changes a frame of the store it
    is run on, its input included, and the frame it returns is a new
    object.  A returned row is an input row with every column but the
    filter's own unchanged; in the filter's own column the valid, country,
    active, owner and site filters leave the value as it is (the row is
    the input row), the satellite-system, look-direction and strict
    instrument-class filters leave its [str()] text, and the non-strict
    instrument-class filter the normalised type. *)
Theorem filters_frame_effect F df T w :
  heap w !! df = Some T →
  match run_filter F df w with
  | Returns l' w' =>
      heap w' !! df = Some T
      ∧ (∀ l X, heap w !! l = Some X → heap w' !! l = Some X)
      ∧ heap w !! l' = None
      ∧ ∃ T', heap w' !! l' = Some T'
              ∧ Forall (λ r', ∃ r, r ∈ rows T
                    ∧ from_row (filter_column F) r r'
                    ∧ cell (filter_column F) r'
                      = match F with
                        | SatSys _ | LookDir _ | InstrClass _ true =>
                            VStr (py_str (cell (filter_column F) r))
                        | InstrClass types false =>
                            VStr (first_in types
                                    (py_str (cell (filter_column F) r)))
                        | _ => cell (filter_column F) r
                        end
                    ∧ (selects_only F = true → r' = r))
                  (rows T')
  | Raises e w' =>
      e = KeyError (filter_column F)
      ∧ ∀ l X, heap w !! l = Some X → heap w' !! l = Some X
  | Diverges | Stuck => False
  end.
Proof.
  intros Hdf.
  destruct (run_filter_cases F df T w Hdf)
    as [(_ & _ & H)|[(_ & Hrows & _ & H)|[(_ & _ & H)|[_ H]]]].
  - apply returns_frame_lookup in H as (l' & w' & -> & Hl & Hnew & Hold & _).
    split; [by apply Hold|]. split; [done|]. split; [done|].
    exists (filter_frame F T). split; [done|]. simpl.
    apply Forall_fmap, Forall_forall. intros r Hr. exists r.
    split.
    { eapply elem_of_sublist; [exact Hr | apply kept_rows_sublist]. }
    split; [apply from_row_out_row|]. split.
    + rewrite cell_out_row. unfold own_cell.
      by destruct F as [| | | |? []| | |].
    + apply out_row_selects_only.
  - apply returns_frame_lookup in H as (l' & w' & -> & Hl & Hnew & Hold & _).
    split; [by apply Hold|]. split; [done|]. split; [done|].
    exists no_columns. split; [done | constructor].
  - destruct H as (extra & out & ->). split; [done|].
    intros l X HX. simpl. by apply lookup_app_l_Some.
  - destruct H as (extra & out & ->). split; [done|].
    intros l X HX. simpl. by apply lookup_app_l_Some.
Qed.

Lemma filters_frame_effect_witness :
  heap sample_world !! 0%nat = Some sample_frame ∧
  match run_filter (LookDir ["1"]) 0 sample_world with
  | Returns l' w' =>
      heap w' !! 0%nat = Some sample_frame
      ∧ (∀ l X, heap sample_world !! l = Some X → heap w' !! l = Some X)
      ∧ heap sample_world !! l' = None
      ∧ ∃ T', heap w' !! l' = Some T'
              ∧ Forall (λ r', ∃ r, r ∈ rows sample_frame
                    ∧ from_row "lookDir" r r'
                    ∧ cell "lookDir" r' = VStr (py_str (cell "lookDir" r))
                    ∧ (false = true → r' = r))
                  (rows T')
  | Raises e w' =>
      e = KeyError "lookDir"
      ∧ ∀ l X, heap sample_world !! l = Some X → heap w' !! l = Some X
  | Diverges | Stuck => False
  end.
Proof.
  split; [reflexivity|].
  apply (filters_frame_effect (LookDir ["1"]) 0 sample_frame sample_world).
  reflexivity.
Defined.

(** C7 as stated fails: the look-direction filter returns a row whose
    look direction is the text "1" where the input row has the number 1. *)
Lemma filters_alter_values_counterexample :
  ∃ w' r r',
    run_filter (LookDir ["1"]) 0 sample_world = Returns 3%nat w'
    ∧ (rows <$> heap w' !! 3%nat) = Some [r']
    ∧ rows sample_frame !! 1%nat = Some r
    ∧ label r' = label r
    ∧ cell "lookDir" r = VInt 1
    ∧ cell "lookDir" r' = VStr "1"
    ∧ cell "lookDir" r' ≠ cell "lookDir" r.
Proof.
  eexists _, _, _. split; [vm_compute; reflexivity|].
  split; [reflexivity|]. split; [reflexivity|].
  split; [reflexivity|]. split; [reflexivity|]. split; [reflexivity|].
  discriminate.
Qed.

(** A frame returned by a selecting filter passes the same filter whole. *)
Lemma kept_rows_idem F T :
  selects_only F = true → kept_rows F (filter_frame F T) = kept_rows F T.
Proof.
  intros HF. unfold kept_rows, filter_frame. simpl.
  rewrite (map_ext _ id) by (intros r; by apply out_row_selects_only).
  rewrite map_id. fold (kept_rows F T). unfold kept_rows.
  induction (rows T) as [|r rs IH]; simpl; [done|].
  destruct (keeps F (cell (filter_column F) r)) eqn:E; simpl; [|done].
  by rewrite E, IH.
Qed.

Lemma filter_frame_idem F T :
  selects_only F = true →
  filter_frame F (filter_frame F T) = filter_frame F T.
Proof.
  intros HF. unfold filter_frame at 1. rewrite kept_rows_idem by done.
  done.
Qed.

Lemma selects_only_applies F : selects_only F = true → applies F = false.
Proof. by destruct F. Qed.

(** C6. The valid, country, active, owner and site filters are
    idempotent: run on the frame that a first run returned, with the same
    arguments, the filter returns a frame equal to it. *)
Theorem selecting_filters_idempotent F df T w :
  selects_only F = true →
  heap w !! df = Some T →
  filter_column F ∈ columns T →
  ∃ l1 w1 l2 w2 T1,
    run_filter F df w = Returns l1 w1
    ∧ heap w1 !! l1 = Some T1
    ∧ run_filter F l1 w1 = Returns l2 w2
    ∧ heap w2 !! l2 = Some T1.
Proof.
  intros HF Hdf Hc.
  pose proof (or_introl (selects_only_applies F HF)
              : applies F = false ∨ rows T ≠ []) as Hb.
  destruct (returns_frame_lookup _ _ _
              (run_filter_returns F df T w Hdf Hc Hb))
    as (l1 & w1 & E1 & Hl1 & _).
  assert (filter_column F ∈ columns (filter_frame F T)) as Hc1 by done.
  destruct (returns_frame_lookup _ _ _
              (run_filter_returns F l1 _ w1 Hl1 Hc1
                 (or_introl (selects_only_applies F HF))))
    as (l2 & w2 & E2 & Hl2 & _).
  exists l1, w1, l2, w2, (filter_frame F T).
  by rewrite filter_frame_idem in Hl2.
Qed.

Lemma selecting_filters_idempotent_witness :
  selects_only (Country ["NLD"; "BEL"]) = true
  ∧ heap sample_world !! 0%nat = Some sample_frame
  ∧ "countryCode" ∈ sample_columns
  ∧ ∃ l1 w1 l2 w2 T1,
      run_filter (Country ["NLD"; "BEL"]) 0 sample_world = Returns l1 w1
      ∧ heap w1 !! l1 = Some T1
      ∧ run_filter (Country ["NLD"; "BEL"]) l1 w1 = Returns l2 w2
      ∧ heap w2 !! l2 = Some T1.
Proof.
  assert ("countryCode" ∈ sample_columns) as Hc
    by (unfold sample_columns; repeat constructor).
  split; [reflexivity|]. split; [reflexivity|]. split; [exact Hc|].
  exact (selecting_filters_idempotent (Country ["NLD"; "BEL"]) 0
           sample_frame sample_world eq_refl eq_refl Hc).
Defined.

(** ** Substring matching, in words *)

Lemma str_in_occurs t s : str_in t s = true ↔ occurs_in t s.
Proof. apply str_in_spec. Qed.

Lemma any_str_spec ts s :
  any_str ts s = true ↔ ∃ t, t ∈ ts ∧ occurs_in t s.
Proof.
  unfold any_str. rewrite existsb_exists. split.
  - intros (t & Ht & Hs). exists t. split; [by apply list_elem_of_In|].
    by apply str_in_occurs.
  - intros (t & Ht & Hs). exists t. split; [by apply list_elem_of_In|].
    by apply str_in_occurs.
Qed.

Lemma find_first_occurring ts s :
  any_str ts s = true →
  ∃ t, List.find (λ t, str_in t s) ts = Some t ∧ first_occurring ts s t.
Proof.
  unfold any_str. induction ts as [|t ts IH]; simpl; [done|].
  destruct (str_in t s) eqn:E; simpl.
  - intros _. exists t. split; [done|]. exists [], ts. split; [done|]. split.
    + by apply str_in_occurs.
    + intros u Hu. by apply elem_of_nil in Hu.
  - intros H. destruct (IH H) as (t' & Hfind & ts1 & ts2 & Hts & Ho & Hn).
    exists t'. split; [done|]. exists (t :: ts1), ts2.
    split; [by rewrite Hts|]. split; [done|].
    intros u [->|Hu]%elem_of_cons; [|by apply Hn].
    rewrite <- str_in_occurs. by rewrite E.
Qed.

Lemma first_in_spec ts s :
  any_str ts s = true → first_occurring ts s (first_in ts s).
Proof.
  intros H. destruct (find_first_occurring ts s H) as (t & Hfind & Ht).
  unfold first_in. by rewrite Hfind.
Qed.

Lemma first_occurring_member ts s t : first_occurring ts s t → t ∈ ts.
Proof.
  intros (ts1 & ts2 & -> & _). apply elem_of_app. right. by left.
Qed.

Lemma isin_str ts s : isin ts (VStr s) = true ↔ s ∈ ts.
Proof.
  unfold isin. rewrite existsb_exists. split.
  - intros (t & Ht & E). unfold py_eq in E. simpl in E.
    apply bool_decide_eq_true in E. injection E as ->.
    by apply list_elem_of_In.
  - intros Hs. exists s. split; [by apply list_elem_of_In|].
    unfold py_eq. simpl. by apply bool_decide_eq_true.
Qed.

(** Exact membership implies substring containment. *)
Lemma isin_any_str ts s : isin ts (VStr s) = true → any_str ts s = true.
Proof.
  rewrite isin_str, any_str_spec. intros Hs. exists s. split; [done|].
  apply str_in_occurs, str_in_refl.
Qed.

Lemma filter_sublist {A} (p q : A → bool) l :
  (∀ x, p x = true → q x = true) →
  List.filter p l `sublist_of` List.filter q l.
Proof.
  intros Hpq. induction l as [|x l IH]; simpl; [done|].
  destruct (p x) eqn:E.
  - rewrite (Hpq x E). by constructor.
  - destruct (q x); [by constructor | done].
Qed.

(** Case folding commutes with concatenation, in both directions. *)
Lemma lower_app a b : lower (a +:+ b) = lower a +:+ lower b.
Proof.
  induction a as [|c a IH]; [done|].
  rewrite append_cons. simpl. by rewrite IH.
Qed.

Lemma lower_app_inv s u v :
  lower s = u +:+ v → ∃ a b, s = a +:+ b ∧ lower a = u ∧ lower b = v.
Proof.
  revert s. induction u as [|c u IH]; intros s H.
  - by exists EmptyString, s.
  - destruct s as [|d s]; [discriminate|].
    rewrite append_cons in H. simpl in H. injection H as Hc H.
    destruct (IH s H) as (a & b & -> & Ha & Hb).
    exists (String d a), b. simpl. by rewrite Hc, Ha.
Qed.

(** [search_nocase]: some substring of [s] is [pat] up to case. *)
Lemma search_nocase_spec pat s :
  search_nocase pat s = true ↔ ∃ x, occurs_in x s ∧ lower x = lower pat.
Proof.
  unfold search_nocase. rewrite str_in_spec. split.
  - intros (a' & b' & H).
    apply lower_app_inv in H as (a & xb & -> & Ha & H).
    apply lower_app_inv in H as (x & b & -> & Hx & Hb).
    exists x. split; [by exists a, b | done].
  - intros (x & (a & b & ->) & Hx). exists (lower a), (lower b).
    by rewrite !lower_app, Hx.
Qed.



(** The scenario of the specification: of the instrument classes "CR123"
    and "TR", the non-strict filter for ["CR"] keeps the first, rewritten
    to "CR", and drops the second. *)
Example nonstrict_instrClass_scenario :
  ∃ w' T',
    filter_instrClass 0 ["CR"] false sample_world = Returns 4%nat w'
    ∧ heap w' !! 4%nat = Some T'
    ∧ map (λ r, (label r, cell "instrClass" r)) (rows T')
      = [(1%Z, VStr "CR")].
Proof. eexists _, _. split; [vm_compute; reflexivity|]. by split. Qed.

(** On a frame without rows the strict filter returns a frame without
    rows, the non-strict filter stops at line 127, and the look-direction
    filter returns a frame without columns. *)
Example filters_on_emptied_frame :
  (∃ w', filter_instrClass 0 ["CR"] true emptied_world = Returns 3%nat w'
         ∧ heap w' !! 3%nat = Some emptied_frame)
  ∧ (∃ w', filter_instrClass 0 ["CR"] false emptied_world
           = Raises (KeyError "instrClass") w'
           ∧ stdout w'
             = [Msg "--> Filtering by instrument class: {types} (strict={strict})..."])
  ∧ (∃ w', filter_lookDir 0 ["E"] emptied_world = Returns 3%nat w'
           ∧ heap w' !! 3%nat = Some no_columns).
Proof.
  split; [|split]; eexists; (split; [vm_compute; reflexivity | reflexivity]).
Qed.

(** C4. The rows kept by the strict instrument-class filter are among
    the rows kept by the non-strict one.  The strict filter returns on
    every frame that has the column.  On a frame with rows the non-strict
    filter returns too, and the two results come, row for row, from
    subsequences [ks] and [kn] of the rows of [T], with [ks] a subsequence
    of [kn].  On a frame without rows the strict filter keeps no row and
    the non-strict filter raises [KeyError] for the column. *)
Theorem strict_instrClass_within_nonstrict types df T w :
  heap w !! df = Some T →
  "instrClass" ∈ columns T →
  ∃ ls ws Ts,
    filter_instrClass df types true w = Returns ls ws
    ∧ heap ws !! ls = Some Ts
    ∧ (rows T ≠ [] →
       ∃ ln wn Tn ks kn,
         filter_instrClass df types false w = Returns ln wn
         ∧ heap wn !! ln = Some Tn
         ∧ ks `sublist_of` kn
         ∧ kn `sublist_of` rows T
         ∧ Forall2 (from_row "instrClass") ks (rows Ts)
         ∧ Forall2 (from_row "instrClass") kn (rows Tn)
         ∧ map label (rows Ts) `sublist_of` map label (rows Tn))
    ∧ (rows T = [] →
       rows Ts = []
       ∧ ∃ wn, filter_instrClass df types false w
               = Raises (KeyError "instrClass") wn).
Proof.
  intros Hdf Hc.
  destruct (returns_frame_lookup _ _ _
              (run_filter_returns (InstrClass types true) df T w Hdf Hc
                 (or_introl eq_refl)))
    as (ls & ws & Es & Hls & _).
  exists ls, ws, (filter_frame (InstrClass types true) T).
  split; [done|]. split; [done|]. split.
  - intros Hrows.
    destruct (returns_frame_lookup _ _ _
                (run_filter_returns (InstrClass types false) df T w Hdf Hc
                   (or_intror Hrows)))
      as (ln & wn & En & Hln & _).
    assert (kept_rows (InstrClass types true) T
            `sublist_of` kept_rows (InstrClass types false) T) as Hsub.
    { apply filter_sublist. intros r. apply isin_any_str. }
    exists ln, wn, (filter_frame (InstrClass types false) T),
      (kept_rows (InstrClass types true) T),
      (kept_rows (InstrClass types false) T).
    split; [done|]. split; [done|].
    split; [done|]. split; [apply kept_rows_sublist|].
    split; [|split].
    + simpl. apply Forall2_fmap_r, Forall_Forall2_diag, Forall_forall.
      intros r _. apply (from_row_out_row (InstrClass types true)).
    + simpl. apply Forall2_fmap_r, Forall_Forall2_diag, Forall_forall.
      intros r _. apply (from_row_out_row (InstrClass types false)).
    + simpl. rewrite !map_map.
      erewrite (map_ext (λ r, label (out_row (InstrClass types true) r)));
        [|intros r; apply (from_row_out_row (InstrClass types true))].
      erewrite (map_ext (λ r, label (out_row (InstrClass types false) r)));
        [|intros r; apply (from_row_out_row (InstrClass types false))].
      by apply (fmap_sublist label).
  - intros Hrows. split.
    + simpl. unfold kept_rows. by rewrite Hrows.
    + destruct (run_instrClass_empty types df T w Hdf Hc Hrows)
        as (extra & out & E).
      by eexists.
Qed.

Lemma strict_instrClass_within_nonstrict_witness :
  heap sample_world !! 0%nat = Some sample_frame
  ∧ "instrClass" ∈ sample_columns
  ∧ ∃ ls ws Ts,
      filter_instrClass 0 ["TR"; "CR"] true sample_world = Returns ls ws
      ∧ heap ws !! ls = Some Ts
      ∧ (rows sample_frame ≠ [] →
         ∃ ln wn Tn ks kn,
           filter_instrClass 0 ["TR"; "CR"] false sample_world
           = Returns ln wn
           ∧ heap wn !! ln = Some Tn
           ∧ ks `sublist_of` kn
           ∧ kn `sublist_of` rows sample_frame
           ∧ Forall2 (from_row "instrClass") ks (rows Ts)
           ∧ Forall2 (from_row "instrClass") kn (rows Tn)
           ∧ map label (rows Ts) `sublist_of` map label (rows Tn))
      ∧ (rows sample_frame = [] →
         rows Ts = []
         ∧ ∃ wn, filter_instrClass 0 ["TR"; "CR"] false sample_world
                 = Raises (KeyError "instrClass") wn).
Proof.
  assert ("instrClass" ∈ sample_columns) as Hc
    by (unfold sample_columns; repeat constructor).
  split; [reflexivity|]. split; [exact Hc|].
  exact (strict_instrClass_within_nonstrict ["TR"; "CR"] 0 sample_frame
           sample_world eq_refl Hc).
Defined.

(** C5. The satellite-system filter keeps exactly the rows whose
    satellite-system field, as text, has a substring equal to "All" up to
    case or has one of the requested codes as a substring.  A field "All"
    is kept whatever is requested, and a field "S1A,RS2" is kept when
    "S1A" is requested. *)
Theorem satSys_filter_keeps satSystems df T w :
  heap w !! df = Some T →
  "satSys" ∈ columns T →
  ∃ l' w' T',
    filter_satSys df satSystems w = Returns l' w'
    ∧ heap w' !! l' = Some T'
    ∧ rows T'
      = map (λ r, set_cell "satSys" (VStr (py_str (cell "satSys" r))) r)
          (List.filter
             (λ r, keeps (SatSys satSystems) (cell "satSys" r)) (rows T))
    ∧ (∀ v, keeps (SatSys satSystems) v = true ↔
            (∃ x, occurs_in x (py_str v) ∧ lower x = "all")
            ∨ (∃ t, t ∈ satSystems ∧ occurs_in t (py_str v)))
    ∧ keeps (SatSys satSystems) (VStr "All") = true
    ∧ ("S1A" ∈ satSystems →
       keeps (SatSys satSystems) (VStr "S1A,RS2") = true).
Proof.
  intros Hdf Hc.
  destruct (returns_frame_lookup _ _ _
              (run_filter_returns (SatSys satSystems) df T w Hdf Hc
                 (or_introl eq_refl)))
    as (l' & w' & E & Hl & _).
  exists l', w', (filter_frame (SatSys satSystems) T).
  split; [done|]. split; [done|]. split; [done|].
  assert (∀ v, keeps (SatSys satSystems) v = true ↔
            (∃ x, occurs_in x (py_str v) ∧ lower x = "all")
            ∨ (∃ t, t ∈ satSystems ∧ occurs_in t (py_str v))) as Hkeeps.
  { intros v. simpl.
    by rewrite orb_true_iff, search_nocase_spec, any_str_spec. }
  split; [done|]. split; [done|].
  intros Hin. apply Hkeeps. right. exists "S1A". split; [done|].
  by exists EmptyString, ",RS2".
Qed.

Lemma satSys_filter_keeps_witness :
  heap sample_world !! 0%nat = Some sample_frame
  ∧ "satSys" ∈ sample_columns
  ∧ ∃ l' w' T',
      filter_satSys 0 ["S1A"; "RS2"] sample_world = Returns l' w'
      ∧ heap w' !! l' = Some T'
      ∧ rows T'
        = map (λ r, set_cell "satSys" (VStr (py_str (cell "satSys" r))) r)
            (List.filter
               (λ r, keeps (SatSys ["S1A"; "RS2"]) (cell "satSys" r))
               (rows sample_frame))
      ∧ (∀ v, keeps (SatSys ["S1A"; "RS2"]) v = true ↔
              (∃ x, occurs_in x (py_str v) ∧ lower x = "all")
              ∨ (∃ t, t ∈ ["S1A"; "RS2"] ∧ occurs_in t (py_str v)))
      ∧ keeps (SatSys ["S1A"; "RS2"]) (VStr "All") = true
      ∧ ("S1A" ∈ ["S1A"; "RS2"] →
         keeps (SatSys ["S1A"; "RS2"]) (VStr "S1A,RS2") = true).
Proof.
  assert ("satSys" ∈ sample_columns) as Hc
    by (unfold sample_columns; repeat constructor).
  split; [reflexivity|]. split; [exact Hc|].
  exact (satSys_filter_keeps ["S1A"; "RS2"] 0 sample_frame sample_world
           eq_refl Hc).
Defined.

(** ** The renderer's early exits *)

(** C2. On a frame without rows, or without the latitude or the
    longitude column, the renderer prints an error line, returns [None],
    and leaves the files (and the store) as they were. *)
Theorem renderer_refuses TABLEAU_COLORS CSS4_COLORS float_literal
    df a T w :
  heap w !! df = Some T →
  rows T = [] ∨ lat_col a ∉ columns T ∨ lon_col a ∉ columns T →
  ∃ msg,
    plot_insar_points_interactive TABLEAU_COLORS CSS4_COLORS float_literal
      df a w
    = Returns None {| heap := heap w; stdout := stdout w ++ [Msg msg];
                      files := files w |}
    ∧ startswith msg "Error:" = true.
Proof.
  intros Hdf Hbad. unfold plot_insar_points_interactive, bind, deref.
  rewrite Hdf. destruct (empty T) eqn:Hempty.
  { eexists. split; [reflexivity | reflexivity]. }
  destruct (negb (bool_decide (lat_col a ∈ columns T))
            || negb (bool_decide (lon_col a ∈ columns T))) eqn:Hcols.
  { eexists. split; [reflexivity | reflexivity]. }
  exfalso. apply orb_false_elim in Hcols as [Hlat Hlon].
  apply negb_false_iff, bool_decide_eq_true in Hlat, Hlon.
  destruct Hbad as [Hrows | [Hno | Hno]]; [|done..].
  unfold empty in Hempty. by rewrite Hrows in Hempty.
Qed.

Lemma renderer_refuses_witness :
  heap {| heap := [{| columns := sample_columns; rows := [] |}];
          stdout := []; files := ∅ |} !! 0%nat
  = Some {| columns := sample_columns; rows := [] |}
  ∧ ∃ msg,
      plot_insar_points_interactive tableau [] (λ _, true) 0
        default_args
        {| heap := [{| columns := sample_columns; rows := [] |}];
           stdout := []; files := ∅ |}
      = Returns None
          {| heap := [{| columns := sample_columns; rows := [] |}];
             stdout := [] ++ [Msg msg]; files := ∅ |}
      ∧ startswith msg "Error:" = true.
Proof.
  split; [reflexivity|].
  exact (renderer_refuses tableau [] (λ _, true) 0 default_args
           {| columns := sample_columns; rows := [] |}
           {| heap := [{| columns := sample_columns; rows := [] |}];
              stdout := []; files := ∅ |}
           eq_refl (or_introl eq_refl)).
Defined.

(** ** Sorting *)

Lemma py_key_is_text v k :
  py_key v = Some k → is_text v = match k with KStr _ => true | KNum _ => false end.
Proof. destruct v as [| |[]|]; simpl; intros; by simplify_eq. Qed.

Lemma key_le_trans a b c : key_le a b → key_le b c → key_le a c.
Proof.
  destruct a as [[s|x]|], b as [[t|y]|], c as [[u|z]|]; simpl; try done.
  - intros ??. by etrans.
  - lia.
Qed.

Lemma key_le_antisym a b : key_le a b → key_le b a → a = b.
Proof.
  destruct a as [[s|x]|], b as [[t|y]|]; simpl; try done.
  - intros H1 H2. do 2 f_equal. by apply (anti_symm String.le).
  - intros. do 2 f_equal. lia.
Qed.

Lemma string_ltb_le s t : String.ltb s t = true → String.le s t.
Proof.
  unfold String.ltb, String.le, String.leb.
  by destruct (String.compare s t).
Qed.

Lemma string_ltb_ge s t : String.ltb s t = false → String.le t s.
Proof.
  unfold String.ltb, String.le, String.leb.
  rewrite (String.compare_antisym t s).
  by destruct (String.compare s t).
Qed.

(** Two values of one kind compare without error, and [<] decides the
    order. *)
Lemma py_lt_same_kind a b :
  isna a = false → isna b = false → is_text a = is_text b →
  ∃ c, py_lt a b = Ok c ∧ if c then py_le a b else py_le b a.
Proof.
  unfold py_le.
  destruct a as [s|x|[]|], b as [t|y|[]|]; simpl; try done; intros _ _ _.
  all: try (eexists; split; [reflexivity|];
            match goal with
            | |- context [(?x <? ?y)%Z] =>
                destruct (Z.ltb_spec x y); simpl; lia
            end).
  destruct (String.ltb s t) eqn:E; eexists; (split; [reflexivity|]).
  - by apply string_ltb_le.
  - by apply string_ltb_ge.
Qed.

(** A string and a number do not compare. *)
Lemma py_lt_other_kind a b :
  isna a = false → isna b = false → is_text a ≠ is_text b →
  py_lt a b = Err TypeError.
Proof. by destruct a as [| |[]|], b as [| |[]|]. Qed.

Lemma insort_same_kind k x l :
  isna x = false → is_text x = k →
  Forall (λ y, isna y = false ∧ is_text y = k) l →
  ∃ l', insort x l = Ok l' ∧ l' ≡ₚ x :: l
        ∧ (StronglySorted py_le l → StronglySorted py_le l').
Proof.
  intros Hx Hk. induction 1 as [|y l [Hy Hky] Hl IH]; simpl.
  { eexists. split; [done|]. split; [done|]. intros _. by repeat constructor. }
  destruct (py_lt_same_kind x y Hx Hy) as (c & -> & Hc); [congruence|].
  simpl. destruct c.
  - eexists. split; [done|]. split; [done|].
    intros Hs. constructor; [done|]. constructor; [done|].
    apply StronglySorted_inv in Hs as [_ Hs].
    eapply Forall_impl; [exact Hs|]. intros z Hz.
    by eapply key_le_trans.
  - destruct IH as (l' & -> & Hperm & Hsort). simpl.
    eexists. split; [done|]. split.
    { rewrite Hperm. apply Permutation_swap. }
    intros Hs. apply StronglySorted_inv in Hs as [Hs Hall].
    constructor; [by apply Hsort|].
    rewrite Hperm. by constructor.
Qed.

Lemma insort_other_kind x y l :
  isna x = false → isna y = false → is_text x ≠ is_text y →
  insort x (y :: l) = Err TypeError.
Proof. intros. simpl. by rewrite py_lt_other_kind. Qed.

Lemma sort_from_err e l : sort_from (Err e) l = Err e.
Proof. induction l as [|x l IH]; simpl; [done | apply IH]. Qed.

Lemma sort_from_same_kind k s l :
  Forall (λ y, isna y = false ∧ is_text y = k) s →
  Forall (λ y, isna y = false ∧ is_text y = k) l →
  StronglySorted py_le s →
  ∃ s', sort_from (Ok s) l = Ok s' ∧ s' ≡ₚ s ++ l ∧ StronglySorted py_le s'.
Proof.
  intros Hs Hl. revert s Hs. induction Hl as [|x l [Hx Hk] Hl IH]; intros s Hs Hsort.
  { exists s. by rewrite app_nil_r. }
  simpl. destruct (insort_same_kind k x s Hx Hk Hs) as (s1 & -> & Hperm & Hsort1).
  destruct (IH s1) as (s' & -> & Hperm' & Hsort'); [|by apply Hsort1|].
  { rewrite Hperm. by constructor. }
  exists s'. split; [done|]. split; [|done].
  rewrite Hperm', Hperm. simpl. apply Permutation_middle.
Qed.

Lemma sort_from_other_kind k s l :
  s ≠ [] →
  Forall (λ y, isna y = false ∧ is_text y = k) s →
  Forall (λ y, isna y = false) l →
  ¬ Forall (λ y, is_text y = k) l →
  sort_from (Ok s) l = Err TypeError.
Proof.
  intros Hne Hs Hl. revert s Hne Hs.
  induction Hl as [|x l Hx Hl IH]; intros s Hne Hs Hmix.
  { by destruct Hmix. }
  simpl. destruct (decide (is_text x = k)) as [Hk|Hk].
  - destruct (insort_same_kind k x s Hx Hk Hs) as (s1 & -> & Hperm & _).
    apply IH.
    + intros ->. by apply Permutation_nil_cons in Hperm.
    + rewrite Hperm. by constructor.
    + intros Hall. apply Hmix. by constructor.
  - destruct s as [|y s]; [done|].
    apply Forall_cons in Hs as [[Hy Hky] _].
    rewrite insort_other_kind by congruence.
    apply sort_from_err.
Qed.

(** [sorted] on values without NaN: it sorts a list of one kind and
    raises [TypeError] on a list that mixes strings and numbers. *)
Lemma sorted_cases l :
  Forall (λ y, isna y = false) l →
  (∃ k s, Forall (λ y, is_text y = k) l
          ∧ sorted l = Ok s ∧ s ≡ₚ l ∧ StronglySorted py_le s)
  ∨ ((∀ k, ¬ Forall (λ y, is_text y = k) l) ∧ sorted l = Err TypeError).
Proof.
  intros Hl. destruct l as [|x l].
  { left. exists true, []. repeat split; by constructor. }
  apply Forall_cons in Hl as [Hx Hl]. unfold sorted. simpl.
  fold (sort_from (Ok [x]) l).
  destruct (decide (Forall (λ y, is_text y = is_text x) l)) as [Hk|Hk].
  - left. destruct (sort_from_same_kind (is_text x) [x] l) as (s & E & Hp & Hs).
    + by repeat constructor.
    + apply Forall_and. by split.
    + by repeat constructor.
    + exists (is_text x), s. split; [by constructor|]. by rewrite E.
  - right. split.
    + intros k [Hkx Hall]%Forall_cons. apply Hk. by rewrite Hkx.
    + apply (sort_from_other_kind (is_text x)); [done| |done|done].
      by repeat constructor.
Qed.

(** ** Distinct values *)

Lemma isna_py_key v : isna v = true ↔ py_key v = None.
Proof. by destruct v. Qed.

Lemma isna_false_py_key v : isna v = false ↔ is_Some (py_key v).
Proof. destruct v; simpl; split; intros H; try done; by destruct H. Qed.

Lemma elem_of_dropna v l : v ∈ dropna l ↔ v ∈ l ∧ isna v = false.
Proof.
  unfold dropna. rewrite !list_elem_of_In, filter_In.
  by rewrite negb_true_iff.
Qed.

Lemma dropna_not_na l : Forall (λ y, isna y = false) (dropna l).
Proof. apply Forall_forall. intros v Hv. by apply elem_of_dropna in Hv as [_ ?]. Qed.

Lemma unique_scan_elem_of seen s v :
  v ∈ unique_scan seen s → v ∈ s ∧ py_key v ∉ seen.
Proof.
  revert seen. induction s as [|x s IH]; intros seen; simpl.
  { by intros ?%elem_of_nil. }
  case_bool_decide as Hx.
  - intros [? ?]%IH. split; [by right | done].
  - intros [->|[? Hn]%IH]%elem_of_cons.
    + split; [by left | done].
    + split; [by right|]. intros ?. apply Hn. by right.
Qed.

Lemma unique_scan_NoDup seen s : NoDup (map py_key (unique_scan seen s)).
Proof.
  revert seen. induction s as [|x s IH]; intros seen; simpl.
  { constructor. }
  case_bool_decide as Hx; [apply IH|]. simpl. constructor; [|apply IH].
  intros (v & E & Hv)%list_elem_of_fmap.
  apply unique_scan_elem_of in Hv as [_ Hv]. apply Hv. rewrite E. by left.
Qed.

Lemma unique_scan_keys seen s k :
  k ∈ map py_key (unique_scan seen s) ↔ k ∈ map py_key s ∧ k ∉ seen.
Proof.
  revert seen. induction s as [|x s IH]; intros seen; simpl.
  { split; [by intros ?%elem_of_nil | by intros [?%elem_of_nil _]]. }
  case_bool_decide as Hx; simpl; rewrite ?elem_of_cons, IH.
  - split; [tauto|]. intros [[->|?] ?]; tauto.
  - rewrite not_elem_of_cons.
    destruct (decide (k = py_key x)) as [->|]; tauto.
Qed.

Lemma unique_keys s k : k ∈ map py_key (unique s) ↔ k ∈ map py_key s.
Proof.
  unfold unique. rewrite unique_scan_keys. split; [tauto|].
  intros ?. split; [done|]. by intros ?%elem_of_nil.
Qed.

Lemma unique_not_na s :
  Forall (λ y, isna y = false) s → Forall (λ y, isna y = false) (unique s).
Proof.
  rewrite !Forall_forall. intros H v [Hv _]%unique_scan_elem_of. by apply H.
Qed.

(** The classes of the distinct values of a column that are not missing. *)
Lemma distinct_keys l k :
  k ∈ map py_key (unique (dropna l)) ↔ is_Some k ∧ k ∈ map py_key l.
Proof.
  rewrite unique_keys. split.
  - intros (v & -> & [Hv Hna]%elem_of_dropna)%list_elem_of_fmap. split.
    + by apply isna_false_py_key.
    + by apply list_elem_of_fmap_2.
  - intros [Hk Hv]. apply list_elem_of_fmap in Hv as (v & -> & Hv).
    apply list_elem_of_fmap_2, elem_of_dropna. split; [done|].
    by apply isna_false_py_key.
Qed.

(** The kind of a list of values is a matter of its classes. *)
Lemma same_kind_by_keys k l1 l2 :
  (∀ key, key ∈ map py_key l1 → key ∈ map py_key l2) →
  Forall (λ y, isna y = false) l1 →
  Forall (λ y, is_text y = k) l2 → Forall (λ y, is_text y = k) l1.
Proof.
  rewrite !Forall_forall. intros Hkeys Hna Hk y1 Hy1.
  assert (py_key y1 ∈ map py_key l2) as Hin
    by (by apply Hkeys, list_elem_of_fmap_2).
  apply list_elem_of_fmap in Hin as (y2 & E & Hy2).
  rewrite <- (Hk y2 Hy2).
  apply Hna, isna_false_py_key in Hy1 as [key Hkey].
  rewrite (py_key_is_text _ _ Hkey). symmetry. apply py_key_is_text.
  by rewrite <- E.
Qed.

(** Sorting is a function of the set of classes: two lists of distinct
    values with the same classes sort to lists with the same classes in
    the same order, or both raise. *)
Lemma sorted_by_keys l1 l2 :
  Forall (λ y, isna y = false) l1 → Forall (λ y, isna y = false) l2 →
  NoDup (map py_key l1) → NoDup (map py_key l2) →
  (∀ key, key ∈ map py_key l1 ↔ key ∈ map py_key l2) →
  res_map (map py_key) (sorted l1) = res_map (map py_key) (sorted l2).
Proof.
  intros Hna1 Hna2 Hnd1 Hnd2 Hkeys.
  destruct (sorted_cases l1 Hna1) as [(k1 & s1 & Hk1 & -> & Hp1 & Hs1)|[Hk1 ->]],
    (sorted_cases l2 Hna2) as [(k2 & s2 & Hk2 & -> & Hp2 & Hs2)|[Hk2 ->]];
    simpl; [|exfalso..|done].
  - f_equal. apply (StronglySorted_unique_strong key_le).
    + intros. by apply key_le_antisym.
    + by apply (StronglySorted_fmap py_key py_le key_le).
    + by apply (StronglySorted_fmap py_key py_le key_le).
    + apply NoDup_Permutation.
      * by rewrite Hp1.
      * by rewrite Hp2.
      * intros key. rewrite Hp1, Hp2. apply Hkeys.
  - apply (Hk2 k1). eapply same_kind_by_keys; [|done|done].
    intros key. apply Hkeys.
  - apply (Hk1 k2). eapply same_kind_by_keys; [|done|done].
    intros key. apply Hkeys.
Qed.

(** ** Dictionaries *)

Lemma py_eq_keys a b : py_eq a b = true ↔ is_Some (py_key a) ∧ py_key a = py_key b.
Proof.
  unfold py_eq. destruct (py_key a) as [x|], (py_key b) as [y|]; simpl.
  - rewrite bool_decide_eq_true. split; [intros ->; eauto | by intros [_ [= ->]]].
  - split; [done | by intros [_ ?]].
  - split; [done | by intros [[] _]].
  - split; [done | by intros [[] _]].
Qed.

Lemma py_eq_refl a : isna a = false → py_eq a a = true.
Proof. intros H. apply py_eq_keys. split; [by apply isna_false_py_key | done]. Qed.

Lemma py_eq_other a b : py_key a ≠ py_key b → py_eq a b = false.
Proof.
  intros H. apply not_true_is_false. by intros [_ ?]%py_eq_keys.
Qed.

(** A missing value is the key of no entry. *)
Lemma dict_find_na d a : isna a = true → dict_find d a = None.
Proof.
  intros H%isna_py_key. induction d as [|[k v] d IH]; simpl; [done|].
  unfold py_eq. rewrite H. by destruct (py_key k).
Qed.

(** Setting a key of a new class appends an entry. *)
Lemma dict_set_new d k v :
  py_key k ∉ map py_key (map fst d) → dict_set d k v = d ++ [(k, v)].
Proof.
  induction d as [|[k' v'] d IH]; simpl; [done|].
  intros [Hk Hd]%not_elem_of_cons.
  rewrite py_eq_other by done. by rewrite IH.
Qed.

(** The comprehension over keys of distinct classes: the keys, in order,
    each with the value at its index. *)
Lemma dict_comp_zip colors keys i d :
  NoDup (map py_key (map fst d ++ keys)) →
  (i + length keys ≤ length colors)%nat →
  dict_comp (index colors) i keys d = Ok (d ++ zip keys (drop i colors)).
Proof.
  revert i d. induction keys as [|k keys IH]; intros i d Hnd Hlen; simpl.
  { by rewrite app_nil_r. }
  simpl in Hlen. unfold index at 1.
  destruct (lookup_lt_is_Some_2 colors i) as [c Hc]; [lia|].
  rewrite Hc. simpl. rewrite dict_set_new.
  - rewrite IH.
    + rewrite <- app_assoc. simpl. by rewrite (drop_S _ _ _ Hc).
    + rewrite (map_app fst). simpl. by rewrite <- app_assoc.
    + lia.
  - rewrite map_app in Hnd. simpl in Hnd.
    apply NoDup_app in Hnd as (_ & Hnd & _).
    intros Hin. apply (Hnd _ Hin). by left.
Qed.

(** Looking up the [i]-th of keys of distinct classes gives the [i]-th
    value. *)
Lemma dict_find_zip keys colors i k c :
  NoDup (map py_key keys) → Forall (λ y, isna y = false) keys →
  keys !! i = Some k → colors !! i = Some c →
  dict_find (zip keys colors) k = Some c.
Proof.
  revert colors i. induction keys as [|k0 keys IH]; intros colors i Hnd Hna Hk Hc.
  { done. }
  destruct colors as [|c0 colors]; [done|].
  apply NoDup_cons in Hnd as [Hk0 Hnd]. apply Forall_cons in Hna as [Hna0 Hna].
  destruct i as [|i]; simpl in *.
  - simplify_eq. by rewrite py_eq_refl.
  - rewrite py_eq_other; [by eapply IH|].
    intros E. apply Hk0. rewrite E. apply list_elem_of_fmap_2.
    by eapply list_elem_of_lookup_2.
Qed.

(** ** The palette *)

Section Palette.

Context (TABLEAU_COLORS CSS4_COLORS : list string).

Lemma extend_colors_some fuel colors n cs :
  extend_colors CSS4_COLORS fuel colors n = Some cs →
  (n ≤ length cs)%nat
  ∧ ∃ j, cs = colors ++ concat (replicate j CSS4_COLORS)
         ∧ ((n ≤ length colors)%nat → j = 0%nat).
Proof.
  revert colors. induction fuel as [|fuel IH]; intros colors; simpl.
  - destruct (Nat.ltb_spec (length colors) n); [done|].
    intros [= <-]. split; [done|]. exists 0%nat. by rewrite app_nil_r.
  - destruct (Nat.ltb_spec (length colors) n).
    + intros (Hn & j & -> & _)%IH. split; [done|]. exists (S j).
      split; [by rewrite <- app_assoc | lia].
    + intros [= <-]. split; [done|]. exists 0%nat. by rewrite app_nil_r.
Qed.

Lemma extend_colors_done fuel colors n :
  (n ≤ length colors)%nat →
  extend_colors CSS4_COLORS fuel colors n = Some colors.
Proof.
  intros Hn.
  destruct fuel; simpl; by destruct (Nat.ltb_spec (length colors) n); [lia|].
Qed.

Lemma extend_colors_enough fuel colors n :
  CSS4_COLORS ≠ [] → (n ≤ fuel + length colors)%nat →
  is_Some (extend_colors CSS4_COLORS fuel colors n).
Proof.
  intros Hne. revert colors. induction fuel as [|fuel IH]; intros colors Hn; simpl.
  - destruct (Nat.ltb_spec (length colors) n); [lia | done].
  - destruct (Nat.ltb_spec (length colors) n); [|done].
    apply IH. rewrite length_app.
    destruct CSS4_COLORS; [done | simpl; lia].
Qed.

Lemma extend_colors_never fuel colors n :
  CSS4_COLORS = [] → (length colors < n)%nat →
  extend_colors CSS4_COLORS fuel colors n = None.
Proof.
  intros -> Hn. induction fuel as [|fuel IH]; simpl.
  - by destruct (Nat.ltb_spec (length colors) n); [|lia].
  - destruct (Nat.ltb_spec (length colors) n); [|lia].
    by rewrite app_nil_r.
Qed.

(** [n] rounds are enough for [n] owners: the model diverges exactly
    when the loop of the program never ends, that is when the secondary
    palette is empty and the primary one too short. *)
Lemma palette_diverges n w :
  palette TABLEAU_COLORS CSS4_COLORS n w = Diverges
  ↔ CSS4_COLORS = [] ∧ (length TABLEAU_COLORS < n)%nat.
Proof.
  unfold palette. split.
  - destruct (extend_colors _ _ _ _) eqn:E; [done|]. intros _.
    destruct (decide (CSS4_COLORS = [])) as [Hnil|Hne].
    + split; [done|].
      destruct (Nat.ltb_spec (length TABLEAU_COLORS) n); [done|].
      by rewrite extend_colors_done in E.
    + destruct (extend_colors_enough n TABLEAU_COLORS n Hne) as [? ?];
        [lia | congruence].
  - intros [Hnil Hn]. by rewrite extend_colors_never.
Qed.

End Palette.

(** ** The owner colour map *)

(** What sorting the distinct values of a column gives, when it gives
    anything. *)
Lemma sorted_distinct col s :
  sorted (unique (dropna col)) = Ok s →
  s ≡ₚ unique (dropna col)
  ∧ StronglySorted py_le s
  ∧ NoDup (map py_key s)
  ∧ Forall (λ y, isna y = false) s
  ∧ ∀ key, key ∈ map py_key s ↔ is_Some key ∧ key ∈ map py_key col.
Proof.
  intros E.
  destruct (sorted_cases (unique (dropna col))) as [(k & s' & _ & E' & Hp & Hs)|[_ E']].
  { apply unique_not_na, dropna_not_na. }
  2: { by rewrite E in E'. }
  rewrite E in E'. injection E' as <-.
  split; [done|]. split; [done|]. split; [|split].
  - rewrite Hp. apply unique_scan_NoDup.
  - rewrite Hp. apply unique_not_na, dropna_not_na.
  - intros key. rewrite Hp. apply distinct_keys.
Qed.

Section OwnerColors.

Context (TABLEAU_COLORS CSS4_COLORS : list string).

Let assign := make_owner_color_map TABLEAU_COLORS CSS4_COLORS.

(** The three ways a run of the assigner ends. *)
Lemma make_owner_color_map_cases owner w :
  match sorted (unique (dropna owner)) with
  | Err e => assign owner w = Raises e w
  | Ok owners =>
      match extend_colors CSS4_COLORS (length owners) TABLEAU_COLORS
              (length owners) with
      | None => assign owner w = Diverges
      | Some colors => assign owner w = Returns (zip owners colors) w
      end
  end.
Proof.
  unfold assign, make_owner_color_map, bind, lift, palette.
  destruct (sorted _) as [owners|e] eqn:E; [|done]. simpl.
  destruct (extend_colors _ _ _ _) as [colors|] eqn:Ec; [|done]. simpl.
  apply sorted_distinct in E as (_ & _ & Hnd & _).
  apply extend_colors_some in Ec as [Hlen _].
  by rewrite dict_comp_zip.
Qed.

End OwnerColors.

Lemma dict_items_zip s (colors : list string) :
  dict_items (zip s colors) = zip (map py_key s) colors.
Proof.
  revert colors. induction s as [|k s IH]; intros [|c colors]; simpl; try done.
  by rewrite <- IH.
Qed.

Lemma text_keys_inj s1 s2 :
  Forall (λ v, is_text v = true) s1 → Forall (λ v, is_text v = true) s2 →
  map py_key s1 = map py_key s2 → s1 = s2.
Proof.
  intros H1. revert s2. induction H1 as [|x s1 Hx H1 IH]; intros s2 H2 E.
  { by destruct s2. }
  destruct H2 as [|y s2 Hy H2]; [done|]. simpl in E.
  injection E as Exy E. f_equal; [|by apply IH].
  destruct x, y; try done. simpl in Exy. by simplify_eq.
Qed.

Lemma sorted_distinct_elem_of col s v :
  sorted (unique (dropna col)) = Ok s → v ∈ s → v ∈ col ∧ isna v = false.
Proof.
  intros (Hp & _)%sorted_distinct Hv. rewrite Hp in Hv.
  apply unique_scan_elem_of in Hv as [Hv _]. by apply elem_of_dropna.
Qed.

Lemma lookup_concat_replicate {A} (l : list A) n j c :
  concat (replicate n l) !! j = Some c → l !! (j mod length l)%nat = Some c.
Proof.
  revert j. induction n as [|n IH]; intros j; simpl; [done|].
  destruct (decide (j < length l)%nat) as [Hj|Hj].
  - rewrite lookup_app_l by done. by rewrite Nat.mod_small.
  - rewrite lookup_app_r by lia. intros H%IH.
    replace j with (j - length l + 1 * length l)%nat by lia.
    by rewrite Nat.Div0.mod_add.
Qed.

(** Where the extended palette has a colour, it is the colour of that
    position. *)
Lemma lookup_extended TABLEAU_COLORS CSS4_COLORS n i c :
  extended TABLEAU_COLORS CSS4_COLORS n !! i = Some c →
  palette_color TABLEAU_COLORS CSS4_COLORS i = Some c.
Proof.
  unfold extended, palette_color.
  destruct (Nat.ltb_spec i (length TABLEAU_COLORS)) as [Hi|Hi].
  - by rewrite lookup_app_l.
  - rewrite lookup_app_r by done. apply lookup_concat_replicate.
Qed.

Lemma assigned_by_position_zip TABLEAU_COLORS CSS4_COLORS owner owners colors :
  sorted (unique (dropna owner)) = Ok owners →
  extend_colors CSS4_COLORS (length owners) TABLEAU_COLORS (length owners)
  = Some colors →
  assigned_by_position TABLEAU_COLORS CSS4_COLORS owner (zip owners colors).
Proof.
  intros E Ec.
  destruct (sorted_distinct _ _ E) as (_ & Hs & Hnd & Hna & Hkeys).
  apply extend_colors_some in Ec as (Hlen & n & -> & Hn).
  exists owners. split; [done|]. split; [done|]. split; [done|].
  split; [done|]. split.
  { rewrite length_zip. lia. }
  intros i o Ho. fold (extended TABLEAU_COLORS CSS4_COLORS n) in *.
  destruct (lookup_lt_is_Some_2 (extended TABLEAU_COLORS CSS4_COLORS n) i)
    as [c Hc].
  { apply lookup_lt_Some in Ho. lia. }
  exists c. split; [by eapply lookup_extended|]. split.
  - apply lookup_zip_with_Some. by exists o, c.
  - by eapply dict_find_zip.
Qed.

(** [sorted] fails on the distinct values of a column only with
    [TypeError], and only when the column holds a text and a number. *)
Lemma sorted_err_mixed col e :
  sorted (unique (dropna col)) = Err e → e = TypeError ∧ mixed col.
Proof.
  intros E.
  destruct (sorted_cases (unique (dropna col)))
    as [(k & s & _ & E' & _)|[Hmix E']].
  { apply unique_not_na, dropna_not_na. }
  { by rewrite E in E'. }
  rewrite E in E'. injection E' as ->. split; [done|].
  assert (∀ k, ∃ v, v ∈ col ∧ isna v = false ∧ is_text v = negb k) as Hk.
  { intros k. pose proof (Hmix k) as Hn.
    apply not_Forall_Exists in Hn; [|intros v; apply _].
    apply Exists_exists in Hn as (v & Hv & Hkv).
    apply unique_scan_elem_of in Hv as [Hv _].
    apply elem_of_dropna in Hv as [Hv Hna].
    exists v. split; [done|]. split; [done|].
    unfold compose in Hkv.
    destruct (is_text v), k; simpl; try done; by destruct Hkv. }
  destruct (Hk false) as (v1 & Hv1 & _ & Ht1).
  destruct (Hk true) as (v2 & Hv2 & Hna2 & Ht2).
  by exists v1, v2.
Qed.

(** C8. The owner colour map is a function of the set of distinct owner
    values.  Take two owner columns with the same values that are not
    missing (as sets, values taken up to [==]).
    - If the column does not mix texts and numbers, and the secondary
      palette is not empty or the primary one has a colour for every
      distinct owner, both runs return a map.
    - The two maps are equal as dictionaries, entry for entry in the same
      order, and identical when the owners are strings; each pairs the
      sorted distinct owners with the colours of the palette position by
      position: a colour of the primary palette while it lasts, behind it
      the colours of the secondary palette.
    - Without a map the runs end the same way too: both raise
      [TypeError], which they do only on a column that mixes texts and
      numbers, or both loop, which they do only when the secondary
      palette is empty and the primary one too short. *)
Theorem owner_color_map_deterministic TABLEAU_COLORS CSS4_COLORS
    owner1 owner2 w1 w2 :
  (∀ k, Some k ∈ map py_key owner1 ↔ Some k ∈ map py_key owner2) →
  (¬ mixed owner1 →
   CSS4_COLORS ≠ [] ∨ (distinct owner1 ≤ length TABLEAU_COLORS)%nat →
   ∃ d1 d2,
     make_owner_color_map TABLEAU_COLORS CSS4_COLORS owner1 w1
     = Returns d1 w1
     ∧ make_owner_color_map TABLEAU_COLORS CSS4_COLORS owner2 w2
       = Returns d2 w2)
  ∧ match make_owner_color_map TABLEAU_COLORS CSS4_COLORS owner1 w1,
          make_owner_color_map TABLEAU_COLORS CSS4_COLORS owner2 w2 with
    | Returns d1 w1', Returns d2 w2' =>
        dict_items d1 = dict_items d2
        ∧ (Forall (λ v, is_text v = true ∨ isna v = true) (owner1 ++ owner2) →
           d1 = d2)
        ∧ assigned_by_position TABLEAU_COLORS CSS4_COLORS owner1 d1
        ∧ assigned_by_position TABLEAU_COLORS CSS4_COLORS owner2 d2
        ∧ w1' = w1 ∧ w2' = w2
    | Raises e1 _, Raises e2 _ =>
        e1 = TypeError ∧ e2 = TypeError ∧ mixed owner1 ∧ mixed owner2
    | Diverges, Diverges =>
        CSS4_COLORS = []
        ∧ (length TABLEAU_COLORS < distinct owner1)%nat
        ∧ distinct owner2 = distinct owner1
    | _, _ => False
    end.
Proof.
  intros Hsame.
  pose proof (make_owner_color_map_cases TABLEAU_COLORS CSS4_COLORS owner1 w1) as H1.
  pose proof (make_owner_color_map_cases TABLEAU_COLORS CSS4_COLORS owner2 w2) as H2.
  assert (res_map (map py_key) (sorted (unique (dropna owner1)))
          = res_map (map py_key) (sorted (unique (dropna owner2)))) as Hkeys.
  { apply sorted_by_keys.
    - apply unique_not_na, dropna_not_na.
    - apply unique_not_na, dropna_not_na.
    - apply unique_scan_NoDup.
    - apply unique_scan_NoDup.
    - intros key. rewrite !distinct_keys. split.
      + intros [[k ->] Hk]. split; [by eexists | by apply Hsame].
      + intros [[k ->] Hk]. split; [by eexists | by apply Hsame]. }
  destruct (sorted (unique (dropna owner1))) as [s1|e1] eqn:E1,
    (sorted (unique (dropna owner2))) as [s2|e2] eqn:E2;
    simpl in Hkeys; simplify_eq.
  2: { rewrite H1, H2.
       destruct (sorted_err_mixed _ _ E1) as [-> Hm1].
       destruct (sorted_err_mixed _ _ E2) as [_ Hm2].
       split; [by intros Hn | done]. }
  assert (length s1 = length s2) as Hlen
    by (by rewrite <- (length_map py_key s1), Hkeys, length_map).
  assert (distinct owner1 = length s1) as Hd1.
  { apply sorted_distinct in E1 as (Hp & _). unfold distinct. by rewrite Hp. }
  assert (distinct owner2 = length s2) as Hd2.
  { apply sorted_distinct in E2 as (Hp & _). unfold distinct. by rewrite Hp. }
  rewrite Hlen in H1.
  destruct (extend_colors _ _ _ _) as [colors|] eqn:Ec; rewrite H1, H2.
  2: { split.
       - intros _ [Hne|Hle].
         + destruct (extend_colors_enough CSS4_COLORS (length s2)
                       TABLEAU_COLORS (length s2) Hne) as [cs Hcs]; [lia|].
           by rewrite Hcs in Ec.
         + rewrite extend_colors_done in Ec by lia. done.
       - destruct (decide (CSS4_COLORS = [])) as [Hnil|Hne].
         + split; [done|]. split; [|lia].
           destruct (le_lt_dec (length s2) (length TABLEAU_COLORS)); [|lia].
           rewrite extend_colors_done in Ec by lia. done.
         + destruct (extend_colors_enough CSS4_COLORS (length s2)
                       TABLEAU_COLORS (length s2) Hne) as [cs Hcs]; [lia|].
           by rewrite Hcs in Ec. }
  split; [by intros _ _; eexists _, _|].
  split; [by rewrite !dict_items_zip, Hkeys|]. split.
  { intros [Ht1 Ht2]%Forall_app. f_equal. apply text_keys_inj; [| |done].
    - apply Forall_forall. intros v [Hv Hna]%(sorted_distinct_elem_of owner1).
      + rewrite Forall_forall in Ht1. destruct (Ht1 v Hv); congruence.
      + done.
    - apply Forall_forall. intros v [Hv Hna]%(sorted_distinct_elem_of owner2).
      + rewrite Forall_forall in Ht2. destruct (Ht2 v Hv); congruence.
      + done. }
  split; [|split; [|done]].
  - apply assigned_by_position_zip; [done | by rewrite Hlen].
  - by apply assigned_by_position_zip.
Qed.

Lemma owner_color_map_deterministic_witness :
  (∀ k, Some k ∈ map py_key [VStr "TUD"; VNaN; VStr "ESA"]
        ↔ Some k ∈ map py_key [VStr "ESA"; VStr "TUD"; VStr "ESA"])
  ∧ (¬ mixed [VStr "TUD"; VNaN; VStr "ESA"] →
     @nil string ≠ []
     ∨ (distinct [VStr "TUD"; VNaN; VStr "ESA"] ≤ length tableau)%nat →
     ∃ d1 d2,
       make_owner_color_map tableau [] [VStr "TUD"; VNaN; VStr "ESA"]
         sample_world = Returns d1 sample_world
       ∧ make_owner_color_map tableau [] [VStr "ESA"; VStr "TUD"; VStr "ESA"]
           sample_world = Returns d2 sample_world)
  ∧ match make_owner_color_map tableau [] [VStr "TUD"; VNaN; VStr "ESA"]
            sample_world,
          make_owner_color_map tableau [] [VStr "ESA"; VStr "TUD"; VStr "ESA"]
            sample_world with
    | Returns d1 w1', Returns d2 w2' =>
        dict_items d1 = dict_items d2
        ∧ (Forall (λ v, is_text v = true ∨ isna v = true)
             ([VStr "TUD"; VNaN; VStr "ESA"]
              ++ [VStr "ESA"; VStr "TUD"; VStr "ESA"]) →
           d1 = d2)
        ∧ assigned_by_position tableau [] [VStr "TUD"; VNaN; VStr "ESA"] d1
        ∧ assigned_by_position tableau []
            [VStr "ESA"; VStr "TUD"; VStr "ESA"] d2
        ∧ w1' = sample_world ∧ w2' = sample_world
    | Raises e1 _, Raises e2 _ =>
        e1 = TypeError ∧ e2 = TypeError
        ∧ mixed [VStr "TUD"; VNaN; VStr "ESA"]
        ∧ mixed [VStr "ESA"; VStr "TUD"; VStr "ESA"]
    | Diverges, Diverges =>
        @nil string = []
        ∧ (length tableau < distinct [VStr "TUD"; VNaN; VStr "ESA"])%nat
        ∧ distinct [VStr "ESA"; VStr "TUD"; VStr "ESA"]
          = distinct [VStr "TUD"; VNaN; VStr "ESA"]
    | _, _ => False
    end.
Proof.
  assert (∀ k, Some k ∈ map py_key [VStr "TUD"; VNaN; VStr "ESA"]
               ↔ Some k ∈ map py_key [VStr "ESA"; VStr "TUD"; VStr "ESA"])
    as Hsame.
  { intros k. simpl. rewrite !elem_of_cons, !elem_of_nil.
    intuition discriminate. }
  split; [exact Hsame|].
  exact (owner_color_map_deterministic tableau []
           [VStr "TUD"; VNaN; VStr "ESA"] [VStr "ESA"; VStr "TUD"; VStr "ESA"]
           sample_world sample_world Hsame).
Defined.

(** The colour map of the witness: "ESA" before "TUD", with the first two
    colours of the palette. *)
Example owner_color_map_example :
  make_owner_color_map tableau [] [VStr "TUD"; VNaN; VStr "ESA"] sample_world
  = Returns [(VStr "ESA", "#1f77b4"); (VStr "TUD", "#ff7f0e")] sample_world.
Proof. reflexivity. Qed.

(** A primary palette of one colour and a secondary one of two, for four
    owners: the secondary palette is gone through twice. *)
Example owner_color_map_extends :
  make_owner_color_map ["red"] ["green"; "blue"]
    [VStr "d"; VStr "b"; VStr "a"; VStr "c"; VStr "b"] sample_world
  = Returns [(VStr "a", "red"); (VStr "b", "green"); (VStr "c", "blue");
             (VStr "d", "green")] sample_world.
Proof. reflexivity. Qed.

(** ** The domains of the symbol maps *)

Lemma dict_find_set d k v a :
  is_Some (dict_find d a) ∨ py_eq k a = true →
  is_Some (dict_find (dict_set d k v) a).
Proof.
  induction d as [|[k' v'] d IH]; simpl.
  - intros [[x Hx]|Hk]; [done | rewrite Hk; by eexists].
  - destruct (py_eq k' k) eqn:Ek; simpl.
    + destruct (py_eq k' a) eqn:Ea; [by eexists|].
      intros [H|Hka]; [done|]. exfalso.
      apply py_eq_keys in Ek as [Hs Ek], Hka as [_ Hka].
      rewrite (proj2 (py_eq_keys k' a)) in Ea; [done|].
      split; [done | congruence].
    + destruct (py_eq k' a); [by eexists | done].
Qed.

(** Every key of a comprehension can be looked up in its result. *)
Lemma dict_comp_domain f i keys d d' a :
  dict_comp f i keys d = Ok d' →
  is_Some (dict_find d a) ∨ (∃ k, k ∈ keys ∧ py_eq k a = true) →
  is_Some (dict_find d' a).
Proof.
  revert i d. induction keys as [|k keys IH]; intros i d; simpl.
  { intros E [H|(k & Hk & _)]; [by simplify_eq | by apply elem_of_nil in Hk]. }
  destruct (f i) as [v|e]; simpl; [|done].
  intros E H. apply (IH _ _ E).
  destruct H as [H|(k' & Hk' & Heq)]; [|apply elem_of_cons in Hk' as [->|Hk']].
  - left. apply dict_find_set. by left.
  - left. apply dict_find_set. by right.
  - right. by exists k'.
Qed.

(** A value of the column that is not missing is, up to [==], one of the
    sorted distinct values. *)
Lemma sorted_distinct_covers col s v :
  sorted (unique (dropna col)) = Ok s →
  v ∈ col → isna v = false → ∃ k, k ∈ s ∧ py_eq k v = true.
Proof.
  intros (_ & _ & _ & _ & Hkeys)%sorted_distinct Hv Hna.
  assert (py_key v ∈ map py_key s) as Hin.
  { apply Hkeys. split; [by apply isna_false_py_key|].
    by apply list_elem_of_fmap_2. }
  apply list_elem_of_fmap in Hin as (k & E & Hk). exists k. split; [done|].
  apply py_eq_keys. split; [|done]. rewrite <- E. by apply isna_false_py_key.
Qed.

Lemma make_owner_color_map_domain TABLEAU_COLORS CSS4_COLORS col w d w' v :
  make_owner_color_map TABLEAU_COLORS CSS4_COLORS col w = Returns d w' →
  v ∈ col → isna v = false → is_Some (dict_find d v).
Proof.
  unfold make_owner_color_map, bind, lift, palette.
  destruct (sorted _) as [owners|e] eqn:E; [|done]. simpl.
  destruct (extend_colors _ _ _ _) as [colors|]; [|done]. simpl.
  destruct (dict_comp _ _ _ _) as [d0|e] eqn:Ed; [|done]. simpl.
  intros [= <- <-] Hv Hna. apply (dict_comp_domain _ _ _ _ _ _ Ed).
  right. by eapply sorted_distinct_covers.
Qed.

Lemma make_instr_icon_map_domain col d v :
  make_instr_icon_map col = Ok d →
  v ∈ col → isna v = false → is_Some (dict_find d v).
Proof.
  unfold make_instr_icon_map.
  destruct (sorted _) as [classes|e] eqn:E; [|done]. simpl.
  intros Ed Hv Hna. apply (dict_comp_domain _ _ _ _ _ _ Ed).
  right. by eapply sorted_distinct_covers.
Qed.

Lemma marker_color_make_marker float_literal T a dO dI r m :
  owner_col a ∈ columns T →
  make_marker float_literal T a dO dI r = Ok m →
  marker_color m = dict_get dO (cell (owner_col a) r) "gray".
Proof.
  intros Hc. unfold make_marker, row_get.
  destruct (py_float _ _) as [lat|]; [|done]. simpl.
  destruct (py_float _ _) as [lon|]; [|done]. simpl.
  rewrite (bool_decide_eq_true_2 _ Hc).
  destruct (validate_location _ _); [|done]. simpl.
  intros [= <-]. by destruct (String.eqb _ _).
Qed.

(** C9, as the code has it.  A lookup that finds no entry gives "gray",
    respectively "circle".  With the maps built from the frame that is
    rendered, the lookup of a row's owner, respectively instrument class,
    finds an entry whenever the value is not missing; for a missing value
    (NaN, which [dropna] keeps out of the maps) it finds none, and the row
    is drawn with the default.  The colour of a row's marker is the result
    of that lookup. *)
Theorem symbol_lookup_defaults TABLEAU_COLORS CSS4_COLORS float_literal
    T a w owner_color_map w' instr_icon_map :
  owner_col a ∈ columns T →
  make_owner_color_map TABLEAU_COLORS CSS4_COLORS
    (map (cell (owner_col a)) (rows T)) w = Returns owner_color_map w' →
  make_instr_icon_map (map (cell (instr_col a)) (rows T))
  = Ok instr_icon_map →
  (∀ d k dflt, dict_find d k = None → dict_get d k dflt = dflt)
  ∧ ∀ r, r ∈ rows T →
      let owner := cell (owner_col a) r in
      let instr := cell (instr_col a) r in
      (if isna owner
       then dict_find owner_color_map owner = None
            ∧ dict_get owner_color_map owner "gray" = "gray"
       else ∃ color, dict_find owner_color_map owner = Some color
                     ∧ dict_get owner_color_map owner "gray" = color)
      ∧ (if isna instr
         then dict_find instr_icon_map instr = None
              ∧ dict_get instr_icon_map instr "circle" = "circle"
         else ∃ shape, dict_find instr_icon_map instr = Some shape
                       ∧ dict_get instr_icon_map instr "circle" = shape)
      ∧ ∀ m, make_marker float_literal T a owner_color_map instr_icon_map r
             = Ok m →
             marker_color m = dict_get owner_color_map owner "gray".
Proof.
  intros Hc HO HI. split.
  { intros d k dflt H. unfold dict_get. by rewrite H. }
  intros r Hr owner instr. split; [|split].
  - destruct (isna owner) eqn:Hna.
    + unfold dict_get. by rewrite dict_find_na.
    + destruct (make_owner_color_map_domain _ _ _ _ _ _ owner HO)
        as [color Hcolor]; [by apply list_elem_of_fmap_2 | done |].
      exists color. unfold dict_get. by rewrite Hcolor.
  - destruct (isna instr) eqn:Hna.
    + unfold dict_get. by rewrite dict_find_na.
    + destruct (make_instr_icon_map_domain _ _ instr HI)
        as [shape Hshape]; [by apply list_elem_of_fmap_2 | done |].
      exists shape. unfold dict_get. by rewrite Hshape.
  - intros m. by apply marker_color_make_marker.
Qed.

Lemma symbol_lookup_defaults_witness :
  owner_col default_args ∈ columns sample_frame
  ∧ make_owner_color_map tableau []
      (map (cell (owner_col default_args)) (rows sample_frame)) sample_world
    = Returns [(VStr "TUD", "#1f77b4")] sample_world
  ∧ make_instr_icon_map
      (map (cell (instr_col default_args)) (rows sample_frame))
    = Ok [(VStr "CR123", "circle"); (VStr "TR", "triangle")]
  ∧ (∀ d k dflt, dict_find d k = None → dict_get d k dflt = dflt)
  ∧ ∀ r, r ∈ rows sample_frame →
      let owner := cell "owner" r in
      let instr := cell "instrClass" r in
      (if isna owner
       then dict_find [(VStr "TUD", "#1f77b4")] owner = None
            ∧ dict_get [(VStr "TUD", "#1f77b4")] owner "gray" = "gray"
       else ∃ color, dict_find [(VStr "TUD", "#1f77b4")] owner = Some color
                     ∧ dict_get [(VStr "TUD", "#1f77b4")] owner "gray"
                       = color)
      ∧ (if isna instr
         then dict_find [(VStr "CR123", "circle"); (VStr "TR", "triangle")]
                instr = None
              ∧ dict_get [(VStr "CR123", "circle"); (VStr "TR", "triangle")]
                  instr "circle" = "circle"
         else ∃ shape,
             dict_find [(VStr "CR123", "circle"); (VStr "TR", "triangle")]
               instr = Some shape
             ∧ dict_get [(VStr "CR123", "circle"); (VStr "TR", "triangle")]
                 instr "circle" = shape)
      ∧ ∀ m, make_marker (λ _, true) sample_frame default_args
               [(VStr "TUD", "#1f77b4")]
               [(VStr "CR123", "circle"); (VStr "TR", "triangle")] r
             = Ok m →
             marker_color m = dict_get [(VStr "TUD", "#1f77b4")] owner "gray".
Proof.
  assert (owner_col default_args ∈ columns sample_frame) as Hc
    by (simpl; unfold sample_columns; repeat constructor).
  split; [exact Hc|]. split; [reflexivity|]. split; [reflexivity|].
  exact (symbol_lookup_defaults tableau [] (λ _, true) sample_frame
           default_args sample_world [(VStr "TUD", "#1f77b4")] sample_world
           [(VStr "CR123", "circle"); (VStr "TR", "triangle")]
           Hc eq_refl eq_refl).
Defined.

(** C9 as stated fails: the default is reached.  The second row of the
    sample frame has no owner; the colour map built from the frame has no
    entry for it, and the renderer draws its marker in "gray". *)
Lemma default_color_reached_counterexample :
  ∃ m w' owner_color_map instr_icon_map r,
    plot_insar_points_interactive tableau [] (λ _, true) 0 default_args
      sample_world = Returns (Some m) w'
    ∧ html m = [Title "InSAR Target Locations";
                Legend owner_color_map instr_icon_map]
    ∧ rows sample_frame !! 1%nat = Some r
    ∧ cell "owner" r = VNaN
    ∧ dict_find owner_color_map (cell "owner" r) = None
    ∧ (marker_color <$> markers m !! 1%nat) = Some "gray".
Proof.
  eexists _, _, _, _, _. split; [vm_compute; reflexivity|].
  repeat split; reflexivity.
Qed.

(** ** What the filters report *)

Lemma filter_frame_selecting F T :
  selects_only F = true →
  filter_frame F T = {| columns := columns T; rows := kept_rows F T |}.
Proof.
  intros HF. unfold filter_frame. f_equal.
  rewrite (map_ext _ id) by (intros r; by apply out_row_selects_only).
  apply map_id.
Qed.

Ltac report_selecting F T H Hc :=
  run H Hc; rewrite take_mask_cells; exists [T];
  unfold report; rewrite (filter_frame_selecting F T eq_refl); reflexivity.

Section Reports.

Context (df : loc) (T : DataFrame) (h : list DataFrame)
  (o : list line) (fs : gmap string artifact).
Hypothesis Hdf : h !! df = Some T.

Let w : world := {| heap := h; stdout := o; files := fs |}.

Lemma filter_valid_report :
  "valid" ∈ columns T →
  returns_reporting w (filter_valid df w) Valid T (filter_frame Valid T).
Proof.
  intros Hc. unfold returns_reporting, filter_valid.
  report_selecting Valid T Hdf Hc.
Qed.

Lemma filter_country_report countries :
  "countryCode" ∈ columns T →
  returns_reporting w (filter_country df countries w) (Country countries) T
    (filter_frame (Country countries) T).
Proof.
  intros Hc. unfold returns_reporting, filter_country.
  report_selecting (Country countries) T Hdf Hc.
Qed.

Lemma filter_active_report :
  "insarEnd" ∈ columns T →
  returns_reporting w (filter_active df w) Active T (filter_frame Active T).
Proof.
  intros Hc. unfold returns_reporting, filter_active.
  report_selecting Active T Hdf Hc.
Qed.

Lemma filter_owner_report owners :
  "owner" ∈ columns T →
  returns_reporting w (filter_owner df owners w) (Owner owners) T
    (filter_frame (Owner owners) T).
Proof.
  intros Hc. unfold returns_reporting, filter_owner.
  report_selecting (Owner owners) T Hdf Hc.
Qed.

Lemma filter_siteId_report sites :
  "siteId" ∈ columns T →
  returns_reporting w (filter_siteId df sites w) (SiteId sites) T
    (filter_frame (SiteId sites) T).
Proof.
  intros Hc. unfold returns_reporting, filter_siteId.
  report_selecting (SiteId sites) T Hdf Hc.
Qed.

Lemma filter_satSys_report satSystems :
  "satSys" ∈ columns T →
  returns_reporting w (filter_satSys df satSystems w) (SatSys satSystems) T
    (filter_frame (SatSys satSystems) T).
Proof.
  intros Hc. unfold returns_reporting, filter_satSys. run Hdf Hc.
  rewrite astype_str_column, astype_str_rows.
  rewrite (apply_any_in satSystems (λ r, py_str (cell "satSys" r))). simpl.
  rewrite (map_map _ (str_contains_nocase "All")), zip_with_orb_map. simpl.
  run Hdf Hc. rewrite take_mask_map2.
  by eexists [_; _].
Qed.

Lemma filter_lookDir_report directions :
  "lookDir" ∈ columns T → rows T ≠ [] →
  returns_reporting w (filter_lookDir df directions w) (LookDir directions) T
    (filter_frame (LookDir directions) T).
Proof.
  intros Hc Hrows. unfold returns_reporting, filter_lookDir. run Hdf Hc.
  rewrite astype_str_column, astype_str_rows.
  rewrite (apply_any_in directions (λ r, py_str (cell "lookDir" r))). simpl.
  rewrite applied_map by done.
  run Hdf Hc. rewrite take_mask_map2.
  by eexists [_; _].
Qed.


Lemma filter_instrClass_strict_report types :
  "instrClass" ∈ columns T →
  returns_reporting w (filter_instrClass df types true w)
    (InstrClass types true) T (filter_frame (InstrClass types true) T).
Proof.
  intros Hc. unfold returns_reporting, filter_instrClass. run Hdf Hc.
  rewrite astype_str_column, astype_str_rows, map_map.
  run Hdf Hc. rewrite take_mask_map2.
  by eexists [_; _].
Qed.

Lemma filter_instrClass_raises_after_banner types :
  "instrClass" ∈ columns T → rows T = [] →
  raises_after_banner w (filter_instrClass df types false w)
    (InstrClass types false).
Proof.
  intros Hc Hrows. unfold raises_after_banner, filter_instrClass.
  run Hdf Hc. rewrite Hrows. simpl. run Hdf Hc.
  by eexists [_; _; _; _].
Qed.

Lemma filter_instrClass_nonstrict_report types :
  "instrClass" ∈ columns T → rows T ≠ [] →
  returns_reporting w (filter_instrClass df types false w)
    (InstrClass types false) T (filter_frame (InstrClass types false) T).
Proof.
  intros Hc Hrows. unfold returns_reporting, filter_instrClass. run Hdf Hc.
  rewrite astype_str_column, astype_str_rows.
  rewrite (apply_any_in types (λ r, py_str (cell "instrClass" r))). simpl.
  rewrite applied_map by done.
  run Hdf Hc. rewrite take_mask_map2.
  rewrite (map_cell_set_cell "instrClass"
             (λ r, VStr (py_str (cell "instrClass" r)))).
  rewrite (apply_normalize types (λ r, py_str (cell "instrClass" r))).
  simpl. run Hdf Hc. rewrite zip_with_set_cell.
  rewrite (map_ext
    (λ r, set_cell "instrClass"
            (VStr (first_in types (py_str (cell "instrClass" r))))
            (set_cell "instrClass"
               (VStr (py_str (cell "instrClass" r))) r))
    (λ r, set_cell "instrClass"
            (VStr (first_in types (py_str (cell "instrClass" r)))) r))
    by (intros; apply set_cell_set_cell).
  by eexists [_; _; _].
Qed.

End Reports.

(** A run of a filter on a frame that has its column, with what it
    prints. *)
Lemma run_filter_reporting F df T w :
  heap w !! df = Some T → filter_column F ∈ columns T →
  applies F = false ∨ rows T ≠ [] →
  returns_reporting w (run_filter F df w) F T (filter_frame F T).
Proof.
  destruct w as [h o fs]. simpl. intros Hdf Hc Hrows.
  destruct F as [| | | |? []| | |]; simpl in *.
  - by apply filter_valid_report.
  - by apply filter_country_report.
  - by apply filter_active_report.
  - by apply filter_satSys_report.
  - by apply filter_instrClass_strict_report.
  - destruct Hrows as [|Hrows]; [done|].
    by apply filter_instrClass_nonstrict_report.
  - by apply filter_owner_report.
  - by apply filter_siteId_report.
  - destruct Hrows as [|Hrows]; [done|]. by apply filter_lookDir_report.
Qed.


Lemma run_instrClass_raises_after_banner types df T w :
  heap w !! df = Some T → "instrClass" ∈ columns T → rows T = [] →
  raises_after_banner w (run_filter (InstrClass types false) df w)
    (InstrClass types false).
Proof.
  destruct w as [h o fs]. simpl. intros Hdf Hc Hrows.
  by apply (filter_instrClass_raises_after_banner _ T).
Qed.



(** ** Filters after filters *)

Lemma filter_map_comm {A B} (p : B → bool) (f : A → B) l :
  List.filter p (map f l) = map f (List.filter (λ x, p (f x)) l).
Proof.
  induction l as [|x l IH]; simpl; [done|].
  destruct (p (f x)); simpl; by rewrite IH.
Qed.

Lemma filter_filter_comm {A} (p q : A → bool) l :
  List.filter p (List.filter q l) = List.filter q (List.filter p l).
Proof.
  induction l as [|x l IH]; simpl; [done|].
  destruct (p x) eqn:Ep, (q x) eqn:Eq; simpl; rewrite ?Ep, ?Eq, IH; done.
Qed.

Lemma filter_ext_in {A} (p q : A → bool) l :
  (∀ x, x ∈ l → p x = q x) → List.filter p l = List.filter q l.
Proof.
  induction l as [|x l IH]; intros H; simpl; [done|].
  rewrite (H x) by left. rewrite IH; [done|]. intros y Hy. apply H. by right.
Qed.

Lemma cell_out_row_ne F c r :
  c ≠ filter_column F → cell c (out_row F r) = cell c r.
Proof.
  intros Hc. unfold out_row. destruct (rewritten F _); [|done].
  unfold cell, set_cell. simpl. by rewrite lookup_insert_ne.
Qed.

Lemma set_cell_comm c c' v v' r :
  c ≠ c' → set_cell c v (set_cell c' v' r) = set_cell c' v' (set_cell c v r).
Proof.
  intros Hc. unfold set_cell. simpl. f_equal. by apply insert_insert_ne.
Qed.

(** What [F] makes of a row that [G] has been through, for two filters
    that do not interfere: filters of different columns, or two filters
    neither of which normalises. *)
Lemma keeps_after F G r :
  filter_column F ≠ filter_column G
  ∨ (normalizing F = false ∧ normalizing G = false) →
  keeps F (cell (filter_column F) (out_row G r))
  = keeps F (cell (filter_column F) r).
Proof.
  intros [Hne|[HF HG]]; [by rewrite cell_out_row_ne|].
  destruct (decide (filter_column F = filter_column G)) as [E|Hne];
    [|by rewrite cell_out_row_ne].
  rewrite E, cell_out_row, <- E. unfold own_cell.
  destruct F as [| | | |? []| | |], G as [| | | |? []| | |];
    try done; try discriminate E.
Qed.

Lemma out_row_comm F G r :
  filter_column F ≠ filter_column G
  ∨ (normalizing F = false ∧ normalizing G = false) →
  out_row F (out_row G r) = out_row G (out_row F r).
Proof.
  intros H.
  destruct (decide (filter_column F = filter_column G)) as [E|Hne].
  - destruct H as [?|[HF HG]]; [done|].
    destruct F as [| | | |? []| | |], G as [| | | |? []| | |];
      try done; try discriminate E;
      unfold out_row; simpl; by rewrite !cell_set_cell, !set_cell_set_cell.
  - assert (out_row F (out_row G r)
            = match rewritten F (cell (filter_column F) r) with
              | Some v => set_cell (filter_column F) v (out_row G r)
              | None => out_row G r
              end) as ->.
    { unfold out_row at 1. by rewrite cell_out_row_ne. }
    assert (out_row G (out_row F r)
            = match rewritten G (cell (filter_column G) r) with
              | Some v => set_cell (filter_column G) v (out_row F r)
              | None => out_row F r
              end) as ->.
    { unfold out_row at 1. by rewrite cell_out_row_ne. }
    unfold out_row.
    destruct (rewritten F _) as [v|], (rewritten G _) as [v'|]; try done.
    by apply set_cell_comm.
Qed.

Lemma rows_filter_frame_after F G T :
  filter_column F ≠ filter_column G
  ∨ (normalizing F = false ∧ normalizing G = false) →
  rows (filter_frame F (filter_frame G T))
  = map (λ r, out_row F (out_row G r))
      (List.filter (λ r, keeps F (cell (filter_column F) r))
         (kept_rows G T)).
Proof.
  intros H. unfold filter_frame at 1. simpl. unfold kept_rows at 1. simpl.
  rewrite filter_map_comm, map_map. f_equal.
  apply filter_ext_in. intros r _. by apply keeps_after.
Qed.

(** Two filters that do not interfere give the same frame in either
    order. *)
Lemma filter_frame_comm F G T :
  filter_column F ≠ filter_column G
  ∨ (normalizing F = false ∧ normalizing G = false) →
  filter_frame F (filter_frame G T) = filter_frame G (filter_frame F T).
Proof.
  intros H.
  assert (filter_column G ≠ filter_column F
          ∨ (normalizing G = false ∧ normalizing F = false)) as H'.
  { destruct H as [?|[? ?]]; [left; congruence | by right]. }
  pose proof (rows_filter_frame_after F G T H) as E1.
  pose proof (rows_filter_frame_after G F T H') as E2.
  destruct (filter_frame F (filter_frame G T)) as [c1 r1] eqn:D1,
    (filter_frame G (filter_frame F T)) as [c2 r2] eqn:D2.
  simpl in E1, E2. f_equal.
  - apply (f_equal columns) in D1, D2. simpl in D1, D2. congruence.
  - rewrite E1, E2. unfold kept_rows. rewrite filter_filter_comm.
    apply map_ext. intros r. by apply out_row_comm.
Qed.

(** One filter run on the frame that another returned. *)
Lemma run_filter_twice G F df T w :
  heap w !! df = Some T →
  filter_column G ∈ columns T → filter_column F ∈ columns T →
  applies G = false ∨ rows T ≠ [] →
  applies F = false ∨ kept_rows G T ≠ [] →
  ∃ l1 w1 l2 w2,
    run_filter G df w = Returns l1 w1
    ∧ run_filter F l1 w1 = Returns l2 w2
    ∧ heap w2 !! l2 = Some (filter_frame F (filter_frame G T))
    ∧ heap w2 !! df = Some T
    ∧ files w2 = files w.
Proof.
  intros Hdf HG HF HbG HbF.
  destruct (returns_frame_lookup _ _ _
              (run_filter_returns G df T w Hdf HG HbG))
    as (l1 & w1 & E1 & Hl1 & _ & Hold1 & Hf1).
  assert (filter_column F ∈ columns (filter_frame G T)) as HF' by done.
  assert (applies F = false ∨ rows (filter_frame G T) ≠ []) as HbF'.
  { destruct HbF as [|Hk]; [by left|]. right. simpl.
    by destruct (kept_rows G T). }
  destruct (returns_frame_lookup _ _ _
              (run_filter_returns F l1 _ w1 Hl1 HF' HbF'))
    as (l2 & w2 & E2 & Hl2 & _ & Hold2 & Hf2).
  exists l1, w1, l2, w2. split; [done|]. split; [done|]. split; [done|].
  split; [by apply Hold2, Hold1 | congruence].
Qed.

Lemma kept_rows_rows F T : kept_rows F T ≠ [] → rows T ≠ [].
Proof. unfold kept_rows. by destruct (rows T). Qed.

(** X2. Filters commute.  Take two filters of different columns, or any
    two filters neither of which is the non-strict instrument-class
    filter, on a frame that has their columns.  If each of them that
    builds its mask with [Series.apply] (the look-direction filter, the
    non-strict instrument-class filter) finds a row to work on in either
    order, that is if the other filter keeps a row, the two orders return
    equal frames.  For the other six filters there is no condition. *)
Theorem filters_commute F G df T w :
  filter_column F ≠ filter_column G
  ∨ (normalizing F = false ∧ normalizing G = false) →
  heap w !! df = Some T →
  filter_column F ∈ columns T → filter_column G ∈ columns T →
  (applies F = true → kept_rows G T ≠ []) →
  (applies G = true → kept_rows F T ≠ []) →
  ∃ l1 w1 l2 w2 l3 w3 l4 w4 R,
    run_filter G df w = Returns l1 w1
    ∧ run_filter F l1 w1 = Returns l2 w2
    ∧ run_filter F df w = Returns l3 w3
    ∧ run_filter G l3 w3 = Returns l4 w4
    ∧ heap w2 !! l2 = Some R
    ∧ heap w4 !! l4 = Some R.
Proof.
  intros H Hdf HF HG HaF HaG.
  assert (applies F = false ∨ kept_rows G T ≠ []) as HbF
    by (destruct (applies F); [right; by apply HaF | by left]).
  assert (applies G = false ∨ kept_rows F T ≠ []) as HbG
    by (destruct (applies G); [right; by apply HaG | by left]).
  assert (applies F = false ∨ rows T ≠ []) as HrF.
  { destruct HbF as [|Hk]; [by left|]. right. by eapply kept_rows_rows. }
  assert (applies G = false ∨ rows T ≠ []) as HrG.
  { destruct HbG as [|Hk]; [by left|]. right. by eapply kept_rows_rows. }
  destruct (applies F) eqn:EF, (applies G) eqn:EG.
  all: destruct (run_filter_twice G F df T w Hdf HG HF)
    as (l1 & w1 & l2 & w2 & E1 & E2 & Hl2 & _);
    [first [done | by right; eauto using kept_rows_rows | by left]..|].
  all: destruct (run_filter_twice F G df T w Hdf HF HG)
    as (l3 & w3 & l4 & w4 & E3 & E4 & Hl4 & _);
    [first [done | by right; eauto using kept_rows_rows | by left]..|].
  all: exists l1, w1, l2, w2, l3, w3, l4, w4,
         (filter_frame F (filter_frame G T));
    repeat (split; [done|]); by rewrite filter_frame_comm.
Qed.

Lemma filters_commute_witness :
  (filter_column (InstrClass ["CR"] false) ≠ filter_column (Country ["NLD"])
   ∨ (normalizing (InstrClass ["CR"] false) = false
      ∧ normalizing (Country ["NLD"]) = false))
  ∧ heap sample_world !! 0%nat = Some sample_frame
  ∧ "instrClass" ∈ sample_columns
  ∧ "countryCode" ∈ sample_columns
  ∧ (applies (InstrClass ["CR"] false) = true →
     kept_rows (Country ["NLD"]) sample_frame ≠ [])
  ∧ (applies (Country ["NLD"]) = true →
     kept_rows (InstrClass ["CR"] false) sample_frame ≠ [])
  ∧ ∃ l1 w1 l2 w2 l3 w3 l4 w4 R,
      run_filter (Country ["NLD"]) 0 sample_world = Returns l1 w1
      ∧ run_filter (InstrClass ["CR"] false) l1 w1 = Returns l2 w2
      ∧ run_filter (InstrClass ["CR"] false) 0 sample_world = Returns l3 w3
      ∧ run_filter (Country ["NLD"]) l3 w3 = Returns l4 w4
      ∧ heap w2 !! l2 = Some R
      ∧ heap w4 !! l4 = Some R.
Proof.
  assert ("instrClass" ∈ sample_columns) as Hi
    by (unfold sample_columns; repeat constructor).
  assert ("countryCode" ∈ sample_columns) as Hc
    by (unfold sample_columns; repeat constructor).
  assert (filter_column (InstrClass ["CR"] false)
          ≠ filter_column (Country ["NLD"])
          ∨ (normalizing (InstrClass ["CR"] false) = false
             ∧ normalizing (Country ["NLD"]) = false)) as H
    by (left; discriminate).
  assert (applies (InstrClass ["CR"] false) = true →
          kept_rows (Country ["NLD"]) sample_frame ≠ []) as Ha
    by (intros _; discriminate).
  assert (applies (Country ["NLD"]) = true →
          kept_rows (InstrClass ["CR"] false) sample_frame ≠ []) as Hb
    by (intros _; discriminate).
  split; [exact H|]. split; [reflexivity|]. split; [exact Hi|].
  split; [exact Hc|]. split; [exact Ha|]. split; [exact Hb|].
  exact (filters_commute (InstrClass ["CR"] false) (Country ["NLD"]) 0
           sample_frame sample_world H eq_refl Hi Hc Ha Hb).
Defined.

(** ** Filters applied again *)

Lemma append_assoc a b c : (a +:+ b) +:+ c = a +:+ (b +:+ c).
Proof.
  induction a as [|x a IH]; [done|]. by rewrite !append_cons, IH.
Qed.

Lemma occurs_in_trans u t s : occurs_in u t → occurs_in t s → occurs_in u s.
Proof.
  intros (a & b & ->) (c & d & ->). exists (c +:+ a), (b +:+ d).
  by rewrite !append_assoc.
Qed.

Lemma find_first {A} (p : A → bool) l1 x l2 :
  p x = true → (∀ y, y ∈ l1 → p y = false) →
  List.find p (l1 ++ x :: l2) = Some x.
Proof.
  intros Hx. induction l1 as [|y l1 IH]; intros Hl1; simpl.
  - by rewrite Hx.
  - rewrite (Hl1 y) by left. apply IH. intros z Hz. apply Hl1. by right.
Qed.

(** The normalised type is a member of the set, and it normalises to
    itself. *)
Lemma first_in_member ts s : any_str ts s = true → first_in ts s ∈ ts.
Proof. intros H. eapply first_occurring_member, first_in_spec, H. Qed.

Lemma any_str_member ts t : t ∈ ts → any_str ts t = true.
Proof.
  intros Ht. apply any_str_spec. exists t. split; [done|].
  apply str_in_occurs, str_in_refl.
Qed.

Lemma first_in_idem ts s :
  any_str ts s = true → first_in ts (first_in ts s) = first_in ts s.
Proof.
  intros H. pose proof (first_in_spec ts s H) as Hs.
  remember (first_in ts s) as t eqn:Et. clear Et.
  destruct Hs as (ts1 & ts2 & -> & Ho & Hn).
  unfold first_in. rewrite find_first; [done | apply str_in_refl |].
  intros u Hu. apply not_true_is_false. intros Hut%str_in_occurs.
  apply (Hn u Hu). by eapply occurs_in_trans.
Qed.

(** A row that a filter returned passes the filter again, unchanged. *)
Lemma keeps_out_row F r :
  keeps F (cell (filter_column F) r) = true →
  keeps F (cell (filter_column F) (out_row F r)) = true.
Proof.
  rewrite cell_out_row. unfold own_cell.
  destruct F as [| | | |ts []| | |]; simpl; try done.
  intros H. apply any_str_member. by apply first_in_member.
Qed.

Lemma out_row_idem F r :
  keeps F (cell (filter_column F) r) = true →
  out_row F (out_row F r) = out_row F r.
Proof.
  intros H. unfold out_row at 1. rewrite cell_out_row. unfold own_cell, out_row.
  destruct F as [| | | |ts []| | |]; simpl in *; try done;
    rewrite ?first_in_idem by done; apply set_cell_set_cell.
Qed.

Lemma filter_all_true {A} (p : A → bool) l :
  Forall (λ x, p x = true) l → List.filter p l = l.
Proof.
  induction 1 as [|x l Hx _ IH]; simpl; [done|]. by rewrite Hx, IH.
Qed.

Lemma filter_frame_idem_all F T :
  filter_frame F (filter_frame F T) = filter_frame F T.
Proof.
  unfold filter_frame at 1 3. f_equal. unfold kept_rows at 1. simpl.
  rewrite filter_all_true.
  - rewrite map_map. apply map_ext_in. intros r Hr%filter_In.
    apply out_row_idem, Hr.
  - apply Forall_fmap, Forall_forall. intros r Hr. simpl.
    apply keeps_out_row.
    by apply list_elem_of_In, filter_In in Hr as [_ Hr].
Qed.

(** X3. Every filter is idempotent, also those that convert or normalise
    their column (satellite system, look direction, instrument class in
    both modes): run on the frame a first run returned, a filter returns
    an equal frame.  For the two filters that build their mask with
    [Series.apply] (look direction, non-strict instrument class) this
    holds when the first run keeps a row. *)
Theorem all_filters_idempotent F df T w :
  heap w !! df = Some T →
  filter_column F ∈ columns T →
  (applies F = true → kept_rows F T ≠ []) →
  ∃ l1 w1 l2 w2 T1,
    run_filter F df w = Returns l1 w1
    ∧ heap w1 !! l1 = Some T1
    ∧ run_filter F l1 w1 = Returns l2 w2
    ∧ heap w2 !! l2 = Some T1.
Proof.
  intros Hdf Hc Ha.
  assert (applies F = false ∨ kept_rows F T ≠ []) as Hb
    by (destruct (applies F); [right; by apply Ha | by left]).
  assert (applies F = false ∨ rows T ≠ []) as Hr.
  { destruct Hb as [|Hk]; [by left|]. right. by eapply kept_rows_rows. }
  destruct (returns_frame_lookup _ _ _
              (run_filter_returns F df T w Hdf Hc Hr))
    as (l1 & w1 & E1 & Hl1 & _).
  assert (filter_column F ∈ columns (filter_frame F T)) as Hc1 by done.
  assert (applies F = false ∨ rows (filter_frame F T) ≠ []) as Hr1.
  { destruct Hb as [|Hk]; [by left|]. right. simpl.
    by destruct (kept_rows F T). }
  destruct (returns_frame_lookup _ _ _
              (run_filter_returns F l1 _ w1 Hl1 Hc1 Hr1))
    as (l2 & w2 & E2 & Hl2 & _).
  exists l1, w1, l2, w2, (filter_frame F T).
  by rewrite filter_frame_idem_all in Hl2.
Qed.

Lemma all_filters_idempotent_witness :
  heap sample_world !! 0%nat = Some sample_frame
  ∧ "instrClass" ∈ sample_columns
  ∧ (applies (InstrClass ["CR"; "TR"] false) = true →
     kept_rows (InstrClass ["CR"; "TR"] false) sample_frame ≠ [])
  ∧ ∃ l1 w1 l2 w2 T1,
      run_filter (InstrClass ["CR"; "TR"] false) 0 sample_world
      = Returns l1 w1
      ∧ heap w1 !! l1 = Some T1
      ∧ run_filter (InstrClass ["CR"; "TR"] false) l1 w1 = Returns l2 w2
      ∧ heap w2 !! l2 = Some T1.
Proof.
  assert ("instrClass" ∈ sample_columns) as Hc
    by (unfold sample_columns; repeat constructor).
  assert (applies (InstrClass ["CR"; "TR"] false) = true →
          kept_rows (InstrClass ["CR"; "TR"] false) sample_frame ≠ []) as Ha
    by (intros _; discriminate).
  split; [reflexivity|]. split; [exact Hc|]. split; [exact Ha|].
  exact (all_filters_idempotent (InstrClass ["CR"; "TR"] false) 0
           sample_frame sample_world eq_refl Hc Ha).
Defined.

(** The strict filter keeps every row the non-strict one returned. *)
Lemma strict_after_nonstrict_frame types T :
  filter_frame (InstrClass types true) (filter_frame (InstrClass types false) T)
  = filter_frame (InstrClass types false) T.
Proof.
  unfold filter_frame at 1 3. f_equal. unfold kept_rows at 1. simpl.
  rewrite filter_all_true.
  - rewrite map_map. apply map_ext. intros r. unfold out_row. simpl.
    by rewrite cell_set_cell, set_cell_set_cell.
  - apply Forall_fmap, Forall_forall. intros r Hr. simpl.
    unfold out_row. simpl. rewrite cell_set_cell. simpl.
    apply isin_str, first_in_member.
    by apply list_elem_of_In, filter_In in Hr as [_ Hr].
Qed.

(** X4. After the non-strict instrument-class filter the strict one, with
    the same set, changes nothing: on a frame with rows the non-strict
    filter returns, and the strict filter run on its result returns a
    frame equal to the one it is given. *)
Theorem strict_after_nonstrict types df T w :
  heap w !! df = Some T →
  "instrClass" ∈ columns T →
  rows T ≠ [] →
  ∃ l1 w1 l2 w2 T1,
    filter_instrClass df types false w = Returns l1 w1
    ∧ heap w1 !! l1 = Some T1
    ∧ filter_instrClass l1 types true w1 = Returns l2 w2
    ∧ heap w2 !! l2 = Some T1.
Proof.
  intros Hdf Hc Hrows.
  destruct (run_filter_twice (InstrClass types false) (InstrClass types true)
              df T w Hdf Hc Hc (or_intror Hrows) (or_introl eq_refl))
    as (l1 & w1 & l2 & w2 & E1 & E2 & Hl2 & _).
  destruct (returns_frame_lookup _ _ _
              (run_filter_returns (InstrClass types false) df T w Hdf Hc
                 (or_intror Hrows)))
    as (l1' & w1' & E1' & Hl1 & _).
  simpl in E1, E1'. rewrite E1 in E1'. injection E1' as <- <-.
  exists l1, w1, l2, w2, (filter_frame (InstrClass types false) T).
  split; [done|]. split; [done|]. split; [done|].
  by rewrite strict_after_nonstrict_frame in Hl2.
Qed.

Lemma strict_after_nonstrict_witness :
  heap sample_world !! 0%nat = Some sample_frame
  ∧ "instrClass" ∈ sample_columns
  ∧ rows sample_frame ≠ []
  ∧ ∃ l1 w1 l2 w2 T1,
      filter_instrClass 0 ["CR"] false sample_world = Returns l1 w1
      ∧ heap w1 !! l1 = Some T1
      ∧ filter_instrClass l1 ["CR"] true w1 = Returns l2 w2
      ∧ heap w2 !! l2 = Some T1.
Proof.
  assert ("instrClass" ∈ sample_columns) as Hc
    by (unfold sample_columns; repeat constructor).
  assert (rows sample_frame ≠ []) as Hr by discriminate.
  split; [reflexivity|]. split; [exact Hc|]. split; [exact Hr|].
  exact (strict_after_nonstrict ["CR"] 0 sample_frame sample_world
           eq_refl Hc Hr).
Defined.

(** ** Degenerate requests *)

Lemma keeps_empty_request F v : empty_request F = true → keeps F v = false.
Proof. by destruct F as [|[]| | |[] []|[]|[]|[]]. Qed.

Lemma filter_all_false {A} (p : A → bool) l :
  (∀ x, p x = false) → List.filter p l = [].
Proof.
  intros H. induction l as [|x l IH]; simpl; [done|]. by rewrite H.
Qed.

(** X5. A filter by membership or substring that is given an empty set
    returns a frame with the columns of its input and no rows (so the
    callers' test [if args.x:] is what keeps an absent argument from
    emptying the table).  For the two filters that build their mask with
    [Series.apply] (look direction, non-strict instrument class) the
    input must have a row. *)
Theorem empty_request_empties F df T w :
  empty_request F = true →
  heap w !! df = Some T →
  filter_column F ∈ columns T →
  applies F = false ∨ rows T ≠ [] →
  ∃ l' w' T',
    run_filter F df w = Returns l' w'
    ∧ heap w' !! l' = Some T'
    ∧ columns T' = columns T
    ∧ rows T' = [].
Proof.
  intros HF Hdf Hc Hb.
  destruct (returns_frame_lookup _ _ _
              (run_filter_returns F df T w Hdf Hc Hb))
    as (l' & w' & E & Hl & _).
  exists l', w', (filter_frame F T). split; [done|]. split; [done|].
  split; [done|]. simpl. unfold kept_rows.
  rewrite filter_all_false; [done|]. intros r. by apply keeps_empty_request.
Qed.

Lemma empty_request_empties_witness :
  empty_request (Owner []) = true
  ∧ heap sample_world !! 0%nat = Some sample_frame
  ∧ "owner" ∈ sample_columns
  ∧ (applies (Owner []) = false ∨ rows sample_frame ≠ [])
  ∧ ∃ l' w' T',
      run_filter (Owner []) 0 sample_world = Returns l' w'
      ∧ heap w' !! l' = Some T'
      ∧ columns T' = columns sample_frame
      ∧ rows T' = [].
Proof.
  assert ("owner" ∈ sample_columns) as Hc
    by (unfold sample_columns; repeat constructor).
  assert (applies (Owner []) = false ∨ rows sample_frame ≠ []) as Hb
    by (left; reflexivity).
  split; [reflexivity|]. split; [reflexivity|]. split; [exact Hc|].
  split; [exact Hb|].
  exact (empty_request_empties (Owner []) 0 sample_frame sample_world
           eq_refl eq_refl Hc Hb).
Defined.

Lemma str_in_empty s : str_in EmptyString s = true.
Proof. by destruct s. Qed.

Lemma keeps_empty_text F v : requests_empty_text F → keeps F v = true.
Proof.
  destruct F as [| | |l|l []| | |l]; simpl; try done; intros H.
  - apply orb_true_iff. right. apply any_str_spec. exists EmptyString.
    split; [done|]. apply str_in_occurs, str_in_empty.
  - apply any_str_spec. exists EmptyString.
    split; [done|]. apply str_in_occurs, str_in_empty.
  - apply any_str_spec. exists EmptyString.
    split; [done|]. apply str_in_occurs, str_in_empty.
Qed.

(** X6. The empty string occurs in every text: a substring filter
    (satellite system, look direction, non-strict instrument class) whose
    set holds the empty string keeps every row of its input, each
    unchanged outside the filter's column; but the non-strict
    instrument-class filter must be given a frame with rows. *)
Theorem empty_text_keeps_all F df T w :
  requests_empty_text F →
  heap w !! df = Some T →
  filter_column F ∈ columns T →
  ¬ raises_on_empty F T →
  ∃ l' w' T',
    run_filter F df w = Returns l' w'
    ∧ heap w' !! l' = Some T'
    ∧ len T' = len T
    ∧ Forall2 (from_row (filter_column F)) (rows T) (rows T').
Proof.
  intros HF Hdf Hc Hne.
  destruct (run_filter_cases F df T w Hdf)
    as [(_ & _ & H)|[(_ & Hrows & _ & H)|[(_ & He & _)|[Hn _]]]];
    [| |done|done].
  - apply returns_frame_lookup in H as (l' & w' & E & Hl & _).
    exists l', w', (filter_frame F T). split; [done|]. split; [done|].
    assert (kept_rows F T = rows T) as Hall.
    { apply filter_all_true, Forall_forall. intros r _.
      by apply keeps_empty_text. }
    unfold len, filter_frame. simpl. rewrite Hall. split.
    + by rewrite length_map.
    + apply Forall2_fmap_r, Forall_Forall2_diag, Forall_forall.
      intros r _. apply from_row_out_row.
  - apply returns_frame_lookup in H as (l' & w' & E & Hl & _).
    exists l', w', no_columns. split; [done|]. split; [done|].
    unfold len. rewrite Hrows. simpl. split; [done | constructor].
Qed.

Lemma empty_text_keeps_all_witness :
  requests_empty_text (LookDir ["W"; EmptyString])
  ∧ heap sample_world !! 0%nat = Some sample_frame
  ∧ "lookDir" ∈ sample_columns
  ∧ ¬ raises_on_empty (LookDir ["W"; EmptyString]) sample_frame
  ∧ ∃ l' w' T',
      run_filter (LookDir ["W"; EmptyString]) 0 sample_world = Returns l' w'
      ∧ heap w' !! l' = Some T'
      ∧ len T' = len sample_frame
      ∧ Forall2 (from_row "lookDir") (rows sample_frame) (rows T').
Proof.
  assert ("lookDir" ∈ sample_columns) as Hc
    by (unfold sample_columns; repeat constructor).
  assert (requests_empty_text (LookDir ["W"; EmptyString])) as HF
    by (simpl; repeat constructor).
  assert (¬ raises_on_empty (LookDir ["W"; EmptyString]) sample_frame) as Hne
    by (intros [_ H]; discriminate H).
  split; [exact HF|]. split; [reflexivity|]. split; [exact Hc|].
  split; [exact Hne|].
  exact (empty_text_keeps_all (LookDir ["W"; EmptyString]) 0 sample_frame
           sample_world HF eq_refl Hc Hne).
Defined.

(** ** Running the renderer *)

Section RenderRun.

Context (TABLEAU_COLORS CSS4_COLORS : list string)
  (float_literal : string → bool).

Lemma getcol_ok T c :
  c ∈ columns T → getcol T c = Ok (map (cell c) (rows T)).
Proof. intros H. unfold getcol. by rewrite bool_decide_eq_true_2. Qed.

Lemma getcol_err T c : c ∉ columns T → getcol T c = Err (KeyError c).
Proof. intros H. unfold getcol. by rewrite bool_decide_eq_false_2. Qed.

Lemma plot_run df a T w :
  heap w !! df = Some T →
  plot_insar_points_interactive TABLEAU_COLORS CSS4_COLORS float_literal
    df a w
  = match render TABLEAU_COLORS CSS4_COLORS float_literal T a with
    | Refused msg =>
        Returns None {| heap := heap w; stdout := stdout w ++ [Msg msg];
                        files := files w |}
    | Failed e =>
        Raises e
          {| heap := heap w;
             stdout := stdout w ++
               [Msg "--> Creating interactive map for {len(df)} InSAR points..."];
             files := files w |}
    | Looping => Diverges
    | Drawn m geometry => export a T m geometry w
    end.
Proof.
  destruct w as [h o fs]. simpl. intros Hdf.
  unfold plot_insar_points_interactive, render, make_owner_color_map, palette.
  unfold df_copy, df_getitem, lift, bind, print, deref, new_frame, ret, raise,
    write_file. simpl. rewrite Hdf.
  destruct (empty T); [done|].
  destruct (negb _ || negb _) eqn:Hg; [done|].
  apply orb_false_elim in Hg as [Hlat Hlon].
  apply negb_false_iff, bool_decide_eq_true in Hlat, Hlon.
  simpl. rewrite Hdf.
  destruct (getcol T (owner_col a)) as [owner|e]; [|done]. simpl.
  destruct (sorted _) as [owners|e]; [|done]. simpl.
  destruct (extend_colors _ _ _ _) as [colors|]; [|done]. simpl.
  destruct (dict_comp _ _ _ _) as [owner_color_map|e]; [|done]. simpl.
  rewrite Hdf.
  destruct (getcol T (instr_col a)) as [instr|e]; [|done]. simpl.
  destruct (make_instr_icon_map instr) as [instr_icon_map|e]; [|done]. simpl.
  rewrite Hdf. simpl. rewrite (getcol_ok _ _ Hlat). simpl.
  destruct (apply _ (map (cell (lat_col a)) _)) as [lats|e] eqn:Elat;
    [|done]. simpl.
  rewrite Hdf. simpl. rewrite (getcol_ok _ _ Hlon). simpl.
  destruct (apply _ (map (cell (lon_col a)) _)) as [lons|e] eqn:Elon;
    [|done]. simpl.
  destruct (apply (make_marker _ _ _ _ _) _) as [ms|e]; [|done]. simpl.
  rewrite Hdf. simpl. rewrite !(lookup_app_l_Some _ _ _ _ Hdf). simpl.
  rewrite (getcol_ok _ _ Hlon). simpl. rewrite Elon. simpl.
  rewrite !(lookup_app_l_Some _ _ _ _ Hdf). simpl.
  rewrite (getcol_ok _ _ Hlat). simpl. rewrite Elat. simpl.
  rewrite list_lookup_middle by done. simpl.
  unfold export, unwritable, written, drawn_lines, html_path. simpl.
  destruct (fs !! save_geojson_path a) as [[| |]|]; simpl; try done.
  all: destruct (save_html_path a) as [path|]; simpl;
    [|by rewrite <- ?app_assoc].
  all: destruct (String.eqb path EmptyString); simpl;
    [by rewrite <- ?app_assoc|].
  all: destruct (<[save_geojson_path a:=_]> fs !! path) as [[| |]|]; simpl;
    by rewrite <- ?app_assoc.
Qed.


Lemma apply_length {A B} (f : A → res B) l l' :
  apply f l = Ok l' → length l' = length l.
Proof.
  revert l'. induction l as [|x l IH]; intros l'; simpl.
  { by intros [= <-]. }
  destruct (f x) as [y|e]; simpl; [|done].
  destruct (apply f l) as [ys|e]; simpl; [|done].
  intros [= <-]. simpl. f_equal. by apply IH.
Qed.

Lemma apply_err {A B} (f : A → res B) l e :
  apply f l = Err e → ∃ x, x ∈ l ∧ f x = Err e.
Proof.
  induction l as [|x l IH]; simpl; [done|].
  destruct (f x) as [y|e'] eqn:Ex; simpl.
  - destruct (apply f l) as [ys|e']; simpl; [done|].
    intros [= ->]. destruct IH as (x' & Hx' & E); [done|].
    exists x'. split; [by right | done].
  - intros [= ->]. exists x. split; [by left | done].
Qed.

(** [float()] is kept symbolic: where it succeeds, the model keeps the
    cell. *)
Lemma py_float_ok v v' : py_float float_literal v = Ok v' → v' = v.
Proof.
  destruct v as [s| | |]; simpl; try by intros [= <-].
  destruct (float_literal s); [by intros [= <-] | done].
Qed.

Lemma py_float_err v e : py_float float_literal v = Err e → e = ValueError.
Proof.
  destruct v as [s| | |]; simpl; try done.
  destruct (float_literal s); [done | by intros [= <-]].
Qed.

Lemma apply_py_float l l' : apply (py_float float_literal) l = Ok l' → l' = l.
Proof.
  revert l'. induction l as [|x l IH]; intros l'; simpl.
  { by intros [= <-]. }
  destruct (py_float _ x) as [y|e] eqn:Ex; simpl; [|done].
  destruct (apply _ l) as [ys|e]; simpl; [|done].
  intros [= <-]. f_equal; [by apply py_float_ok | by apply IH].
Qed.

Lemma make_marker_err T a dO dI r e :
  make_marker float_literal T a dO dI r = Err e → e = ValueError.
Proof.
  unfold make_marker, validate_location.
  destruct (py_float _ (cell (lat_col a) r)) as [lat|e1] eqn:E1; simpl.
  - destruct (py_float _ (cell (lon_col a) r)) as [lon|e2] eqn:E2; simpl.
    + destruct (float_isnan lat || float_isnan lon); simpl; [|done].
      by intros [= <-].
    + intros [= <-]. by eapply py_float_err.
  - intros [= <-]. by eapply py_float_err.
Qed.

(** A row with a coordinate that is NaN gets no marker. *)
Lemma make_marker_nan T a dO dI r :
  float_isnan (cell (lat_col a) r) || float_isnan (cell (lon_col a) r) = true →
  make_marker float_literal T a dO dI r = Err ValueError.
Proof.
  intros Hnan. unfold make_marker, validate_location.
  destruct (py_float _ (cell (lat_col a) r)) as [lat|e1] eqn:E1; simpl.
  - apply py_float_ok in E1 as ->.
    destruct (py_float _ (cell (lon_col a) r)) as [lon|e2] eqn:E2; simpl.
    + apply py_float_ok in E2 as ->. by rewrite Hnan.
    + by apply py_float_err in E2 as ->.
  - by apply py_float_err in E1 as ->.
Qed.

End RenderRun.

(** ** What the renderer writes *)

Lemma zip_map_rows {A} (f g : A → pyval) l :
  zip (map f l) (map g l) = map (λ x, (f x, g x)) l.
Proof. induction l as [|x l IH]; simpl; [done | by rewrite IH]. Qed.

Lemma render_drawn TABLEAU_COLORS CSS4_COLORS float_literal T a m geometry :
  render TABLEAU_COLORS CSS4_COLORS float_literal T a = Drawn m geometry →
  length (markers m) = len T
  ∧ geometry = map (λ r, (cell (lon_col a) r, cell (lat_col a) r)) (rows T)
  ∧ zoom m = zoom_start a ∧ tiles m = background a
  ∧ ∃ owner_color_map instr_icon_map,
      html m = [Title (map_title a); Legend owner_color_map instr_icon_map].
Proof.
  unfold render.
  destruct (empty T); [done|]. destruct (negb _ || negb _); [done|].
  destruct (getcol T (owner_col a)) as [owner|e]; [|done].
  destruct (sorted _) as [owners|e]; [|done].
  destruct (extend_colors _ _ _ _) as [colors|]; [|done].
  destruct (dict_comp _ _ _ _) as [owner_color_map|e]; [|done].
  destruct (getcol T (instr_col a)) as [instr|e]; [|done].
  destruct (make_instr_icon_map instr) as [instr_icon_map|e]; [|done].
  destruct (apply _ (map (cell (lat_col a)) _)) as [lats|e] eqn:Elat; [|done].
  destruct (apply _ (map (cell (lon_col a)) _)) as [lons|e] eqn:Elon; [|done].
  destruct (apply (make_marker _ _ _ _ _) _) as [ms|e] eqn:Ems; [|done].
  intros [= <- <-]. simpl.
  apply apply_py_float in Elat as ->, Elon as ->.
  split; [by eapply apply_length|]. split; [apply zip_map_rows|].
  split; [done|]. split; [done|]. by eexists _, _.
Qed.

(** X7. When the renderer returns a map: the map has one marker per row
    of the frame; the GeoJSON file holds the frame with one point per row,
    longitude first; the HTML file holds the map and is written only for a
    path that is given and not empty, after the GeoJSON file (so it
    replaces it when the two paths are the same); no other file changes;
    and the store gains one frame, the copy that is exported, with every
    frame it had unchanged. *)
Theorem renderer_writes TABLEAU_COLORS CSS4_COLORS float_literal
    df a T w m w' :
  heap w !! df = Some T →
  plot_insar_points_interactive TABLEAU_COLORS CSS4_COLORS float_literal
    df a w = Returns (Some m) w' →
  let geometry := map (λ r, (cell (lon_col a) r, cell (lat_col a) r)) (rows T) in
  let geojson := GeoJSON T geometry in
  length (markers m) = len T
  ∧ heap w' = heap w ++ [T]
  ∧ files w'
    = match save_html_path a with
      | Some path =>
          if String.eqb path EmptyString
          then <[save_geojson_path a := geojson]> (files w)
          else <[path := HTML m]>
                 (<[save_geojson_path a := geojson]> (files w))
      | None => <[save_geojson_path a := geojson]> (files w)
      end
  ∧ (save_html_path a ≠ Some (save_geojson_path a) →
     files w' !! save_geojson_path a = Some geojson)
  ∧ (∀ path, path ≠ save_geojson_path a → save_html_path a ≠ Some path →
             files w' !! path = files w !! path).
Proof.
  intros Hdf Hrun geometry geojson.
  rewrite (plot_run _ _ _ _ _ _ _ Hdf) in Hrun.
  destruct (render _ _ _ T a) as [msg|e| |m' g] eqn:Er; try done.
  apply render_drawn in Er as (Hlen & -> & _).
  fold geometry in Hrun. fold geojson in Hrun.
  assert (m' = m
          ∧ w' = {| heap := heap w ++ [T]; stdout := stdout w ++ drawn_lines a;
                    files := written a T m' geometry (files w) |})
    as [-> ->].
  { unfold export in Hrun.
    destruct (unwritable (files w) (save_geojson_path a)); [done|].
    destruct (html_path a) as [p|]; [|by injection Hrun as <- <-].
    destruct (unwritable _ p); [done|]. by injection Hrun as <- <-. }
  simpl. split; [done|]. split; [done|].
  unfold written, html_path. fold geojson.
  destruct (save_html_path a) as [path|]; [destruct (String.eqb_spec path EmptyString)|].
  - split; [done|]. split.
    + intros _. apply lookup_insert_eq.
    + intros p Hp _. by apply lookup_insert_ne.
  - split; [done|]. split.
    + intros Hne. rewrite lookup_insert_ne by congruence.
      apply lookup_insert_eq.
    + intros p Hp Hne. rewrite lookup_insert_ne by congruence.
      by apply lookup_insert_ne.
  - split; [done|]. split.
    + intros _. apply lookup_insert_eq.
    + intros p Hp _. by apply lookup_insert_ne.
Qed.

Lemma renderer_writes_witness :
  heap sample_world !! 0%nat = Some sample_frame
  ∧ ∃ m w',
      plot_insar_points_interactive tableau [] (λ _, true) 0 cli_plot_args
        sample_world = Returns (Some m) w'
      ∧ length (markers m) = len sample_frame
      ∧ heap w' = heap sample_world ++ [sample_frame]
      ∧ files w'
        = <["insar_map.html" := HTML m]>
            (<["insar_points.geojson" :=
                 GeoJSON sample_frame
                   (map (λ r, (cell "longitude" r, cell "latitude" r))
                      (rows sample_frame))]> (files sample_world))
      ∧ (Some "insar_map.html" ≠ Some "insar_points.geojson" →
         files w' !! "insar_points.geojson"
         = Some (GeoJSON sample_frame
                   (map (λ r, (cell "longitude" r, cell "latitude" r))
                      (rows sample_frame))))
      ∧ (∀ path, path ≠ "insar_points.geojson" →
                 Some "insar_map.html" ≠ Some path →
                 files w' !! path = files sample_world !! path).
Proof.
  split; [reflexivity|]. eexists _, _. split; [vm_compute; reflexivity|].
  apply (renderer_writes tableau [] (λ _, true) 0 cli_plot_args sample_frame
           sample_world); [reflexivity | vm_compute; reflexivity].
Defined.

(** ** How the renderer fails *)

Lemma dict_comp_total f i keys d :
  (∀ j, ∃ v, f j = Ok v) → ∃ d', dict_comp f i keys d = Ok d'.
Proof.
  intros Hf. revert i d. induction keys as [|k keys IH]; intros i d; simpl.
  { by eexists. }
  destruct (Hf i) as [v ->]. simpl. apply IH.
Qed.

Lemma icon_shape_total j :
  ∃ v, index icon_shapes (j mod length icon_shapes) = Ok v.
Proof.
  unfold index.
  destruct (lookup_lt_is_Some_2 icon_shapes (j mod length icon_shapes))
    as [v ->]; [|by eexists].
  apply Nat.mod_upper_bound. simpl. lia.
Qed.

(** X8. A failure to save the HTML map leaves the GeoJSON file behind.
    If a run of the renderer returns a map, and its HTML path is given,
    not empty and not the GeoJSON path, then the same call in a file
    system where that path cannot be written raises the write error of
    the path after the GeoJSON file is written and reported: the file is
    there, and the line of the HTML map is not printed. *)
Theorem html_failure_keeps_geojson TABLEAU_COLORS CSS4_COLORS
    float_literal df a T w m w' path :
  heap w !! df = Some T →
  plot_insar_points_interactive TABLEAU_COLORS CSS4_COLORS float_literal
    df a w = Returns (Some m) w' →
  save_html_path a = Some path →
  path ≠ EmptyString → path ≠ save_geojson_path a →
  let geometry := map (λ r, (cell (lon_col a) r, cell (lat_col a) r)) (rows T) in
  let geojson := GeoJSON T geometry in
  ∃ w'',
    plot_insar_points_interactive TABLEAU_COLORS CSS4_COLORS float_literal
      df a {| heap := heap w; stdout := stdout w;
              files := <[path := Unwritable]> (files w) |}
    = Raises (WriteError path) w''
    ∧ files w'' !! save_geojson_path a = Some geojson
    ∧ files w'' !! path = Some Unwritable
    ∧ stdout w''
      = stdout w
        ++ [Msg "--> Creating interactive map for {len(df)} InSAR points...";
            Msg "    ↳ GeoJSON saved: {save_geojson_path}"].
Proof.
  intros Hdf Hrun Hpath Hne Hdiff geometry geojson.
  rewrite (plot_run _ _ _ _ _ _ _ Hdf) in Hrun.
  rewrite (plot_run TABLEAU_COLORS CSS4_COLORS float_literal df a T) by done.
  destruct (render _ _ _ T a) as [msg|e| |m' g] eqn:Er; try done.
  apply render_drawn in Er as (_ & -> & _).
  fold geometry in Hrun |- *. fold geojson in Hrun |- *.
  unfold export, unwritable in *. simpl.
  rewrite lookup_insert_ne by done.
  destruct (files w !! save_geojson_path a) as [[| |]|] eqn:Eg; try done.
  all: assert (html_path a = Some path) as ->
    by (unfold html_path; rewrite Hpath;
        by destruct (String.eqb_spec path EmptyString)).
  all: rewrite lookup_insert_ne by congruence.
  all: rewrite lookup_insert_eq.
  all: eexists; split; [done|]; simpl.
  all: split; [apply lookup_insert_eq|].
  all: split; [|done].
  all: rewrite lookup_insert_ne by congruence; apply lookup_insert_eq.
Qed.

Lemma html_failure_keeps_geojson_witness :
  heap sample_world !! 0%nat = Some sample_frame
  ∧ save_html_path cli_plot_args = Some "insar_map.html"
  ∧ "insar_map.html" ≠ EmptyString
  ∧ "insar_map.html" ≠ save_geojson_path cli_plot_args
  ∧ ∃ m w' w'',
      plot_insar_points_interactive tableau [] (λ _, true) 0 cli_plot_args
        sample_world = Returns (Some m) w'
      ∧ plot_insar_points_interactive tableau [] (λ _, true) 0 cli_plot_args
          {| heap := heap sample_world; stdout := stdout sample_world;
             files := <["insar_map.html" := Unwritable]>
                        (files sample_world) |}
        = Raises (WriteError "insar_map.html") w''
      ∧ files w'' !! save_geojson_path cli_plot_args
        = Some (GeoJSON sample_frame
                  (map (λ r, (cell "longitude" r, cell "latitude" r))
                     (rows sample_frame)))
      ∧ files w'' !! "insar_map.html" = Some Unwritable
      ∧ stdout w''
        = stdout sample_world
          ++ [Msg "--> Creating interactive map for {len(df)} InSAR points...";
              Msg "    ↳ GeoJSON saved: {save_geojson_path}"].
Proof.
  assert ("insar_map.html" ≠ EmptyString) as Hne by discriminate.
  assert ("insar_map.html" ≠ save_geojson_path cli_plot_args) as Hdiff
    by discriminate.
  split; [reflexivity|]. split; [reflexivity|]. split; [exact Hne|].
  split; [exact Hdiff|].
  assert (∃ m w',
            plot_insar_points_interactive tableau [] (λ _, true) 0
              cli_plot_args sample_world = Returns (Some m) w')
    as (m & w' & E) by (eexists _, _; vm_compute; reflexivity).
  destruct (html_failure_keeps_geojson tableau [] (λ _, true) 0
              cli_plot_args sample_frame sample_world m w' "insar_map.html"
              eq_refl E eq_refl Hne Hdiff) as (w'' & H1 & H2 & H3 & H4).
  exists m, w', w''. split; [exact E|]. split; [exact H1|].
  split; [exact H2|]. split; [exact H3 | exact H4].
Defined.

(** The export of a map returns the map, if it returns. *)
Lemma export_some a T m geometry w res w' :
  export a T m geometry w = Returns res w' → res = Some m.
Proof.
  unfold export. destruct (unwritable _ _); [done|].
  destruct (html_path a) as [p|]; [|by intros [= <- _]].
  destruct (unwritable _ p); [done | by intros [= <- _]].
Qed.

Lemma render_guards TABLEAU_COLORS CSS4_COLORS float_literal T a :
  empty T = false → lat_col a ∈ columns T → lon_col a ∈ columns T →
  ∀ msg, render TABLEAU_COLORS CSS4_COLORS float_literal T a ≠ Refused msg.
Proof.
  intros He Hlat Hlon msg. unfold render. rewrite He.
  rewrite !bool_decide_eq_true_2 by done. simpl.
  repeat (match goal with
          | |- context [match ?x with _ => _ end] => destruct x
          end; try done).
Qed.

(** X9. The renderer returns [None] only when it refuses the frame: the
    frame has no rows, or no columns, or lacks the latitude or the
    longitude column.  On any other frame it returns a map, raises or
    does not end. *)
Theorem renderer_none_only_when_refusing TABLEAU_COLORS CSS4_COLORS
    float_literal df a T w w' :
  heap w !! df = Some T →
  plot_insar_points_interactive TABLEAU_COLORS CSS4_COLORS float_literal
    df a w = Returns None w' →
  rows T = [] ∨ columns T = []
  ∨ lat_col a ∉ columns T ∨ lon_col a ∉ columns T.
Proof.
  intros Hdf Hrun. rewrite (plot_run _ _ _ _ _ _ _ Hdf) in Hrun.
  destruct (rows T) as [|r rs] eqn:Hr; [by left|].
  destruct (columns T) as [|c cs] eqn:Hc; [by right; left|].
  destruct (decide (lat_col a ∈ c :: cs)) as [Hlat|Hlat];
    [|by right; right; left].
  destruct (decide (lon_col a ∈ c :: cs)) as [Hlon|Hlon];
    [|by right; right; right].
  exfalso. rewrite <- Hc in Hlat, Hlon.
  destruct (render _ _ _ T a) as [msg|e| |m' g] eqn:Er; try done.
  - apply (render_guards TABLEAU_COLORS CSS4_COLORS float_literal T a) in Er;
      [done| |done|done].
    unfold empty. by rewrite Hr, Hc.
  - by apply export_some in Hrun.
Qed.

Lemma renderer_none_only_when_refusing_witness :
  heap {| heap := [{| columns := ["owner"]; rows := rows bare_frame |}];
          stdout := []; files := ∅ |} !! 0%nat
  = Some {| columns := ["owner"]; rows := rows bare_frame |}
  ∧ ∃ w',
      plot_insar_points_interactive tableau [] (λ _, true) 0 default_args
        {| heap := [{| columns := ["owner"]; rows := rows bare_frame |}];
           stdout := []; files := ∅ |} = Returns None w'
      ∧ (rows bare_frame = [] ∨ ["owner"] = []
         ∨ "latitude" ∉ ["owner"] ∨ "longitude" ∉ ["owner"]).
Proof.
  split; [reflexivity|]. eexists. split; [vm_compute; reflexivity|].
  eapply (renderer_none_only_when_refusing tableau [] (λ _, true) 0
           default_args {| columns := ["owner"]; rows := rows bare_frame |}
           {| heap := [{| columns := ["owner"]; rows := rows bare_frame |}];
              stdout := []; files := ∅ |});
    [reflexivity | vm_compute; reflexivity].
Defined.

(** X10. A frame with rows and coordinates but without the owner column
    makes the renderer raise [KeyError] for that column before anything is
    drawn or written: the default "Unknown" of [row.get(owner_col,
    "Unknown")] is never used. *)
Theorem renderer_needs_owner_column TABLEAU_COLORS CSS4_COLORS
    float_literal df a T w :
  heap w !! df = Some T →
  empty T = false →
  lat_col a ∈ columns T → lon_col a ∈ columns T →
  owner_col a ∉ columns T →
  plot_insar_points_interactive TABLEAU_COLORS CSS4_COLORS float_literal
    df a w
  = Raises (KeyError (owner_col a))
      {| heap := heap w;
         stdout := stdout w ++
           [Msg "--> Creating interactive map for {len(df)} InSAR points..."];
         files := files w |}.
Proof.
  intros Hdf He Hlat Hlon Ho. rewrite (plot_run _ _ _ _ _ _ _ Hdf).
  unfold render. rewrite He. rewrite !bool_decide_eq_true_2 by done. simpl.
  by rewrite (getcol_err _ _ Ho).
Qed.

Lemma renderer_needs_owner_column_witness :
  heap bare_world !! 0%nat = Some bare_frame
  ∧ empty bare_frame = false
  ∧ "latitude" ∈ columns bare_frame ∧ "longitude" ∈ columns bare_frame
  ∧ ("owner" ∉ columns bare_frame)
  ∧ plot_insar_points_interactive tableau [] (λ _, true) 0 default_args
      bare_world
    = Raises (KeyError "owner")
        {| heap := heap bare_world;
           stdout := stdout bare_world ++
             [Msg "--> Creating interactive map for {len(df)} InSAR points..."];
           files := files bare_world |}.
Proof.
  assert ("latitude" ∈ columns bare_frame) as Hlat by (simpl; repeat constructor).
  assert ("longitude" ∈ columns bare_frame) as Hlon by (simpl; repeat constructor).
  assert ("owner" ∉ columns bare_frame) as Ho.
  { simpl. rewrite !elem_of_cons, elem_of_nil. intuition discriminate. }
  split; [reflexivity|]. split; [reflexivity|]. split; [exact Hlat|].
  split; [exact Hlon|]. split; [exact Ho|].
  exact (renderer_needs_owner_column tableau [] (λ _, true) 0 default_args
           bare_frame bare_world eq_refl eq_refl Hlat Hlon Ho).
Defined.

(** ** Owners of two kinds *)

(** A column with a text and a number among its values does not sort. *)
Lemma sorted_mixed col v1 v2 :
  v1 ∈ col → v2 ∈ col →
  is_text v1 = true → isna v2 = false → is_text v2 = false →
  sorted (unique (dropna col)) = Err TypeError.
Proof.
  intros H1 H2 Ht1 Hna2 Ht2.
  assert (isna v1 = false) as Hna1 by (by destruct v1).
  destruct (sorted_cases (unique (dropna col)))
    as [(k & s & Hk & _)|[_ E]]; [| |done].
  { apply unique_not_na, dropna_not_na. }
  exfalso. rewrite Forall_forall in Hk.
  assert (∀ v, v ∈ col → isna v = false → is_text v = k) as Hall.
  { intros v Hv Hna.
    assert (py_key v ∈ map py_key (unique (dropna col))) as Hin.
    { apply distinct_keys. split; [by apply isna_false_py_key|].
      by apply list_elem_of_fmap_2. }
    apply list_elem_of_fmap in Hin as (v' & E & Hv').
    rewrite <- (Hk v' Hv').
    apply isna_false_py_key in Hna as [key Hkey].
    rewrite (py_key_is_text _ _ Hkey). symmetry. apply py_key_is_text.
    by rewrite <- E. }
  pose proof (Hall v1 H1 Hna1). pose proof (Hall v2 H2 Hna2). congruence.
Qed.

(** X11. Owners must be of one kind.  If one row's owner is a text and
    another row's owner is a number, the renderer raises [TypeError] (from
    [sorted]) and writes nothing. *)
Theorem renderer_rejects_mixed_owners TABLEAU_COLORS CSS4_COLORS
    float_literal df a T w r1 r2 :
  heap w !! df = Some T →
  lat_col a ∈ columns T → lon_col a ∈ columns T →
  owner_col a ∈ columns T →
  r1 ∈ rows T → r2 ∈ rows T →
  is_text (cell (owner_col a) r1) = true →
  isna (cell (owner_col a) r2) = false →
  is_text (cell (owner_col a) r2) = false →
  plot_insar_points_interactive TABLEAU_COLORS CSS4_COLORS float_literal
    df a w
  = Raises TypeError
      {| heap := heap w;
         stdout := stdout w ++
           [Msg "--> Creating interactive map for {len(df)} InSAR points..."];
         files := files w |}.
Proof.
  intros Hdf Hlat Hlon Ho Hr1 Hr2 Ht1 Hna2 Ht2.
  rewrite (plot_run _ _ _ _ _ _ _ Hdf). unfold render.
  assert (empty T = false) as ->.
  { unfold empty. destruct (rows T); [by apply elem_of_nil in Hr1|].
    destruct (columns T); [by apply elem_of_nil in Ho | done]. }
  rewrite !bool_decide_eq_true_2 by done. simpl.
  rewrite (getcol_ok _ _ Ho).
  by rewrite (sorted_mixed _ (cell (owner_col a) r1) (cell (owner_col a) r2))
    by (by apply list_elem_of_fmap_2 || done).
Qed.

Lemma renderer_rejects_mixed_owners_witness :
  ∃ r1 r2,
    heap mixed_world !! 0%nat = Some mixed_frame
    ∧ "latitude" ∈ columns mixed_frame ∧ "longitude" ∈ columns mixed_frame
    ∧ "owner" ∈ columns mixed_frame
    ∧ r1 ∈ rows mixed_frame ∧ r2 ∈ rows mixed_frame
    ∧ is_text (cell "owner" r1) = true
    ∧ isna (cell "owner" r2) = false
    ∧ is_text (cell "owner" r2) = false
    ∧ plot_insar_points_interactive tableau [] (λ _, true) 0 default_args
        mixed_world
      = Raises TypeError
          {| heap := heap mixed_world;
             stdout := stdout mixed_world ++
               [Msg "--> Creating interactive map for {len(df)} InSAR points..."];
             files := files mixed_world |}.
Proof.
  assert ("latitude" ∈ columns mixed_frame) as Hlat by (simpl; repeat constructor).
  assert ("longitude" ∈ columns mixed_frame) as Hlon by (simpl; repeat constructor).
  assert ("owner" ∈ columns mixed_frame) as Ho by (simpl; repeat constructor).
  eexists _, _.
  assert (∀ r1 r2, r1 :: r2 :: [] = rows mixed_frame →
            r1 ∈ rows mixed_frame ∧ r2 ∈ rows mixed_frame) as Hrows.
  { intros r1 r2 <-. split; repeat constructor. }
  destruct (Hrows _ _ eq_refl) as [Hr1 Hr2].
  split; [reflexivity|]. split; [exact Hlat|]. split; [exact Hlon|].
  split; [exact Ho|]. split; [exact Hr1|]. split; [exact Hr2|].
  split; [reflexivity|]. split; [reflexivity|]. split; [reflexivity|].
  exact (renderer_rejects_mixed_owners tableau [] (λ _, true) 0 default_args
           mixed_frame mixed_world _ _ eq_refl Hlat Hlon Ho Hr1 Hr2
           eq_refl eq_refl eq_refl).
Defined.

(** ** Missing coordinates, and termination *)

Lemma length_unique_scan seen s :
  (length (unique_scan seen s) ≤ length s)%nat.
Proof.
  revert seen. induction s as [|x s IH]; intros seen; simpl; [done|].
  case_bool_decide; simpl; [specialize (IH seen) | specialize (IH (py_key x :: seen))];
    lia.
Qed.

Lemma length_distinct col s :
  sorted (unique (dropna col)) = Ok s → (length s ≤ length col)%nat.
Proof.
  intros (Hp & _)%sorted_distinct. rewrite Hp.
  etrans; [apply length_unique_scan|]. apply List.filter_length_le.
Qed.

(** A column that does not mix texts and numbers is sorted. *)
Lemma sorted_unmixed col :
  ¬ mixed col → ∃ s, sorted (unique (dropna col)) = Ok s.
Proof.
  intros Hn. destruct (sorted (unique (dropna col))) as [s|e] eqn:E;
    [by eexists|].
  by apply sorted_err_mixed in E as [_ Hm].
Qed.

Lemma apply_fails {A B} (f : A → res B) l x e :
  x ∈ l → f x = Err e → ∃ e', apply f l = Err e'.
Proof.
  intros Hx Ex. induction l as [|y l IH]; [by apply elem_of_nil in Hx|].
  simpl. destruct (f y) as [z|e1] eqn:Ey; simpl; [|by eexists].
  apply elem_of_cons in Hx as [->|Hx]; [congruence|].
  destruct (IH Hx) as [e' ->]. simpl. by eexists.
Qed.

(** X12. A row without a coordinate stops the renderer.  On a frame that
    has the four columns the renderer reads, whose owners, and whose
    instrument classes, do not mix texts and numbers, and for which the
    palette can be extended far enough: if the latitude or the longitude
    of some row is NaN (an empty cell, or a text that [float()] reads as
    NaN), the renderer raises [ValueError] after its first line, and
    writes no file. *)
Theorem renderer_rejects_missing_coordinate TABLEAU_COLORS CSS4_COLORS
    float_literal df a T w r :
  heap w !! df = Some T →
  lat_col a ∈ columns T → lon_col a ∈ columns T →
  owner_col a ∈ columns T → instr_col a ∈ columns T →
  ¬ mixed (map (cell (owner_col a)) (rows T)) →
  ¬ mixed (map (cell (instr_col a)) (rows T)) →
  CSS4_COLORS ≠ [] ∨ (len T ≤ length TABLEAU_COLORS)%nat →
  r ∈ rows T →
  float_isnan (cell (lat_col a) r) || float_isnan (cell (lon_col a) r) = true →
  plot_insar_points_interactive TABLEAU_COLORS CSS4_COLORS float_literal
    df a w
  = Raises ValueError
      {| heap := heap w;
         stdout := stdout w ++
           [Msg "--> Creating interactive map for {len(df)} InSAR points..."];
         files := files w |}.
Proof.
  intros Hdf Hlat Hlon Ho Hi Hmo Hmi Hpal Hr Hnan.
  rewrite (plot_run _ _ _ _ _ _ _ Hdf).
  enough (render TABLEAU_COLORS CSS4_COLORS float_literal T a
          = Failed ValueError) as -> by done.
  unfold render.
  assert (empty T = false) as ->.
  { unfold empty. destruct (rows T); [by apply elem_of_nil in Hr|].
    destruct (columns T); [by apply elem_of_nil in Ho | done]. }
  rewrite !bool_decide_eq_true_2 by done. simpl.
  rewrite (getcol_ok _ _ Ho), (getcol_ok _ _ Hi).
  destruct (sorted_unmixed _ Hmo) as [owners Eo]. rewrite Eo.
  assert (is_Some (extend_colors CSS4_COLORS (length owners) TABLEAU_COLORS
                     (length owners))) as [colors Ec].
  { destruct Hpal as [Hcss|Hlen].
    - apply extend_colors_enough; [done | lia].
    - apply length_distinct in Eo. rewrite length_map in Eo.
      rewrite extend_colors_done; [done|]. unfold len in Hlen. lia. }
  rewrite Ec. rewrite dict_comp_zip.
  2: { by apply sorted_distinct in Eo as (_ & _ & Hnd & _). }
  2: { apply extend_colors_some in Ec as [Hlen _]. simpl. lia. }
  unfold make_instr_icon_map.
  destruct (sorted_unmixed _ Hmi) as [classes Ei]. rewrite Ei.
  unfold res_bind at 1.
  destruct (dict_comp_total _ 0 classes [] icon_shape_total) as [dI ->].
  destruct (apply _ (map (cell (lat_col a)) _)) as [lats|e] eqn:Elat.
  2: { apply apply_err in Elat as (v & _ & Ev).
       by apply py_float_err in Ev as ->. }
  destruct (apply _ (map (cell (lon_col a)) _)) as [lons|e] eqn:Elon.
  2: { apply apply_err in Elon as (v & _ & Ev).
       by apply py_float_err in Ev as ->. }
  match goal with
  | |- context [apply (make_marker ?f ?T' ?a' ?dO ?dI') ?l] =>
      destruct (apply_fails (make_marker f T' a' dO dI') l r ValueError Hr)
        as [e Ems]; [by apply make_marker_nan|]; rewrite Ems;
      apply apply_err in Ems as (r' & _ & Er');
      by apply make_marker_err in Er' as ->
  end.
Qed.

Lemma renderer_rejects_missing_coordinate_witness :
  ∃ r,
    heap gap_world !! 0%nat = Some gap_frame
    ∧ "latitude" ∈ columns gap_frame ∧ "longitude" ∈ columns gap_frame
    ∧ "owner" ∈ columns gap_frame ∧ "instrClass" ∈ columns gap_frame
    ∧ ¬ mixed (map (cell "owner") (rows gap_frame))
    ∧ ¬ mixed (map (cell "instrClass") (rows gap_frame))
    ∧ (@nil string ≠ [] ∨ (len gap_frame ≤ length tableau)%nat)
    ∧ r ∈ rows gap_frame
    ∧ float_isnan (cell "latitude" r) || float_isnan (cell "longitude" r)
      = true
    ∧ plot_insar_points_interactive tableau [] (λ _, true) 0 default_args
        gap_world
      = Raises ValueError
          {| heap := heap gap_world;
             stdout := stdout gap_world ++
               [Msg "--> Creating interactive map for {len(df)} InSAR points..."];
             files := files gap_world |}.
Proof.
  assert ("latitude" ∈ columns gap_frame) as Hlat by (simpl; repeat constructor).
  assert ("longitude" ∈ columns gap_frame) as Hlon by (simpl; repeat constructor).
  assert ("owner" ∈ columns gap_frame) as Ho by (simpl; repeat constructor).
  assert ("instrClass" ∈ columns gap_frame) as Hi by (simpl; repeat constructor).
  assert (∀ col, Forall (λ v, is_text v = true) col → ¬ mixed col) as Htexts.
  { intros col Hcol (v1 & v2 & _ & Hv2 & _ & _ & Ht2).
    rewrite Forall_forall in Hcol. specialize (Hcol v2 Hv2). congruence. }
  assert (¬ mixed (map (cell "owner") (rows gap_frame))) as Hmo
    by (apply Htexts; repeat constructor).
  assert (¬ mixed (map (cell "instrClass") (rows gap_frame))) as Hmi
    by (apply Htexts; repeat constructor).
  assert (@nil string ≠ [] ∨ (len gap_frame ≤ length tableau)%nat) as Hpal
    by (right; unfold len, gap_frame, tableau; simpl; lia).
  eexists.
  assert (∀ r1 r2, r1 :: r2 :: [] = rows gap_frame → r2 ∈ rows gap_frame)
    as Hrows.
  { intros r1 r2 <-. repeat constructor. }
  pose proof (Hrows _ _ eq_refl) as Hr.
  split; [reflexivity|]. split; [exact Hlat|]. split; [exact Hlon|].
  split; [exact Ho|]. split; [exact Hi|]. split; [exact Hmo|].
  split; [exact Hmi|]. split; [exact Hpal|]. split; [exact Hr|].
  split; [reflexivity|].
  exact (renderer_rejects_missing_coordinate tableau [] (λ _, true) 0
           default_args gap_frame gap_world _ eq_refl Hlat Hlon Ho Hi Hmo Hmi
           Hpal Hr eq_refl).
Defined.

(** X13. The renderer ends.  With a secondary palette that is not empty,
    or with no more rows than the primary palette has colours, a run of
    the renderer returns or raises: the loop that extends the palette
    stops. *)
Theorem renderer_terminates TABLEAU_COLORS CSS4_COLORS float_literal
    df a T w :
  heap w !! df = Some T →
  CSS4_COLORS ≠ [] ∨ (len T ≤ length TABLEAU_COLORS)%nat →
  match plot_insar_points_interactive TABLEAU_COLORS CSS4_COLORS float_literal
          df a w with
  | Returns _ _ | Raises _ _ => True
  | Diverges | Stuck => False
  end.
Proof.
  intros Hdf Hpal. rewrite (plot_run _ _ _ _ _ _ _ Hdf).
  destruct (render _ _ _ T a) as [msg|e| |m g] eqn:Er; try done.
  2: { unfold export. destruct (unwritable _ _); [done|].
       destruct (html_path a) as [p|]; [|done].
       by destruct (unwritable _ p). }
  revert Er. unfold render.
  destruct (empty T); [done|]. destruct (negb _ || negb _); [done|].
  unfold getcol at 1. case_bool_decide; [|done].
  destruct (sorted _) as [owners|e] eqn:Es; [|done].
  destruct (extend_colors _ _ _ _) as [colors|] eqn:Ec.
  { repeat (match goal with
            | |- context [match ?x with _ => _ end] => destruct x
            end; try done). }
  intros _. destruct Hpal as [Hcss|Hlen].
  - destruct (extend_colors_enough CSS4_COLORS (length owners) TABLEAU_COLORS
                (length owners) Hcss) as [? ?]; [lia | congruence].
  - apply length_distinct in Es. rewrite length_map in Es.
    rewrite extend_colors_done in Ec; [done|]. unfold len in Hlen. lia.
Qed.

Lemma renderer_terminates_witness :
  heap sample_world !! 0%nat = Some sample_frame
  ∧ (@nil string ≠ [] ∨ (len sample_frame ≤ length tableau)%nat)
  ∧ match plot_insar_points_interactive tableau [] (λ _, true) 0
            cli_plot_args sample_world with
    | Returns _ _ | Raises _ _ => True
    | Diverges | Stuck => False
    end.
Proof.
  assert (@nil string ≠ [] ∨ (len sample_frame ≤ length tableau)%nat) as Hpal
    by (right; unfold len, sample_frame, tableau; simpl; lia).
  split; [reflexivity|]. split; [exact Hpal|].
  exact (renderer_terminates tableau [] (λ _, true) 0 cli_plot_args
           sample_frame sample_world eq_refl Hpal).
Defined.

(** ** The shape map *)

Lemma dict_comp_map f (g : nat → string) keys i d :
  (∀ j, f j = Ok (g j)) →
  NoDup (map py_key (map fst d ++ keys)) →
  dict_comp f i keys d = Ok (d ++ zip keys (map g (seq i (length keys)))).
Proof.
  intros Hf. revert i d. induction keys as [|k keys IH]; intros i d Hnd; simpl.
  { by rewrite app_nil_r. }
  rewrite Hf. simpl. rewrite dict_set_new.
  - rewrite IH.
    + by rewrite <- app_assoc.
    + rewrite (map_app fst). simpl. by rewrite <- app_assoc.
  - rewrite map_app in Hnd. simpl in Hnd.
    apply NoDup_app in Hnd as (_ & Hnd & _).
    intros Hin. apply (Hnd _ Hin). by left.
Qed.

Lemma index_icon_shapes j :
  index icon_shapes (j mod length icon_shapes) = Ok (shape_at j).
Proof.
  unfold index, shape_at.
  destruct (lookup_lt_is_Some_2 icon_shapes (j mod length icon_shapes))
    as [v ->]; [|done].
  apply Nat.mod_upper_bound. simpl. lia.
Qed.

Lemma shape_at_eq i j :
  shape_at i = shape_at j ↔ (i mod 5 = j mod 5)%nat.
Proof.
  unfold shape_at. simpl length.
  assert (i mod 5 < 5)%nat as Hi by (apply Nat.mod_upper_bound; lia).
  assert (j mod 5 < 5)%nat as Hj by (apply Nat.mod_upper_bound; lia).
  split; [|by intros ->].
  destruct (i mod 5)%nat as [|[|[|[|[|?]]]]], (j mod 5)%nat as [|[|[|[|[|?]]]]];
    simpl; try done; lia.
Qed.

(** X14. The shape map pairs the sorted distinct instrument classes of a
    column with the five shapes in a cycle: the class at position [i] has
    the shape at position [i mod 5], so two classes have the same shape
    exactly when their positions are equal modulo five. *)
Theorem shape_map_cycles col d :
  make_instr_icon_map col = Ok d →
  ∃ classes,
    sorted (unique (dropna col)) = Ok classes
    ∧ length d = length classes
    ∧ (∀ i c, classes !! i = Some c →
         ∃ shape, icon_shapes !! (i mod 5)%nat = Some shape
                  ∧ d !! i = Some (c, shape)
                  ∧ dict_get d c "circle" = shape)
    ∧ (∀ i j ci cj, classes !! i = Some ci → classes !! j = Some cj →
         (dict_get d ci "circle" = dict_get d cj "circle"
          ↔ (i mod 5 = j mod 5)%nat)).
Proof.
  unfold make_instr_icon_map.
  destruct (sorted _) as [classes|e] eqn:Es; [|done]. unfold res_bind.
  destruct (sorted_distinct _ _ Es) as (_ & _ & Hnd & Hna & _).
  rewrite (dict_comp_map _ shape_at) by (done || apply index_icon_shapes).
  intros [= <-]. simpl. exists classes. split; [done|].
  assert (∀ i c, classes !! i = Some c →
            zip classes (map shape_at (seq 0 (length classes))) !! i
            = Some (c, shape_at i)
            ∧ dict_get (zip classes (map shape_at (seq 0 (length classes)))) c
                "circle" = shape_at i) as Hpos.
  { intros i c Hc.
    assert (map shape_at (seq 0 (length classes)) !! i = Some (shape_at i)) as Hs.
    { rewrite list_lookup_fmap, lookup_seq_lt; [done|].
      by eapply lookup_lt_Some. }
    split.
    - apply lookup_zip_with_Some. by exists c, (shape_at i).
    - unfold dict_get. by rewrite (dict_find_zip _ _ i c (shape_at i)). }
  split; [|split].
  - rewrite length_zip, length_map, length_seq. lia.
  - intros i c Hc. destruct (Hpos i c Hc) as [H1 H2].
    exists (shape_at i). split; [|done].
    unfold shape_at. change (length icon_shapes) with 5%nat.
    destruct (lookup_lt_is_Some_2 icon_shapes (i mod 5)) as [v Hv].
    { change (length icon_shapes) with 5%nat. apply Nat.mod_upper_bound. lia. }
    by rewrite Hv.
  - intros i j ci cj Hi Hj.
    destruct (Hpos i ci Hi) as [_ ->], (Hpos j cj Hj) as [_ ->].
    apply shape_at_eq.
Qed.

Lemma shape_map_cycles_witness :
  make_instr_icon_map
    [VStr "CR"; VStr "TR"; VStr "IGRS"; VNaN; VStr "A"; VStr "B"; VStr "C"]
  = Ok [(VStr "A", "circle"); (VStr "B", "triangle"); (VStr "C", "square");
        (VStr "CR", "star"); (VStr "IGRS", "diamond"); (VStr "TR", "circle")]
  ∧ ∃ classes,
      sorted (unique (dropna
        [VStr "CR"; VStr "TR"; VStr "IGRS"; VNaN; VStr "A"; VStr "B";
         VStr "C"])) = Ok classes
      ∧ length [(VStr "A", "circle"); (VStr "B", "triangle");
                (VStr "C", "square"); (VStr "CR", "star");
                (VStr "IGRS", "diamond"); (VStr "TR", "circle")]
        = length classes
      ∧ (∀ i c, classes !! i = Some c →
           ∃ shape, icon_shapes !! (i mod 5)%nat = Some shape
                    ∧ [(VStr "A", "circle"); (VStr "B", "triangle");
                       (VStr "C", "square"); (VStr "CR", "star");
                       (VStr "IGRS", "diamond"); (VStr "TR", "circle")] !! i
                      = Some (c, shape)
                    ∧ dict_get
                        [(VStr "A", "circle"); (VStr "B", "triangle");
                         (VStr "C", "square"); (VStr "CR", "star");
                         (VStr "IGRS", "diamond"); (VStr "TR", "circle")]
                        c "circle" = shape)
      ∧ (∀ i j ci cj, classes !! i = Some ci → classes !! j = Some cj →
           (dict_get
              [(VStr "A", "circle"); (VStr "B", "triangle");
               (VStr "C", "square"); (VStr "CR", "star");
               (VStr "IGRS", "diamond"); (VStr "TR", "circle")] ci "circle"
            = dict_get
                [(VStr "A", "circle"); (VStr "B", "triangle");
                 (VStr "C", "square"); (VStr "CR", "star");
                 (VStr "IGRS", "diamond"); (VStr "TR", "circle")] cj "circle"
            ↔ (i mod 5 = j mod 5)%nat)).
Proof.
  split; [reflexivity|].
  exact (shape_map_cycles
           [VStr "CR"; VStr "TR"; VStr "IGRS"; VNaN; VStr "A"; VStr "B";
            VStr "C"] _ eq_refl).
Defined.
(** ** The filter chain of [main], run *)

Lemma main_filters_chain args df w :
  main_filters args df w = run_chain (stages args) df w.
Proof.
  unfold main_filters, stages.
  destruct (truthy (arg_countries args)), (arg_valid args),
    (arg_active args), (truthy (arg_instrClass args)),
    (truthy (arg_owners args)); reflexivity.
Qed.

Lemma select_owner_run owners df T w :
  heap w !! df = Some T → "owner" ∈ columns T →
  select_owner owners df w
  = Returns (length (heap w))
      {| heap := heap w ++ [filter_frame (Owner owners) T];
         stdout := stdout w; files := files w |}.
Proof.
  destruct w as [h o fs]. simpl. intros Hdf Hc. unfold select_owner.
  run Hdf Hc. rewrite take_mask_cells.
  by rewrite (filter_frame_selecting (Owner owners) T eq_refl).
Qed.

(** A step on a frame that has its column and, if the step uses
    [Series.apply], a row. *)
Lemma run_stage_returns s df T w :
  heap w !! df = Some T →
  filter_column (stage_filter s) ∈ columns T →
  applies (stage_filter s) = false ∨ rows T ≠ [] →
  ∃ l' w', run_stage s df w = Returns l' w'
           ∧ heap w' !! l' = Some (filter_frame (stage_filter s) T)
           ∧ heap w !! l' = None
           ∧ (∀ l X, heap w !! l = Some X → heap w' !! l = Some X)
           ∧ stdout w' = stdout w ++ stage_report s T
           ∧ files w' = files w.
Proof.
  intros Hdf Hc Hb. destruct s as [F|owners]; simpl in *.
  - destruct (run_filter_reporting F df T w Hdf Hc Hb) as (extra & ->).
    eexists _, _. split; [done|]. simpl.
    split; [rewrite lookup_app_plus; by apply list_lookup_middle|].
    split; [apply lookup_ge_None; lia|]. split; [|done].
    intros l X HX. by apply lookup_app_l_Some.
  - rewrite (select_owner_run _ _ _ _ Hdf Hc). eexists _, _.
    split; [done|]. simpl. split; [by apply list_lookup_middle|].
    split; [by apply lookup_ge_None|]. split; [|by rewrite app_nil_r].
    intros l X HX. by apply lookup_app_l_Some.
Qed.

Lemma columns_chain_frame Fs T : columns (chain_frame Fs T) = columns T.
Proof. revert T. induction Fs as [|F Fs IH]; intros T; simpl; [done|]. by rewrite IH. Qed.

Lemma run_chain_app ss1 ss2 df w :
  run_chain (ss1 ++ ss2) df w
  = bind (run_chain ss1 df) (run_chain ss2) w.
Proof.
  revert df w. induction ss1 as [|s ss1 IH]; intros df w; simpl; [done|].
  unfold bind at 1 2 3. destruct (run_stage s df w) as [l1 w1|e w1| |]; try done.
Qed.

(** A chain of steps on a frame on which its filters can be run. *)
Lemma run_chain_returns ss df T w :
  heap w !! df = Some T →
  runs_on (map stage_filter ss) T →
  ∃ l' w', run_chain ss df w = Returns l' w'
           ∧ heap w' !! l' = Some (chain_frame (map stage_filter ss) T)
           ∧ (∀ l X, heap w !! l = Some X → heap w' !! l = Some X)
           ∧ stdout w' = stdout w ++ chain_report ss T
           ∧ files w' = files w.
Proof.
  intros Hdf Hss. revert df T w Hdf Hss.
  induction ss as [|s ss IH]; intros df T w Hdf Hss; simpl.
  { exists df, w. rewrite app_nil_r. by repeat split. }
  destruct Hss as (Hs & Hb & Hss).
  destruct (run_stage_returns s df T w Hdf Hs Hb)
    as (l1 & w1 & E1 & Hl1 & Hnew1 & Hold1 & Ho1 & Hf1).
  destruct (IH l1 (filter_frame (stage_filter s) T) w1 Hl1 Hss)
    as (l' & w' & E & Hl & Hold & Ho & Hf).
  exists l', w'. unfold bind. rewrite E1, E. split; [done|]. split; [done|].
  split; [|split; [|congruence]].
  - intros l X HX. by apply Hold, Hold1.
  - by rewrite Ho, Ho1, app_assoc.
Qed.

(** A chain that reaches the non-strict instrument-class filter with a
    frame without rows stops there. *)
Lemma run_chain_crashes ss1 types ss2 df T w :
  heap w !! df = Some T →
  runs_on (map stage_filter ss1) T →
  "instrClass" ∈ columns T →
  rows (chain_frame (map stage_filter ss1) T) = [] →
  ∃ w', run_chain (ss1 ++ Logged (InstrClass types false) :: ss2) df w
        = Raises (KeyError "instrClass") w'
        ∧ (∀ l X, heap w !! l = Some X → heap w' !! l = Some X)
        ∧ stdout w'
          = stdout w ++ chain_report ss1 T
            ++ [Msg (banner (InstrClass types false))]
        ∧ files w' = files w.
Proof.
  intros Hdf Hss Hc Hrows. rewrite run_chain_app. unfold bind at 1.
  destruct (run_chain_returns ss1 df T w Hdf Hss)
    as (l1 & w1 & -> & Hl1 & Hold1 & Ho1 & Hf1).
  simpl. unfold bind at 1.
  assert ("instrClass" ∈ columns (chain_frame (map stage_filter ss1) T))
    as Hc1 by (by rewrite columns_chain_frame).
  destruct (run_instrClass_raises_after_banner types l1 _ w1 Hl1 Hc1 Hrows)
    as (extra & E).
  simpl in E. rewrite E. eexists. split; [done|]. simpl. split; [|split; [|done]].
  - intros l X HX. by apply lookup_app_l_Some, Hold1.
  - by rewrite Ho1, <- app_assoc.
Qed.

Lemma filter_filter_and {A} (p q : A → bool) l :
  List.filter p (List.filter q l) = List.filter (λ x, q x && p x) l.
Proof.
  induction l as [|x l IH]; simpl; [done|].
  destruct (q x); simpl; [destruct (p x)|]; by rewrite IH.
Qed.

Lemma passes_out_row F Fs r :
  filter_column F ∉ map filter_column Fs →
  passes Fs (out_row F r) = passes Fs r.
Proof.
  unfold passes. induction Fs as [|G Fs IH]; intros Hc; simpl; [done|].
  simpl in Hc. apply not_elem_of_cons in Hc as [Hne Hc].
  rewrite cell_out_row_ne by congruence. by rewrite IH.
Qed.

(** The rows after a list of filters of different columns: the rows that
    pass them all, each as the filters leave it. *)
Lemma rows_chain_frame Fs T :
  NoDup (map filter_column Fs) →
  rows (chain_frame Fs T)
  = map (out_rows Fs) (List.filter (passes Fs) (rows T)).
Proof.
  revert T. induction Fs as [|F Fs IH]; intros T Hnd; simpl.
  { unfold passes. simpl. rewrite filter_all_true by (by apply Forall_forall).
    by rewrite map_id. }
  apply NoDup_cons in Hnd as [Hc Hnd]. rewrite IH by done.
  unfold filter_frame at 1. simpl. rewrite filter_map_comm, map_map.
  unfold kept_rows. rewrite filter_filter_and. f_equal.
  apply filter_ext_in. intros r _. unfold passes at 2. simpl.
  by rewrite passes_out_row.
Qed.

Lemma enabled_columns args : NoDup (map filter_column (enabled args)).
Proof.
  unfold enabled, stages.
  destruct (truthy (arg_countries args)), (arg_valid args),
    (arg_active args), (truthy (arg_instrClass args)),
    (truthy (arg_owners args)); simpl;
    apply (bool_decide_unpack _); exact I.
Qed.

Lemma before_columns args : NoDup (map filter_column (before_instrClass args)).
Proof.
  unfold before_instrClass.
  destruct (truthy (arg_countries args)), (arg_valid args),
    (arg_active args); simpl; apply (bool_decide_unpack _); exact I.
Qed.

(** The steps of [main]: the filters before the instrument-class filter,
    that filter, the selection by owner. *)
Lemma stages_split args :
  stages args
  = map Logged (before_instrClass args)
    ++ (if truthy (arg_instrClass args)
        then [Logged (InstrClass (arg_instrClass args) (arg_strict args))]
        else [])
    ++ (if truthy (arg_owners args) then [Inline (arg_owners args)] else []).
Proof.
  unfold stages, before_instrClass.
  destruct (truthy (arg_countries args)), (arg_valid args),
    (arg_active args); reflexivity.
Qed.

Lemma stage_filter_logged Fs : map stage_filter (map Logged Fs) = Fs.
Proof. induction Fs as [|F Fs IH]; simpl; [done | by rewrite IH]. Qed.

Lemma before_boolean args :
  Forall (λ F, applies F = false) (before_instrClass args).
Proof.
  unfold before_instrClass.
  destruct (truthy (arg_countries args)), (arg_valid args),
    (arg_active args); simpl; repeat constructor.
Qed.

(** Filters with boolean masks run on every frame that has their
    columns. *)
Lemma runs_on_boolean Fs T :
  Forall (λ F, applies F = false) Fs →
  Forall (λ F, filter_column F ∈ columns T) Fs →
  runs_on Fs T.
Proof.
  intros Hb. revert T. induction Hb as [|F Fs HF _ IH]; intros T Hc; simpl.
  { done. }
  apply Forall_cons in Hc as [Hc Hcs]. split; [done|]. split; [by left|].
  by apply IH.
Qed.

Lemma runs_on_app Fs1 Fs2 T :
  runs_on Fs1 T → runs_on Fs2 (chain_frame Fs1 T) → runs_on (Fs1 ++ Fs2) T.
Proof.
  revert T. induction Fs1 as [|F Fs1 IH]; intros T; simpl; [done|].
  intros (Hc & Hb & H1) H2. split; [done|]. split; [done|]. by apply IH.
Qed.

Lemma columns_before args T :
  Forall (λ F, filter_column F ∈ columns T) (enabled args) →
  Forall (λ F, filter_column F ∈ columns T) (before_instrClass args).
Proof.
  unfold enabled. rewrite stages_split, map_app, stage_filter_logged.
  by intros [H _]%Forall_app.
Qed.

(** When the filters of [main] can be run: the frame has their columns,
    and the non-strict instrument-class filter, if it is switched on,
    finds a row that passed the filters before it. *)
Lemma enabled_runs_on args T :
  Forall (λ F, filter_column F ∈ columns T) (enabled args) →
  (nonstrict_on args = true →
   List.filter (passes (before_instrClass args)) (rows T) ≠ []) →
  runs_on (enabled args) T.
Proof.
  intros Hc Hrows. pose proof (columns_before args T Hc) as Hcb.
  unfold enabled in *. rewrite stages_split, map_app, stage_filter_logged in *.
  apply Forall_app in Hc as [_ Hc].
  apply runs_on_app; [by apply runs_on_boolean; [apply before_boolean|]|].
  assert (rows (chain_frame (before_instrClass args) T) ≠ []
          ∨ nonstrict_on args = false) as Hr.
  { destruct (nonstrict_on args) eqn:En; [left | by right].
    rewrite rows_chain_frame by apply before_columns.
    intros E. apply fmap_nil_inv in E. by apply Hrows. }
  unfold nonstrict_on in Hr. rewrite map_app in *.
  destruct (truthy (arg_instrClass args)), (truthy (arg_owners args));
    simpl in *; rewrite ?columns_chain_frame;
    repeat match goal with
           | H : Forall _ (_ :: _) |- _ => apply Forall_cons in H as [? H]
           end; try done.
  - split; [done|]. split; [|split; [done|split; [by left | done]]].
    destruct (arg_strict args); [by left|]. right. by destruct Hr.
  - split; [done|]. split; [|done].
    destruct (arg_strict args); [by left|]. right. by destruct Hr.
  - split; [done|]. split; [by left | done].
Qed.

Lemma from_row_refl c r : from_row c r r.
Proof. by split. Qed.

Lemma from_row_trans c r1 r2 r3 :
  from_row c r1 r2 → from_row c r2 r3 → from_row c r1 r3.
Proof.
  intros [L1 C1] [L2 C2]. split; [congruence|].
  intros c' Hc. by rewrite C2, C1.
Qed.

(** Filters that select, and filters of one column: only that column
    differs in the rows they leave. *)
Lemma from_row_out_rows c Fs r :
  Forall (λ F, selects_only F = true ∨ filter_column F = c) Fs →
  from_row c r (out_rows Fs r).
Proof.
  intros H. revert r. induction H as [|F Fs HF _ IH]; intros r; simpl.
  { apply from_row_refl. }
  apply (from_row_trans _ _ (out_row F r)); [|apply IH].
  destruct HF as [HF| <-]; [|apply from_row_out_row].
  rewrite out_row_selects_only by done. apply from_row_refl.
Qed.

Lemma enabled_rewrite_instrClass args :
  Forall (λ F, selects_only F = true ∨ filter_column F = "instrClass")
    (enabled args).
Proof.
  unfold enabled, stages.
  destruct (truthy (arg_countries args)), (arg_valid args),
    (arg_active args), (truthy (arg_instrClass args)),
    (truthy (arg_owners args)); simpl;
    repeat (constructor; [by (left + right)|]); constructor.
Qed.

(** X15. The filters of [main].  Take a frame that has the column of each
    filter that the arguments switch on, and let the non-strict
    instrument-class filter, if it is switched on, find a row that passes
    the filters before it (country, valid, active).  Then the run returns
    a frame with the columns of the input, whose rows are the input rows
    that pass every filter switched on, in the order of the input and each
    differing from its input row in [instrClass] at most; the input frame
    is still in the store as it was and no file is written. *)
Theorem main_filters_select args df T w :
  heap w !! df = Some T →
  Forall (λ F, filter_column F ∈ columns T) (enabled args) →
  (nonstrict_on args = true →
   List.filter (passes (before_instrClass args)) (rows T) ≠ []) →
  ∃ l' w' T',
    main_filters args df w = Returns l' w'
    ∧ heap w' !! l' = Some T'
    ∧ columns T' = columns T
    ∧ rows T' = map (out_rows (enabled args))
                  (List.filter (passes (enabled args)) (rows T))
    ∧ Forall2 (from_row "instrClass")
        (List.filter (passes (enabled args)) (rows T)) (rows T')
    ∧ heap w' !! df = Some T
    ∧ files w' = files w.
Proof.
  intros Hdf Hc Hrows. rewrite main_filters_chain.
  destruct (run_chain_returns (stages args) df T w Hdf)
    as (l' & w' & E & Hl & Hold & _ & Hf).
  { by apply enabled_runs_on. }
  exists l', w', (chain_frame (enabled args) T).
  pose proof (rows_chain_frame (enabled args) T (enabled_columns args)) as Hr.
  split; [done|]. split; [done|]. split; [apply columns_chain_frame|].
  split; [done|]. split; [|split; [by apply Hold | done]].
  rewrite Hr. apply Forall2_fmap_r, Forall_Forall2_diag, Forall_forall.
  intros r _. apply from_row_out_rows, enabled_rewrite_instrClass.
Qed.

Lemma sample_enabled_columns args :
  arg_countries args ≠ [] → arg_instrClass args ≠ [] →
  arg_owners args = [] → arg_valid args = true → arg_active args = true →
  Forall (λ F, filter_column F ∈ columns sample_frame) (enabled args).
Proof.
  intros Hcs Hi Ho Hv Ha. unfold enabled, stages.
  rewrite Ho, Hv, Ha.
  destruct (arg_countries args); [done|].
  destruct (arg_instrClass args); [done|]. simpl.
  repeat (constructor; [apply (bool_decide_unpack _); exact I|]).
  constructor.
Qed.

Lemma main_filters_select_witness :
  heap sample_world !! 0%nat = Some sample_frame
  ∧ Forall (λ F, filter_column F ∈ columns sample_frame)
      (enabled cli_defaults)
  ∧ (nonstrict_on cli_defaults = true →
     List.filter (passes (before_instrClass cli_defaults)) (rows sample_frame)
     ≠ [])
  ∧ ∃ l' w' T',
      main_filters cli_defaults 0%nat sample_world = Returns l' w'
      ∧ heap w' !! l' = Some T'
      ∧ columns T' = columns sample_frame
      ∧ rows T' = map (out_rows (enabled cli_defaults))
                    (List.filter (passes (enabled cli_defaults))
                       (rows sample_frame))
      ∧ Forall2 (from_row "instrClass")
          (List.filter (passes (enabled cli_defaults)) (rows sample_frame))
          (rows T')
      ∧ heap w' !! 0%nat = Some sample_frame
      ∧ files w' = files sample_world.
Proof.
  assert (Forall (λ F, filter_column F ∈ columns sample_frame)
            (enabled cli_defaults)) as H
    by (by apply sample_enabled_columns).
  assert (nonstrict_on cli_defaults = true →
          List.filter (passes (before_instrClass cli_defaults))
            (rows sample_frame) ≠ []) as Hr
    by (intros _; discriminate).
  split; [reflexivity|]. split; [exact H|]. split; [exact Hr|].
  exact (main_filters_select cli_defaults 0%nat sample_frame sample_world
           eq_refl H Hr).
Defined.



(** X17. An emptied table stops [main] at the instrument-class filter.
    With the non-strict instrument-class filter switched on, as it is by
    default, on a frame that has the columns of the filters: if no row
    passes the filters before it (country, valid, active), the run raises
    [KeyError] for [instrClass] after the banner of that filter; the
    frames of the store are as they were and no file is written. *)
Theorem main_filters_stop_on_empty args df T w :
  heap w !! df = Some T →
  Forall (λ F, filter_column F ∈ columns T) (enabled args) →
  nonstrict_on args = true →
  List.filter (passes (before_instrClass args)) (rows T) = [] →
  ∃ w',
    main_filters args df w = Raises (KeyError "instrClass") w'
    ∧ (∀ l X, heap w !! l = Some X → heap w' !! l = Some X)
    ∧ stdout w'
      = stdout w ++ chain_report (map Logged (before_instrClass args)) T
        ++ [Msg (banner (InstrClass (arg_instrClass args) false))]
    ∧ files w' = files w.
Proof.
  intros Hdf Hc Hon Hrows. rewrite main_filters_chain.
  pose proof (columns_before args T Hc) as Hcb.
  unfold enabled in Hc. rewrite stages_split in Hc |- *.
  unfold nonstrict_on in Hon. apply andb_true_iff in Hon as [Hi Hs].
  apply negb_true_iff in Hs. rewrite Hi, Hs in Hc |- *.
  rewrite !map_app, stage_filter_logged in Hc.
  apply Forall_app in Hc as [_ Hc]. simpl in Hc.
  apply Forall_cons in Hc as [Hci _]. simpl in Hci.
  apply (run_chain_crashes (map Logged (before_instrClass args))
           (arg_instrClass args) _ df T w Hdf).
  - rewrite stage_filter_logged.
    by apply runs_on_boolean; [apply before_boolean|].
  - done.
  - rewrite stage_filter_logged, rows_chain_frame by apply before_columns.
    by rewrite Hrows.
Qed.

Lemma main_filters_stop_on_empty_witness :
  heap sample_world !! 0%nat = Some sample_frame
  ∧ Forall (λ F, filter_column F ∈ columns sample_frame)
      (enabled cli_elsewhere)
  ∧ nonstrict_on cli_elsewhere = true
  ∧ List.filter (passes (before_instrClass cli_elsewhere)) (rows sample_frame)
    = []
  ∧ ∃ w',
      main_filters cli_elsewhere 0%nat sample_world
      = Raises (KeyError "instrClass") w'
      ∧ (∀ l X, heap sample_world !! l = Some X → heap w' !! l = Some X)
      ∧ stdout w'
        = stdout sample_world
          ++ chain_report (map Logged (before_instrClass cli_elsewhere))
               sample_frame
          ++ [Msg (banner (InstrClass (arg_instrClass cli_elsewhere) false))]
      ∧ files w' = files sample_world.
Proof.
  assert (Forall (λ F, filter_column F ∈ columns sample_frame)
            (enabled cli_elsewhere)) as H
    by (by apply sample_enabled_columns).
  split; [reflexivity|]. split; [exact H|]. split; [reflexivity|].
  split; [reflexivity|].
  exact (main_filters_stop_on_empty cli_elsewhere 0%nat sample_frame
           sample_world eq_refl H eq_refl eq_refl).
Defined.

(** X18. How the body of [main] ends when no row is left (without a CSV
    file), on a frame that has the columns of the filters switched on and
    of which no row passes them all.  If the non-strict instrument-class
    filter is switched on and no row passes the filters before it, the
    run raises [KeyError] for [instrClass].  Otherwise the renderer is
    called with a frame without rows: it prints that there is no data, and
    the run ends without a map.  In both cases no file is written. *)
Theorem main_body_without_rows TABLEAU_COLORS CSS4_COLORS float_literal
    args o df T w :
  heap w !! df = Some T →
  Forall (λ F, filter_column F ∈ columns T) (enabled args) →
  List.filter (passes (enabled args)) (rows T) = [] →
  (nonstrict_on args = true
   ∧ List.filter (passes (before_instrClass args)) (rows T) = [] →
   ∃ w',
     main_body TABLEAU_COLORS CSS4_COLORS float_literal args o df w
     = Raises (KeyError "instrClass") w'
     ∧ files w' = files w)
  ∧ (¬ (nonstrict_on args = true
        ∧ List.filter (passes (before_instrClass args)) (rows T) = []) →
     ∃ w',
       main_body TABLEAU_COLORS CSS4_COLORS float_literal args o df w
       = Returns None w'
       ∧ stdout w'
         = stdout w ++ chain_report (stages args) T
           ++ [Msg "Error: No data to plot (DataFrame is empty)."]
       ∧ files w' = files w).
Proof.
  intros Hdf Hc Hnone. unfold main_body, bind. split.
  - intros [Hon Hrows].
    rewrite main_filters_chain.
    pose proof (columns_before args T Hc) as Hcb.
    unfold enabled in Hc. rewrite stages_split in Hc |- *.
    unfold nonstrict_on in Hon. apply andb_true_iff in Hon as [Hi Hs].
    apply negb_true_iff in Hs. rewrite Hi, Hs in Hc |- *.
    rewrite !map_app, stage_filter_logged in Hc.
    apply Forall_app in Hc as [_ Hc]. simpl in Hc.
    apply Forall_cons in Hc as [Hci _]. simpl in Hci.
    destruct (run_chain_crashes (map Logged (before_instrClass args))
                (arg_instrClass args)
                (if truthy (arg_owners args)
                 then [Inline (arg_owners args)] else [])
                df T w Hdf) as (w' & E & _ & _ & Hf).
    + rewrite stage_filter_logged.
      by apply runs_on_boolean; [apply before_boolean|].
    + done.
    + rewrite stage_filter_logged, rows_chain_frame by apply before_columns.
      by rewrite Hrows.
    + cbn [app]. rewrite E. by eexists.
  - intros Hnot. rewrite main_filters_chain.
    destruct (run_chain_returns (stages args) df T w Hdf)
      as (l' & w' & E & Hl & _ & Ho & Hf).
    { apply enabled_runs_on; [done|]. intros Hon Hrows. by apply Hnot. }
    rewrite E. fold (enabled args) in Hl.
    rewrite (plot_run _ _ _ _ _ _ _ Hl).
    assert (render TABLEAU_COLORS CSS4_COLORS float_literal
              (chain_frame (enabled args) T) (main_plot_args o)
            = Refused "Error: No data to plot (DataFrame is empty).") as ->.
    { unfold render, empty.
      rewrite (rows_chain_frame _ _ (enabled_columns args)).
      by rewrite Hnone. }
    eexists. split; [done|]. simpl. split; [|done].
    by rewrite Ho, <- app_assoc.
Qed.

Lemma main_body_without_rows_witness :
  heap sample_world !! 0%nat = Some sample_frame
  ∧ Forall (λ F, filter_column F ∈ columns sample_frame)
      (enabled cli_elsewhere)
  ∧ List.filter (passes (enabled cli_elsewhere)) (rows sample_frame) = []
  ∧ (nonstrict_on cli_elsewhere = true
     ∧ List.filter (passes (before_instrClass cli_elsewhere))
         (rows sample_frame) = [] →
     ∃ w',
       main_body tableau css4_head (λ _, true) cli_elsewhere
         cli_outputs_defaults 0%nat sample_world
       = Raises (KeyError "instrClass") w'
       ∧ files w' = files sample_world)
  ∧ (¬ (nonstrict_on cli_elsewhere = true
        ∧ List.filter (passes (before_instrClass cli_elsewhere))
            (rows sample_frame) = []) →
     ∃ w',
       main_body tableau css4_head (λ _, true) cli_elsewhere
         cli_outputs_defaults 0%nat sample_world
       = Returns None w'
       ∧ stdout w'
         = stdout sample_world
           ++ chain_report (stages cli_elsewhere) sample_frame
           ++ [Msg "Error: No data to plot (DataFrame is empty)."]
       ∧ files w' = files sample_world).
Proof.
  assert (Forall (λ F, filter_column F ∈ columns sample_frame)
            (enabled cli_elsewhere)) as H
    by (by apply sample_enabled_columns).
  split; [reflexivity|]. split; [exact H|]. split; [reflexivity|].
  exact (main_body_without_rows tableau css4_head (λ _, true) cli_elsewhere
           cli_outputs_defaults 0%nat sample_frame sample_world
           eq_refl H eq_refl).
Defined.
